(** * dev-events-nextjs: the normalisation and validation layer

    A shallow embedding of the event/booking data layer of the application
    (database/event.model.ts, database/booking.model.ts, lib/mongodb.ts,
    the createBooking server action and the GET /api/events/[slug] route)
    together with the properties the specification states about it. *)

From Stdlib Require Import List NArith ZArith Bool Lia String Ascii.
Import ListNotations.

(** ** JavaScript strings

    A JavaScript string is a sequence of UTF-16 code units.  Code units are
    kept as [N]; string literals of the source are written [js "..."]. *)

Module JS.

Local Open Scope N_scope.

Abbreviation code_unit := N.
Abbreviation jsstring := (list code_unit).

Definition js (s : string) : jsstring :=
  map N_of_ascii (list_ascii_of_string s).

Definition unit_eqb (a b : code_unit) : bool := a =? b.

Fixpoint str_eqb (a b : jsstring) : bool :=
  match a, b with
  | [], [] => true
  | x :: a', y :: b' => unit_eqb x y && str_eqb a' b'
  | _, _ => false
  end.

(** The characters [String.prototype.trim] strips and the regular
    expression class [\s] matches: WhiteSpace and LineTerminator of
    ECMAScript (TAB, LF, VT, FF, CR, SP, NBSP, U+1680, U+2000..U+200A,
    U+2028, U+2029, U+202F, U+205F, U+3000, U+FEFF). *)
Definition isWhiteSpace (c : code_unit) : bool :=
  ((9 <=? c) && (c <=? 13)) || (c =? 32) || (c =? 160) || (c =? 5760)
  || ((8192 <=? c) && (c <=? 8202)) || (c =? 8232) || (c =? 8233)
  || (c =? 8239) || (c =? 8287) || (c =? 12288) || (c =? 65279).

Fixpoint trimStart (s : jsstring) : jsstring :=
  match s with
  | [] => []
  | c :: r => if isWhiteSpace c then trimStart r else s
  end.

Definition trimEnd (s : jsstring) : jsstring := rev (trimStart (rev s)).

(** [value.trim()] *)
Definition trim (s : jsstring) : jsstring := trimEnd (trimStart s).

(** [String.prototype.toLowerCase], one code unit at a time.  The ASCII
    letters A-Z go to a-z.  Two code points outside ASCII have a lower-case
    form that contains an ASCII letter: U+0130 (capital I with dot above)
    becomes i followed by U+0307, and U+212A (Kelvin sign) becomes k.  Every
    other code unit from 0x80 up is kept as it is: its Unicode lower-case
    form consists of code units from 0x80 up again, white space is left
    alone by lower-casing, and the functions below treat all the code
    units from 0x80 up that are not white space alike. *)
Definition lowerUnit (c : code_unit) : jsstring :=
  if (65 <=? c) && (c <=? 90) then [c + 32]
  else if c =? 304 then [105; 775]
  else if c =? 8490 then [107]
  else [c].

Definition toLowerCase (s : jsstring) : jsstring := flat_map lowerUnit s.

Definition isDigit (c : code_unit) : bool := (48 <=? c) && (c <=? 57).

(** [s.startsWith(c)] and [s.endsWith(c)] for a single character. *)
Definition startsWith (c : code_unit) (s : jsstring) : bool :=
  match s with
  | [] => false
  | x :: _ => x =? c
  end.

Definition endsWith (c : code_unit) (s : jsstring) : bool :=
  startsWith c (rev s).

(** The decimal digits of [n], least significant first into [acc]. *)
Fixpoint digitsFuel (fuel : nat) (n : N) (acc : jsstring) : jsstring :=
  match fuel with
  | O => acc
  | S f =>
      let acc' := (48 + n mod 10) :: acc in
      if n / 10 =? 0 then acc' else digitsFuel f (n / 10) acc'
  end.

(** [String(n)] for a non-negative integer: its decimal digits. *)
Definition decimal (n : N) : jsstring :=
  digitsFuel (S (N.to_nat (N.log2 n))) n [].

(** [String(z)] for an integer: a minus sign before the digits of a
    negative number. *)
Definition numberToString (z : Z) : jsstring :=
  if (z <? 0)%Z then 45 :: decimal (Z.to_N (- z)) else decimal (Z.to_N z).

(** [s.padStart(2, '0')] *)
Definition padStart2 (s : jsstring) : jsstring :=
  match s with
  | [] => [48; 48]
  | [c] => [48; c]
  | _ => s
  end.

(** [parseInt(s, 10)] on a string of decimal digits. *)
Fixpoint parseDigits (acc : Z) (s : jsstring) : Z :=
  match s with
  | [] => acc
  | c :: r => parseDigits (acc * 10 + (Z.of_N c - 48)) r
  end.

Definition parseInt10 (s : jsstring) : Z := parseDigits 0 s.

(** Exceptions.  [Error] is [new Error(message)]; [TypeError] is what the
    runtime raises on a method call on [undefined]; [ValidationError] is
    Mongoose's, with one message per failing path; [Fault] stands for an
    error raised by the driver or the network, identified by a number. *)
Inductive exn : Type :=
| Error (message : jsstring)
| TypeError
| ValidationError (errors : list (jsstring * jsstring))
| Fault (code : N).

(** The outcome of a call: a value, or an exception thrown. *)
Inductive result (A : Type) : Type :=
| Ok (a : A)
| Throw (e : exn).

Arguments Ok {A} a.
Arguments Throw {A} e.

Definition bind {A B : Type} (r : result A) (k : A -> result B) : result B :=
  match r with
  | Ok a => k a
  | Throw e => Throw e
  end.

Definition isOk {A : Type} (r : result A) : bool :=
  match r with Ok _ => true | Throw _ => false end.

End JS.

Import JS.

Declare Scope js_scope.
Notation "x <- a ;; b" := (bind a (fun x => b))
  (at level 61, a at next level, right associativity) : js_scope.

(** ** database/event.model.ts *)

Module EventModel.

Local Open Scope N_scope.
Local Open Scope js_scope.

(** Mongoose's ObjectId, a 96-bit number. *)
Definition ObjectId := N.

(** [EventAttrs], lines 6-21.  A field holds [None] when the JavaScript
    value is not a string (respectively not an array). *)
Record EventAttrs : Type := mkEventAttrs {
  title : option jsstring;
  slug : option jsstring;
  description : option jsstring;
  overview : option jsstring;
  image : option jsstring;
  venue : option jsstring;
  location : option jsstring;
  date : option jsstring;
  time : option jsstring;
  mode : option jsstring;
  audience : option jsstring;
  agenda : option (list jsstring);
  organizer : option jsstring;
  tags : option (list jsstring)
}.

(** A Mongoose document of the Event model: its fields and what the
    hook reads of Mongoose's change tracking, [isModified('title')]. *)
Record EventDoc : Type := mkEventDoc {
  attrs : EventAttrs;
  titleModified : bool
}.

(** [assertNonEmpty], lines 29-34. *)
Definition assertNonEmpty (value : option jsstring) (field : jsstring)
  : result jsstring :=
  match value with
  | None => Throw (Error (field ++ js " must be a string"))
  | Some s =>
      let v := trim s in
      match v with
      | [] => Throw (Error (field ++ js " is required"))
      | _ => Ok v
      end
  end.

(** The class [a-z0-9] of the slug expression. *)
Definition isSlugAlnum (c : code_unit) : bool :=
  ((97 <=? c) && (c <=? 122)) || ((48 <=? c) && (c <=? 57)).

(** The class ['`]: apostrophe and backtick. *)
Definition isQuote (c : code_unit) : bool := (c =? 39) || (c =? 96).

Definition hyphen : code_unit := 45.

(** [.replace(/['`]/g, '')] *)
Definition removeQuotes (s : jsstring) : jsstring :=
  filter (fun c => negb (isQuote c)) s.

(** [.replace(/[^a-z0-9]+/g, '-')]: every maximal run of characters outside
    [a-z0-9] becomes one hyphen.  [inRun] tells that the run the scan is in
    has already produced its hyphen. *)
Fixpoint hyphenate (inRun : bool) (s : jsstring) : jsstring :=
  match s with
  | [] => []
  | c :: r =>
      if isSlugAlnum c then c :: hyphenate false r
      else if inRun then hyphenate true r
      else hyphen :: hyphenate true r
  end.

(** [.replace(/(^-|-$)+/g, '')].  The alternative [^-] can only match at
    index 0 and [-$] only at the last index, so the global replacement
    deletes a hyphen at index 0 and a hyphen at the last index, and nothing
    else (of a longer run of hyphens only the outermost one goes). *)
Definition dropLeadingHyphen (s : jsstring) : jsstring :=
  match s with
  | [] => []
  | c :: r => if c =? hyphen then r else s
  end.

Definition dropTrailingHyphen (s : jsstring) : jsstring :=
  rev (dropLeadingHyphen (rev s)).

Definition stripEdgeHyphens (s : jsstring) : jsstring :=
  dropTrailingHyphen (dropLeadingHyphen s).

(** [slugify], lines 37-43. *)
Definition slugify (input : jsstring) : jsstring :=
  stripEdgeHyphens (hyphenate false (removeQuotes (trim (toLowerCase input)))).

(** *** Dates *)

Local Open Scope Z_scope.

Definition msPerDay : Z := 86400000.

(** The proleptic Gregorian calendar of ECMAScript's [MakeDay] and of
    [YearFromTime], [MonthFromTime], [DateFromTime]: day number since
    1970-01-01 of a civil date, and back.  Months count from 1 here. *)
Definition daysFromCivil (y m d : Z) : Z :=
  let y' := if m <=? 2 then y - 1 else y in
  let era := y' / 400 in
  let yoe := y' - era * 400 in
  let mp := if m <=? 2 then m + 9 else m - 3 in
  let doy := (153 * mp + 2) / 5 + d - 1 in
  let doe := yoe * 365 + yoe / 4 - yoe / 100 + doy in
  era * 146097 + doe - 719468.

Definition civilFromDays (n : Z) : Z * Z * Z :=
  let z := n + 719468 in
  let era := z / 146097 in
  let doe := z - era * 146097 in
  let yoe := (doe - doe / 1460 + doe / 36524 - doe / 146096) / 365 in
  let doy := doe - (365 * yoe + yoe / 4 - yoe / 100) in
  let mp := (5 * doy + 2) / 153 in
  let d := doy - (153 * mp + 2) / 5 + 1 in
  let m := if mp <? 10 then mp + 3 else mp - 9 in
  let y := yoe + era * 400 in
  (if m <=? 2 then y + 1 else y, m, d).

Definition isLeapYear (y : Z) : bool :=
  ((y mod 4 =? 0) && negb (y mod 100 =? 0)) || (y mod 400 =? 0).

Definition daysInMonth (y m : Z) : Z :=
  if m =? 2 then (if isLeapYear y then 29 else 28)
  else if (m =? 4) || (m =? 6) || (m =? 9) || (m =? 11) then 30
  else 31.

(** The date-only form [YYYY-MM-DD] of ECMAScript's Date Time String
    Format, which [Date.parse] reads as midnight UTC of that day.  Only a
    string that names a day of the calendar counts. *)
Definition parseIsoDate (s : jsstring) : option Z :=
  match s with
  | [y1; y2; y3; y4; h1; m1; m2; h2; d1; d2] =>
      if forallb isDigit [y1; y2; y3; y4; m1; m2; d1; d2]
         && (h1 =? 45)%N && (h2 =? 45)%N
      then
        let y := parseInt10 [y1; y2; y3; y4] in
        let m := parseInt10 [m1; m2] in
        let d := parseInt10 [d1; d2] in
        if (1 <=? m) && (m <=? 12) && (1 <=? d) && (d <=? daysInMonth y m)
        then Some (daysFromCivil y m d * msPerDay)
        else None
      else None
  | _ => None
  end.

(** *** Times *)

Local Open Scope N_scope.

Definition orElse {A : Type} (a b : option A) : option A :=
  match a with
  | Some _ => a
  | None => b
  end.

(** [[ap]] and [m] under the flag [i]: both cases of the letter.  (Without
    the flag [u], case folding never identifies a character outside ASCII
    with an ASCII one.) *)
Definition isAP (c : code_unit) : bool :=
  (c =? 97) || (c =? 65) || (c =? 112) || (c =? 80).

Definition isM (c : code_unit) : bool := (c =? 109) || (c =? 77).

Definition isEmpty (s : jsstring) : bool :=
  match s with [] => true | _ => false end.

(** The end of the time expression, [\s*([ap]m)?\s*$]: the capture of
    group 3, if the rest of the string matches.  [\s*] takes all the white
    space there is; giving some back cannot help, as neither [[ap]] nor the
    end of the string is at a white space character. *)
Definition matchSuffix (s : jsstring) : option (option jsstring) :=
  match trimStart s with
  | [] => Some None
  | a :: m :: r =>
      if isAP a && isM m && isEmpty (trimStart r) then Some (Some [a; m])
      else None
  | _ => None
  end.

(** [(\d{2})] and then the end of the expression. *)
Definition matchTwoDigits (s : jsstring)
  : option (option jsstring * option jsstring) :=
  match s with
  | d1 :: d2 :: r =>
      if isDigit d1 && isDigit d2
      then option_map (fun ap => (Some [d1; d2], ap)) (matchSuffix r)
      else None
  | _ => None
  end.

(** [(?::?(\d{2}))?] and then the end of the expression, with the
    alternatives in the order the matcher tries them: the group with its
    colon, the group without the colon, no group at all. *)
Definition matchMinutes (s : jsstring)
  : option (option jsstring * option jsstring) :=
  orElse (match s with
          | c :: r => if c =? 58 then matchTwoDigits r else None
          | [] => None
          end)
    (orElse (matchTwoDigits s)
       (option_map (fun ap => (None, ap)) (matchSuffix s))).

(** [v.match(/^\s*(\d{1,2})(?::?(\d{2}))?\s*([ap]m)?\s*$/i)]: the
    captures of groups 1, 2 and 3.  [\d{1,2}] is greedy: two digits are
    tried before one. *)
Definition matchTime (v : jsstring)
  : option (jsstring * option jsstring * option jsstring) :=
  let s := trimStart v in
  orElse (match s with
          | h1 :: h2 :: r =>
              if isDigit h1 && isDigit h2
              then option_map (fun c => ([h1; h2], fst c, snd c))
                     (matchMinutes r)
              else None
          | _ => None
          end)
    (match s with
     | h1 :: r =>
         if isDigit h1
         then option_map (fun c => ([h1], fst c, snd c)) (matchMinutes r)
         else None
     | [] => None
     end).

Local Open Scope Z_scope.

(** [normalizeTime], lines 57-71. *)
Definition normalizeTime (value : jsstring) : result jsstring :=
  let v := trim value in
  match matchTime v with
  | None => Throw (Error (js "time is invalid"))
  | Some (g1, g2, g3) =>
      let hours := parseInt10 g1 in
      let minutes :=
        parseInt10 (match g2 with Some d => d | None => js "0" end) in
      let ampm :=
        toLowerCase (match g3 with Some a => a | None => js "" end) in
      let hours :=
        if isEmpty ampm then hours
        else
          let hours := if hours =? 12 then 0 else hours in
          if str_eqb ampm (js "pm") then hours + 12 else hours in
      if (hours <? 0) || (hours >? 23) || (minutes <? 0) || (minutes >? 59)
      then Throw (Error (js "time is invalid"))
      else Ok (padStart2 (numberToString hours) ++ js ":"
               ++ padStart2 (numberToString minutes))
  end.

(** What [normalizeDate] is given: a string, or a [Date] object with its
    time value in milliseconds since the epoch ([None] is NaN). *)
Inductive DateInput : Type :=
| DateString (s : jsstring)
| DateObject (t : option Z).

Section Dates.

(** How the JavaScript engine reads the strings that are not a date-only
    ISO string: the other forms of the Date Time String Format (which
    depend on the local time zone) and the engine's own fallback formats.
    [None] is an invalid date, whose time value is NaN. *)
Variable engineParse : jsstring -> option Z.

(** The time value of [new Date(s)]. *)
Definition dateParse (s : jsstring) : option Z :=
  match parseIsoDate s with
  | Some t => Some t
  | None => engineParse s
  end.

(** [normalizeDate], lines 46-54. *)
Definition normalizeDate (value : DateInput) : result jsstring :=
  let d := match value with
           | DateString s => dateParse s
           | DateObject t => t
           end in
  match d with
  | None => Throw (Error (js "date is invalid"))
  | Some t =>
      let '(year, month, day) := civilFromDays (t / msPerDay) in
      let yyyy := numberToString year in
      let mm := padStart2 (numberToString month) in
      let dd := padStart2 (numberToString day) in
      Ok (yyyy ++ js "-" ++ mm ++ js "-" ++ dd)
  end.

(** *** The pre-save hook

    The hook works on the document [this] in place: it reads a field,
    checks it, and assigns the result, and it stops at the first error.  A
    step takes the document and gives the document as it leaves it and the
    outcome. *)

(** The string paths of the schema. *)
Inductive StringPath : Type :=
| titlePath | slugPath | descriptionPath | overviewPath | imagePath
| venuePath | locationPath | datePath | timePath | modePath | audiencePath
| organizerPath.

Definition getPath (p : StringPath) (a : EventAttrs) : option jsstring :=
  match p with
  | titlePath => title a
  | slugPath => slug a
  | descriptionPath => description a
  | overviewPath => overview a
  | imagePath => image a
  | venuePath => venue a
  | locationPath => location a
  | datePath => date a
  | timePath => time a
  | modePath => mode a
  | audiencePath => audience a
  | organizerPath => organizer a
  end.

Definition setPath (p : StringPath) (v : option jsstring) (a : EventAttrs)
  : EventAttrs :=
  {| title := match p with titlePath => v | _ => title a end;
     slug := match p with slugPath => v | _ => slug a end;
     description := match p with descriptionPath => v | _ => description a end;
     overview := match p with overviewPath => v | _ => overview a end;
     image := match p with imagePath => v | _ => image a end;
     venue := match p with venuePath => v | _ => venue a end;
     location := match p with locationPath => v | _ => location a end;
     date := match p with datePath => v | _ => date a end;
     time := match p with timePath => v | _ => time a end;
     mode := match p with modePath => v | _ => mode a end;
     audience := match p with audiencePath => v | _ => audience a end;
     agenda := agenda a;
     organizer := match p with organizerPath => v | _ => organizer a end;
     tags := tags a |}.

(** The paths the schema declares with [trim: true], lines 75-87. *)
Definition hasTrimSetter (p : StringPath) : bool :=
  match p with
  | slugPath | datePath | timePath => false
  | _ => true
  end.

(** [this.path = v]: the setter of the path runs on the value, and for the
    title Mongoose marks the path modified when the value stored differs
    from the one the document holds. *)
Definition assign (p : StringPath) (v : jsstring) (this : EventDoc)
  : EventDoc :=
  let v' := if hasTrimSetter p then trim v else v in
  {| attrs := setPath p (Some v') (attrs this);
     titleModified :=
       match p with
       | titlePath =>
           titleModified this
           || negb (match title (attrs this) with
                    | Some old => str_eqb old v'
                    | None => false
                    end)
       | _ => titleModified this
       end |}.

Definition Hook (A : Type) : Type := EventDoc -> EventDoc * result A.

Definition andThen {A B : Type} (m : Hook A) (k : A -> Hook B) : Hook B :=
  fun this =>
    match m this with
    | (this', Ok a) => k a this'
    | (this', Throw e) => (this', Throw e)
    end.

Notation "m >> k" := (andThen m (fun _ => k))
  (at level 62, right associativity).

(** [this.path = assertNonEmpty(this.path, name)] *)
Definition requireString (p : StringPath) (name : jsstring) : Hook unit :=
  fun this =>
    match assertNonEmpty (getPath p (attrs this)) name with
    | Ok v => (assign p v this, Ok tt)
    | Throw e => (this, Throw e)
    end.

(** [if (!Array.isArray(a) || a.length === 0) throw new Error(message)] *)
Definition requireArray (a : EventAttrs -> option (list jsstring))
  (message : jsstring) : Hook unit :=
  fun this =>
    match a (attrs this) with
    | Some (_ :: _) => (this, Ok tt)
    | _ => (this, Throw (Error message))
    end.

(** [!this.slug]: the slug is undefined or the empty string. *)
Definition slugMissing (s : option jsstring) : bool :=
  match s with
  | None => true
  | Some s => isEmpty s
  end.

(** A string method called on a value that is not a string is a
    TypeError. *)
Definition asString (v : option jsstring) : result jsstring :=
  match v with
  | Some s => Ok s
  | None => Throw TypeError
  end.

(** Lines 116-118: the slug is generated when the title is modified or no
    slug exists. *)
Definition generateSlug : Hook unit :=
  fun this =>
    if titleModified this || slugMissing (slug (attrs this))
    then
      match asString (title (attrs this)) with
      | Ok t => (assign slugPath (slugify t) this, Ok tt)
      | Throw e => (this, Throw e)
      end
    else (this, Ok tt).

(** [this.path = normalize(this.path)], lines 121-122. *)
Definition normalizePath (p : StringPath)
  (normalize : jsstring -> result jsstring) : Hook unit :=
  fun this =>
    match bind (asString (getPath p (attrs this))) normalize with
    | Ok v => (assign p v this, Ok tt)
    | Throw e => (this, Throw e)
    end.

(** [EventSchema.pre('save', ...)], lines 98-128: the document as the hook
    leaves it, and whether it ends in [next()] or in [next(err)]. *)
Definition EventSchema_pre_save : Hook unit :=
  requireString titlePath (js "title") >>
  requireString descriptionPath (js "description") >>
  requireString overviewPath (js "overview") >>
  requireString imagePath (js "image") >>
  requireString venuePath (js "venue") >>
  requireString locationPath (js "location") >>
  requireString modePath (js "mode") >>
  requireString audiencePath (js "audience") >>
  requireString organizerPath (js "organizer") >>
  requireArray agenda (js "agenda is required") >>
  requireArray tags (js "tags are required") >>
  generateSlug >>
  normalizePath datePath (fun s => normalizeDate (DateString s)) >>
  normalizePath timePath normalizeTime.

End Dates.

End EventModel.

Import EventModel.

(** ** The document store

    The two collections, as the application sees them through Mongoose. *)

Module Store.

Record StoredEvent : Type := mkStoredEvent {
  _id : ObjectId;
  fields : EventAttrs
}.

(** A Booking record: [eventId] and [email] of the schema (the attribute
    [slug] of [BookingAttrs] is not a path of the schema). *)
Record StoredBooking : Type := mkStoredBooking {
  eventId : ObjectId;
  email : jsstring
}.

Record Database : Type := mkDatabase {
  events : list StoredEvent;
  bookings : list StoredBooking
}.

(** An operation on the store either is carried out or fails with an error
    of the driver.  [Faults] says, for each operation the application
    uses, whether it fails and with what. *)
Record Faults : Type := mkFaults {
  onExists : option exn;
  onFindOne : option exn;
  onInsert : option exn
}.

Definition noFaults : Faults :=
  {| onExists := None; onFindOne := None; onInsert := None |}.

Definition storeOp {A : Type} (fault : option exn) (a : A) : result A :=
  match fault with
  | Some e => Throw e
  | None => Ok a
  end.

(** [Event.exists({ _id: id })] *)
Definition Event_exists (faults : Faults) (db : Database)
  (id : ObjectId) : result bool :=
  storeOp (onExists faults) (existsb (fun e => N.eqb (_id e) id) (events db)).

Definition slugIs (s : jsstring) (e : StoredEvent) : bool :=
  match slug (fields e) with
  | Some s' => str_eqb s' s
  | None => false
  end.

(** [Event.findOne({ slug }).lean().exec()] *)
Definition Event_findOne (faults : Faults) (db : Database)
  (s : jsstring) : result (option StoredEvent) :=
  storeOp (onFindOne faults) (find (slugIs s) (events db)).

(** The insertion of a Booking record. *)
Definition Booking_insert (faults : Faults) (db : Database)
  (b : StoredBooking) : result Database :=
  storeOp (onInsert faults)
    {| events := events db; bookings := bookings db ++ [b] |}.

End Store.

Import Store.

(** ** database/booking.model.ts *)

Module BookingModel.

Local Open Scope N_scope.
Local Open Scope js_scope.

(** The class [[^\s@]]. *)
Definition isAddrChar (c : code_unit) : bool :=
  negb (isWhiteSpace c) && negb (c =? 64).

Fixpoint takeAddrChars (s : jsstring) : jsstring :=
  match s with
  | [] => []
  | c :: r => if isAddrChar c then c :: takeAddrChars r else []
  end.

Fixpoint dropAddrChars (s : jsstring) : jsstring :=
  match s with
  | [] => []
  | c :: r => if isAddrChar c then dropAddrChars r else s
  end.

(** [[^\s@]+\.[^\s@]+$] on the part after the [@]: every character is in
    the class, and some dot has a character before it and one after it. *)
Definition domainMatches (d : jsstring) : bool :=
  forallb isAddrChar d && existsb (N.eqb 46) (removelast (tl d)).

(** [emailRegex.test(v)] for [/^[^\s@]+@[^\s@]+\.[^\s@]+$/], line 16.  The
    first [[^\s@]+] has to take all the characters up to the first one
    outside the class, which must be the [@]. *)
Definition emailRegex_test (v : jsstring) : bool :=
  match takeAddrChars v, dropAddrChars v with
  | _ :: _, c :: d => (c =? 64) && domainMatches d
  | _, _ => false
  end.

(** The setters of the path [email]: [trim: true] and [lowercase: true]. *)
Definition emailSetters (v : jsstring) : jsstring := toLowerCase (trim v).

(** The validators of the path [email] on the value the setters left,
    the first failure being the one reported: [required: true], which for
    a string means not empty, then the [validate] entry of the schema. *)
Definition validateEmail (v : jsstring) : option jsstring :=
  if isEmpty v then Some (js "Path `email` is required.")
  else if emailRegex_test v then None
  else Some (js "email is invalid").

(** What [Booking.create] is given. *)
Record BookingInput : Type := mkBookingInput {
  input_eventId : jsstring;
  input_email : jsstring
}.

Section Booking.

(** Mongoose's cast of the string given for [eventId] to an ObjectId: the
    ObjectId, or the message of the error recorded for the path (which
    strings are ObjectIds is a matter of the driver). *)
Variable castObjectId : jsstring -> ObjectId + jsstring.

(** Schema validation of a new document: the errors of the paths
    [eventId] and [email], in the order of the schema. *)
Definition validationErrors (input : BookingInput)
  : list (jsstring * jsstring) :=
  (match castObjectId (input_eventId input) with
   | inl _ => []
   | inr message => [(js "eventId", message)]
   end)
  ++ (match validateEmail (emailSetters (input_email input)) with
      | None => []
      | Some message => [(js "email", message)]
      end).

(** [BookingSchema.pre('save', ...)], lines 40-49. *)
Definition BookingSchema_pre_save (faults : Faults) (db : Database)
  (this : StoredBooking) : result unit :=
  exists_ <- Event_exists faults db (eventId this) ;;
  if negb exists_
  then Throw (Error (js "Referenced event does not exist"))
  else Ok tt.

(** [Booking.create({ eventId, email })]: the document is built (casts and
    setters), and saved.  A save runs Mongoose's schema validation first
    (it is the first pre-save hook of every schema), then the hooks of the
    schema, then writes the record.  The store as the call leaves it, and
    the outcome. *)
Definition Booking_create (faults : Faults) (db : Database)
  (input : BookingInput) : Database * result StoredBooking :=
  match castObjectId (input_eventId input), validationErrors input with
  | inl id, [] =>
      let this := {| eventId := id;
                     email := emailSetters (input_email input) |} in
      match BookingSchema_pre_save faults db this with
      | Throw e => (db, Throw e)
      | Ok _ =>
          match Booking_insert faults db this with
          | Throw e => (db, Throw e)
          | Ok db' => (db', Ok this)
          end
      end
  | _, errors => (db, Throw (ValidationError errors))
  end.

End Booking.

End BookingModel.

Import BookingModel.

(** ** lib/mongodb.ts *)

Module Mongodb.

(** A connected Mongoose instance, as [mongoose.connect] resolves to. *)
Definition Mongoose := N.

(** How a promise has settled. *)
Inductive settled : Type :=
| Fulfilled (m : Mongoose)
| Rejected (e : exn).

(** Promises are objects shared by reference: the cache and every caller
    that awaits hold the same one.  They are named by a number. *)
Definition PromiseId := nat.

(** [MongooseCache], lines 7-10. *)
Record MongooseCache : Type := mkCache {
  conn : option Mongoose;
  promise : option PromiseId
}.

(** The state of the module: the cache object [cached], the promises
    created so far with how they settled (a promise that is not listed is
    pending), and the number of calls of [mongoose.connect]. *)
Record Runtime : Type := mkRuntime {
  cached : MongooseCache;
  settledPromises : list (PromiseId * settled);
  nextPromise : PromiseId;
  connectCalls : nat
}.

(** The state at import time: [{ conn: null, promise: null }], line 32. *)
Definition initial : Runtime :=
  {| cached := {| conn := None; promise := None |};
     settledPromises := []; nextPromise := 0; connectCalls := 0 |}.

Fixpoint lookupPromise (l : list (PromiseId * settled)) (p : PromiseId)
  : option settled :=
  match l with
  | [] => None
  | (q, o) :: r => if Nat.eqb q p then Some o else lookupPromise r p
  end.

(** The connection attempt behind promise [p] ends with outcome [o].  A
    promise settles once. *)
Definition settle (rt : Runtime) (p : PromiseId) (o : settled) : Runtime :=
  match lookupPromise (settledPromises rt) p with
  | Some _ => rt
  | None =>
      {| cached := cached rt;
         settledPromises := (p, o) :: settledPromises rt;
         nextPromise := nextPromise rt;
         connectCalls := connectCalls rt |}
  end.

(** Where a call of [connectToDatabase] stands after running up to its
    [await]: it has returned the cached connection, or it waits for a
    promise. *)
Inductive suspended : Type :=
| Returned (m : Mongoose)
| Awaiting (p : PromiseId).

(** [connectToDatabase], lines 53-62, from its entry to the [await] of
    line 63. *)
Definition connectToDatabase_enter (rt : Runtime) : Runtime * suspended :=
  match conn (cached rt) with
  | Some m => (rt, Returned m)
  | None =>
      match promise (cached rt) with
      | Some p => (rt, Awaiting p)
      | None =>
          let p := nextPromise rt in
          ({| cached := {| conn := None; promise := Some p |};
              settledPromises := settledPromises rt;
              nextPromise := S p;
              connectCalls := S (connectCalls rt) |},
           Awaiting p)
      end
  end.

(** [connectToDatabase], lines 63-64, when the promise awaited has
    settled: [cached.conn = await cached.promise; return cached.conn]. A
    rejection is thrown by the [await] and leaves the function there. *)
Definition connectToDatabase_resume (rt : Runtime) (o : settled)
  : Runtime * result Mongoose :=
  match o with
  | Fulfilled m =>
      ({| cached := {| conn := Some m; promise := promise (cached rt) |};
          settledPromises := settledPromises rt;
          nextPromise := nextPromise rt;
          connectCalls := connectCalls rt |},
       Ok m)
  | Rejected e => (rt, Throw e)
  end.

(** [disconnectFromDatabase], lines 78-84.  [failure] is the error of
    [mongoose.disconnect()], if it fails. *)
Definition disconnectFromDatabase (failure : option exn) (rt : Runtime)
  : Runtime * result unit :=
  match conn (cached rt) with
  | Some _ =>
      match failure with
      | Some e => (rt, Throw e)
      | None =>
          ({| cached := {| conn := None; promise := None |};
              settledPromises := settledPromises rt;
              nextPromise := nextPromise rt;
              connectCalls := connectCalls rt |},
           Ok tt)
      end
  | None => (rt, Ok tt)
  end.

(** A call of [connectToDatabase] run to its end by a caller that is alone:
    [attempt] is how the connection attempt ends if it is still pending when
    the caller awaits it. *)
Definition connectToDatabase (attempt : settled) (rt : Runtime)
  : Runtime * result Mongoose :=
  match connectToDatabase_enter rt with
  | (rt1, Returned m) => (rt1, Ok m)
  | (rt1, Awaiting p) =>
      let o := match lookupPromise (settledPromises rt1) p with
               | Some o => o
               | None => attempt
               end in
      connectToDatabase_resume (settle rt1 p o) o
  end.

(** *** Several callers

    The callers of [connectToDatabase] interleave at the [await].  An
    observable step is a caller entering the function, the connection
    attempt behind a promise ending, a waiting caller being resumed, or a
    call of [disconnectFromDatabase]. *)
Inductive action : Type :=
| Call (caller : nat)
| Settle (p : PromiseId) (o : settled)
| Resume (caller : nat)
| Disconnect.

Record System : Type := mkSystem {
  runtime : Runtime;
  waiting : list (nat * PromiseId);
  outcomes : list (nat * result Mongoose)
}.

Definition start : System :=
  {| runtime := initial; waiting := []; outcomes := [] |}.

Fixpoint waitingFor (w : list (nat * PromiseId)) (caller : nat)
  : option PromiseId :=
  match w with
  | [] => None
  | (c, p) :: r => if Nat.eqb c caller then Some p else waitingFor r caller
  end.

Definition removeWaiter (w : list (nat * PromiseId)) (caller : nat)
  : list (nat * PromiseId) :=
  filter (fun cp => negb (Nat.eqb (fst cp) caller)) w.

(** One step of the system; [None] when the step cannot be taken (a caller
    that does not wait, or whose promise is still pending, is not
    resumed). *)
Definition step (s : System) (a : action) : option System :=
  match a with
  | Call c =>
      match connectToDatabase_enter (runtime s) with
      | (rt, Returned m) =>
          Some {| runtime := rt; waiting := waiting s;
                  outcomes := outcomes s ++ [(c, Ok m)] |}
      | (rt, Awaiting p) =>
          Some {| runtime := rt; waiting := waiting s ++ [(c, p)];
                  outcomes := outcomes s |}
      end
  | Settle p o =>
      Some {| runtime := settle (runtime s) p o; waiting := waiting s;
              outcomes := outcomes s |}
  | Resume c =>
      match waitingFor (waiting s) c with
      | None => None
      | Some p =>
          match lookupPromise (settledPromises (runtime s)) p with
          | None => None
          | Some o =>
              let (rt, r) := connectToDatabase_resume (runtime s) o in
              Some {| runtime := rt; waiting := removeWaiter (waiting s) c;
                      outcomes := outcomes s ++ [(c, r)] |}
          end
      end
  | Disconnect =>
      Some {| runtime := fst (disconnectFromDatabase None (runtime s));
              waiting := waiting s; outcomes := outcomes s |}
  end.

Fixpoint run (s : System) (l : list action) : option System :=
  match l with
  | [] => Some s
  | a :: r =>
      match step s a with
      | Some s' => run s' r
      | None => None
      end
  end.

(** The states of the specification's state machine, read off the cache:
    UNINITIALIZED is [{ conn: null, promise: null }]. *)
Definition isUninitialized (rt : Runtime) : bool :=
  match conn (cached rt), promise (cached rt) with
  | None, None => true
  | _, _ => false
  end.

End Mongodb.

Import Mongodb.

(** ** The server: the module state of lib/mongodb.ts and the store *)

Record Server : Type := mkServer {
  mongo : Runtime;
  db : Database
}.

(** What a request meets: how a pending connection attempt ends, and the
    failures of the store. *)
Record World : Type := mkWorld {
  connectAttempt : settled;
  faults : Faults
}.

(** ** The server action createBooking *)

Module Actions.

Record CreateBookingResult : Type := mkResult { success : bool }.

Section CreateBooking.

Variable castObjectId : jsstring -> ObjectId + jsstring.

(** [createBooking], lines 5-16.  The [try]/[catch] of lines 6 and 12-15
    is commented out: an exception of either [await] leaves the function. *)
Definition createBooking (w : World) (srv : Server) (input : BookingInput)
  : Server * result CreateBookingResult :=
  let (rt, connected) := connectToDatabase (connectAttempt w) (mongo srv) in
  match connected with
  | Throw e => ({| mongo := rt; db := db srv |}, Throw e)
  | Ok _ =>
      let (db', created) :=
        Booking_create castObjectId (faults w) (db srv) input in
      ({| mongo := rt; db := db' |},
       match created with
       | Throw e => Throw e
       | Ok _ => Ok {| success := true |}
       end)
  end.

End CreateBooking.

End Actions.

Import Actions.

(** ** app/api/events/[slug]/route.ts *)

Module Route.

Local Open Scope nat_scope.

Record RouteParams : Type := mkParams { slug : option jsstring }.

(** [isValidSlug], lines 13-19. *)
Definition isValidSlug (value : option jsstring) : bool :=
  match value with
  | None => false
  | Some v =>
      let trimmed := trim v in
      if (List.length trimmed =? 0) || (200 <? List.length trimmed) then false
      else true
  end.

Inductive ErrorCode : Type := BAD_REQUEST | NOT_FOUND | INTERNAL_ERROR.

(** [EventResponse] and [ErrorResponse], lines 22-34: the body before
    [JSON.stringify]. *)
Inductive Body : Type :=
| EventResponse (data : StoredEvent)
| ErrorResponse (message : jsstring) (code : ErrorCode).

Record Response : Type := mkResponse {
  status : Z;
  body : Body
}.

Definition successOf (b : Body) : bool :=
  match b with
  | EventResponse _ => true
  | ErrorResponse _ _ => false
  end.

Definition badRequest : Response :=
  {| status := 400;
     body := ErrorResponse (js "A valid slug path parameter is required.")
               BAD_REQUEST |}.

Definition notFound : Response :=
  {| status := 404; body := ErrorResponse (js "Event not found.") NOT_FOUND |}.

Definition internalError : Response :=
  {| status := 500;
     body := ErrorResponse (js "Unexpected server error.") INTERNAL_ERROR |}.

(** [GET], lines 36-86.  [params] is the promise the framework passes: it
    resolves to the parameters ([None] for a nullish value) or rejects. *)
Definition GET (w : World) (srv : Server)
  (params : result (option RouteParams)) : Server * Response :=
  match params with
  | Throw _ => (srv, internalError)
  | Ok resolvedParams =>
      let slug := match resolvedParams with
                  | Some ps => slug ps
                  | None => None
                  end in
      match slug with
      | None => (srv, badRequest)
      | Some s =>
          if isEmpty s || negb (isValidSlug (Some s)) then (srv, badRequest)
          else
            let (rt, connected) :=
              connectToDatabase (connectAttempt w) (mongo srv) in
            let srv' := {| mongo := rt; db := db srv |} in
            match connected with
            | Throw _ => (srv', internalError)
            | Ok _ =>
                match Event_findOne (faults w) (db srv) s with
                | Throw _ => (srv', internalError)
                | Ok None => (srv', notFound)
                | Ok (Some event) =>
                    (srv', {| status := 200; body := EventResponse event |})
                end
            end
      end
  end.

End Route.

(** * Vocabulary of the properties *)

Local Open Scope N_scope.

(** The characters of a slug: [a-z0-9-]. *)
Definition isSlugChar (c : code_unit) : bool :=
  isSlugAlnum c || (c =? hyphen).

(** No two hyphens next to each other. *)
Fixpoint singleHyphens (s : jsstring) : bool :=
  match s with
  | [] => true
  | c :: r => negb ((c =? hyphen) && startsWith hyphen r) && singleHyphens r
  end.

(** The strings [slugify] produces: characters of [a-z0-9-], hyphens
    single and neither first nor last. *)
Definition isSlug (s : jsstring) : bool :=
  forallb isSlugChar s && singleHyphens s
  && negb (startsWith hyphen s) && negb (endsWith hyphen s).

(** The string is made of slug characters with single hyphens. *)
Definition hyphenated (s : jsstring) : Prop :=
  forallb isSlugChar s = true /\ singleHyphens s = true.

(** The ASCII letters and digits. *)
Definition isAsciiAlnum (c : code_unit) : bool :=
  ((65 <=? c) && (c <=? 90)) || ((97 <=? c) && (c <=? 122))
  || ((48 <=? c) && (c <=? 57)).

(** The title contains no ASCII letter or digit. *)
Definition noAsciiAlnum (t : jsstring) : bool :=
  forallb (fun c => negb (isAsciiAlnum c)) t.

(** No character of the title is, in lower case, a letter or digit of
    [a-z0-9]: the title contains no ASCII letter or digit, no U+0130 and
    no U+212A. *)
Definition noLowerAlnum (t : jsstring) : bool :=
  forallb (fun c => negb (isSlugAlnum c)) (toLowerCase t).

(** The array is there and not empty. *)
Definition isNonEmptyArray (a : option (list jsstring)) : bool :=
  match a with
  | Some (_ :: _) => true
  | _ => false
  end.

(** The checks of the Event pre-save hook all pass (none of them is about
    the slug). *)
Definition fieldsValid (engineParse : jsstring -> option Z) (d : EventDoc)
  : bool :=
  let a := attrs d in
  isOk (assertNonEmpty (title a) (js "title"))
  && isOk (assertNonEmpty (description a) (js "description"))
  && isOk (assertNonEmpty (overview a) (js "overview"))
  && isOk (assertNonEmpty (image a) (js "image"))
  && isOk (assertNonEmpty (venue a) (js "venue"))
  && isOk (assertNonEmpty (location a) (js "location"))
  && isOk (assertNonEmpty (mode a) (js "mode"))
  && isOk (assertNonEmpty (audience a) (js "audience"))
  && isOk (assertNonEmpty (organizer a) (js "organizer"))
  && isNonEmptyArray (agenda a)
  && isNonEmptyArray (tags a)
  && isOk (bind (asString (date a))
             (fun s => normalizeDate engineParse (DateString s)))
  && isOk (bind (asString (time a)) normalizeTime).

(** Whether Mongoose reports the title modified once the hook has assigned
    the trimmed title [t]. *)
Definition titleAfter (this : EventDoc) (t : jsstring) : bool :=
  titleModified this
  || negb (match title (attrs this) with
           | Some old => str_eqb old (trim t)
           | None => false
           end).

(** An engine that reads no string but the ISO dates, and example
    documents. *)
Definition isoOnly : jsstring -> option Z := fun _ => None.

Definition sampleAttrs (t : jsstring) (s : option jsstring) : EventAttrs :=
  {| title := Some t; slug := s;
     description := Some (js "A meetup"); overview := Some (js "Talks");
     image := Some (js "/images/meetup.png"); venue := Some (js "Hall 1");
     location := Some (js "Hanoi"); date := Some (js "2025-03-10");
     time := Some (js "2pm"); mode := Some (js "offline");
     audience := Some (js "Developers"); agenda := Some [js "Opening"];
     organizer := Some (js "Dev Events"); tags := Some [js "a"] |}.

(** The same fields after a save: the time in its canonical form. *)
Definition sampleAttrs_saved (t : jsstring) (s : option jsstring)
  : EventAttrs :=
  {| title := Some t; slug := s;
     description := Some (js "A meetup"); overview := Some (js "Talks");
     image := Some (js "/images/meetup.png"); venue := Some (js "Hall 1");
     location := Some (js "Hanoi"); date := Some (js "2025-03-10");
     time := Some (js "14:00"); mode := Some (js "offline");
     audience := Some (js "Developers"); agenda := Some [js "Opening"];
     organizer := Some (js "Dev Events"); tags := Some [js "a"] |}.

Definition sampleDoc (t : jsstring) (s : option jsstring) (modified : bool)
  : EventDoc :=
  {| attrs := sampleAttrs t s; titleModified := modified |}.

(** *** Time texts *)

Definition allWhiteSpace (w : jsstring) : bool := forallb isWhiteSpace w.

(** The text of an optional part. *)
Definition text (o : option jsstring) : jsstring :=
  match o with
  | Some d => d
  | None => []
  end.

Definition oneOrTwoDigits (h : jsstring) : bool :=
  match h with
  | [x] => isDigit x
  | [x; y] => isDigit x && isDigit y
  | _ => false
  end.

Definition twoDigits (d : jsstring) : bool :=
  match d with
  | [x; y] => isDigit x && isDigit y
  | _ => false
  end.

(** [am] or [pm], in either case of each letter. *)
Definition isAmPm (a : jsstring) : bool :=
  match a with
  | [x; y] => isAP x && isM y
  | _ => false
  end.

Definition optionalAmPm (ap : option jsstring) : bool :=
  match ap with
  | Some a => isAmPm a
  | None => true
  end.

(** The end of a time text: white space, an optional am/pm, white space. *)
Definition SuffixText (s : jsstring) (ap : option jsstring) : Prop :=
  exists w2 w3,
    allWhiteSpace w2 = true /\ allWhiteSpace w3 = true
    /\ optionalAmPm ap = true /\ s = w2 ++ text ap ++ w3.

(** What follows the hours: nothing, or two digits of minutes with or
    without a colon before them; then the end of the text. *)
Definition MinutesText (s : jsstring) (mm ap : option jsstring) : Prop :=
  (mm = None /\ SuffixText s ap)
  \/ (exists sep d rest,
        mm = Some d /\ twoDigits d = true /\ (sep = [] \/ sep = [58])
        /\ s = sep ++ d ++ rest /\ SuffixText rest ap).

(** The time texts: white space, one or two digits of hours, then the
    minutes and the end as above.  [hh], [mm] and [ap] are the hours, the
    minutes and the am/pm read off the text. *)
Definition TimeText (s hh : jsstring) (mm ap : option jsstring) : Prop :=
  exists w1 rest,
    allWhiteSpace w1 = true /\ oneOrTwoDigits hh = true
    /\ s = w1 ++ hh ++ rest /\ MinutesText rest mm ap.

Definition isPm (ap : option jsstring) : bool :=
  match ap with
  | Some (x :: _) => (x =? 112) || (x =? 80)
  | _ => false
  end.

(** The hour on the 24-hour clock: with am/pm, 12 counts as 0, and pm adds
    12. *)
Definition hour24 (h : Z) (ap : option jsstring) : Z :=
  match ap with
  | None => h
  | Some _ => ((if h =? 12 then 0 else h) + (if isPm ap then 12 else 0))%Z
  end.

Definition minuteOf (mm : option jsstring) : Z :=
  match mm with
  | Some d => parseInt10 d
  | None => 0%Z
  end.

(** [HH:mm], each field of two digits. *)
Definition clock (h m : Z) : jsstring :=
  [Z.to_N (48 + h / 10); Z.to_N (48 + h mod 10); 58;
   Z.to_N (48 + m / 10); Z.to_N (48 + m mod 10)].

(** The patterns the specification lists for the time: [H], [HH], [H:mm],
    [HH:mm], each with an optional am/pm after it (white space around the
    parts is let pass). *)
Definition withoutAmPm (s : jsstring) : jsstring :=
  match rev s with
  | y :: x :: r => if isAP x && isM y then rev (trimStart r) else s
  | _ => s
  end.

Definition listedTimePattern (v : jsstring) : bool :=
  match withoutAmPm (trim v) with
  | [h] => isDigit h
  | [h1; h2] => isDigit h1 && isDigit h2
  | [h; c; m1; m2] => isDigit h && (c =? 58) && isDigit m1 && isDigit m2
  | [h1; h2; c; m1; m2] =>
      isDigit h1 && isDigit h2 && (c =? 58) && isDigit m1 && isDigit m2
  | _ => false
  end.

(** The text ends with a character that is not white space. *)
Definition endsNonSpace (c : jsstring) : Prop :=
  exists t x, c = t ++ [x] /\ isWhiteSpace x = false.

(** The body of [normalizeTime] once the expression has matched. *)
Definition timeOfCaptures (g1 : jsstring) (g2 g3 : option jsstring)
  : result jsstring :=
  let hours := hour24 (parseInt10 g1) g3 in
  let minutes := minuteOf g2 in
  if ((hours <? 0) || (hours >? 23) || (minutes <? 0) || (minutes >? 59))%Z
  then Throw (Error (js "time is invalid"))
  else Ok (padStart2 (numberToString hours) ++ js ":"
           ++ padStart2 (numberToString minutes)).

(** *** Email addresses *)

(** The strings [emailRegex] matches: a local part, one [@], and a domain
    with a dot that has a character before it and one after it; no
    character of the three parts is white space or [@]. *)
Definition EmailShape (s : jsstring) : Prop :=
  exists l d1 d2,
    s = l ++ [64] ++ d1 ++ [46] ++ d2
    /\ l <> [] /\ d1 <> [] /\ d2 <> []
    /\ forallb isAddrChar (l ++ d1 ++ d2) = true.

Definition isAt (c : code_unit) : bool := c =? 64.

Fixpoint beforeAt (s : jsstring) : jsstring :=
  match s with
  | [] => []
  | c :: r => if isAt c then [] else c :: beforeAt r
  end.

Fixpoint afterAt (s : jsstring) : jsstring :=
  match s with
  | [] => []
  | c :: r => if isAt c then r else afterAt r
  end.

(** The pattern the specification words: exactly one [@], at least one
    character that is not white space on each side of it, and at least one
    dot in the part after the [@]. *)
Definition listedEmailPattern (s : jsstring) : bool :=
  (List.length (filter isAt s) =? 1)%nat
  && existsb (fun c => negb (isWhiteSpace c)) (beforeAt s)
  && existsb (fun c => negb (isWhiteSpace c)) (afterAt s)
  && existsb (N.eqb 46) (afterAt s).

(** *** Bookings *)

(** The event a booking input refers to is not in the store: the string
    given is no ObjectId, or no stored Event has that id. *)
Definition eventMissing (castObjectId : jsstring -> ObjectId + jsstring)
  (d : Database) (input : BookingInput) : bool :=
  match castObjectId (input_eventId input) with
  | inl id => negb (existsb (fun e => N.eqb (_id e) id) (events d))
  | inr _ => true
  end.

(** The connection is there, or the attempt to get it succeeds. *)
Definition connects (w : World) (srv : Server) : bool :=
  isOk (snd (connectToDatabase (connectAttempt w) (mongo srv))).

(** An example of a driver: the ObjectIds are the strings of 24
    hexadecimal digits, read as a number. *)
Definition hexDigit (c : code_unit) : option N :=
  if (48 <=? c) && (c <=? 57) then Some (c - 48)
  else if (97 <=? c) && (c <=? 102) then Some (c - 87)
  else if (65 <=? c) && (c <=? 70) then Some (c - 55)
  else None.

Fixpoint hexValue (acc : N) (s : jsstring) : option N :=
  match s with
  | [] => Some acc
  | c :: r =>
      match hexDigit c with
      | Some d => hexValue (acc * 16 + d) r
      | None => None
      end
  end.

Definition castHex24 (s : jsstring) : ObjectId + jsstring :=
  match (if (List.length s =? 24)%nat then hexValue 0 s else None) with
  | Some id => inl id
  | None => inr (js "Cast to ObjectId failed")
  end.

(** Example inputs: a world without failures, and a server that has one
    Event and one Booking for it. *)
Definition calmWorld : World :=
  {| connectAttempt := Fulfilled 1; faults := noFaults |}.

Definition storedEventId : ObjectId :=
  match castHex24 (js "507f191e810c19729de860ea") with
  | inl id => id
  | inr _ => 0
  end.

Definition sampleServer : Server :=
  {| mongo := initial;
     db := {| events := [ {| _id := storedEventId;
                             fields := sampleAttrs_saved (js "Dev Conf")
                                         (Some (js "dev-conf")) |} ];
              bookings := [ {| eventId := storedEventId;
                               email := js "ann@example.com" |} ]
           |} |}.

(** A booking for that Event, bookings for an Event that is not stored. *)
Definition goodBooking : BookingInput :=
  {| input_eventId := js "507f191e810c19729de860ea";
     input_email := js " Bob@Example.com " |}.

Definition orphanBooking : BookingInput :=
  {| input_eventId := js "507f1f77bcf86cd799439011";
     input_email := js "Bob@Example.com" |}.

Definition orphanBadEmailBooking : BookingInput :=
  {| input_eventId := js "507f1f77bcf86cd799439011";
     input_email := js "not-an-email" |}.

(** *** The route *)

(** The slug parameter of a request whose parameters have resolved. *)
Definition slugOf (resolvedParams : option Route.RouteParams)
  : option jsstring :=
  match resolvedParams with
  | Some ps => Route.slug ps
  | None => None
  end.

(** The slug is there and its trimmed length is between 1 and 200. *)
Definition slugAcceptable (s : option jsstring) : bool :=
  match s with
  | None => false
  | Some v =>
      ((1 <=? List.length (trim v)) && (List.length (trim v) <=? 200))%nat
  end.

(** *** Dates *)

(** The form [YYYY-MM-DD]: four digits, two digits, two digits, with
    hyphens between them. *)
Definition isYearMonthDay (s : jsstring) : bool :=
  match s with
  | [y1; y2; y3; y4; h1; m1; m2; h2; d1; d2] =>
      forallb isDigit [y1; y2; y3; y4; m1; m2; d1; d2]
      && (h1 =? 45) && (h2 =? 45)
  | _ => false
  end.

(** The time value [normalizeDate] works on. *)
Definition timeValue (engineParse : jsstring -> option Z) (value : DateInput)
  : option Z :=
  match value with
  | DateString s => dateParse engineParse s
  | DateObject t => t
  end.

(** *** Words of a title *)

Definition startsAlnum (s : jsstring) : bool :=
  match s with
  | [] => false
  | c :: _ => isSlugAlnum c
  end.

(** The maximal runs of characters of [a-z0-9] in a string, in order. *)
Fixpoint alnumRuns (s : jsstring) : list jsstring :=
  match s with
  | [] => []
  | c :: r =>
      if isSlugAlnum c then
        if startsAlnum r then
          match alnumRuns r with
          | w :: ws => (c :: w) :: ws
          | [] => [[c]]
          end
        else [c] :: alnumRuns r
      else alnumRuns r
  end.

(** The words with [sep] between each two of them. *)
Fixpoint joinWith (sep : code_unit) (ws : list jsstring) : jsstring :=
  match ws with
  | [] => []
  | w :: rest =>
      match rest with
      | [] => w
      | _ :: _ => w ++ sep :: joinWith sep rest
      end
  end.

(** *** Runs of the Event pre-save hook *)

(** The outcome of a check, its value dropped. *)
Definition checked {A : Type} (r : result A) : result unit :=
  bind r (fun _ => Ok tt).

Definition arrayCheck (a : option (list jsstring)) (message : jsstring)
  : result unit :=
  if isNonEmptyArray a then Ok tt else Throw (Error message).

(** The first error of a list of outcomes. *)
Fixpoint firstFailure (l : list (result unit)) : result unit :=
  match l with
  | [] => Ok tt
  | Ok _ :: r => firstFailure r
  | Throw e :: _ => Throw e
  end.

(** The checks of the hook in the order of lines 101-122, each made on the
    fields [a] as the document holds them before the hook runs. *)
Definition checks (engineParse : jsstring -> option Z) (a : EventAttrs)
  : list (result unit) :=
  [ checked (assertNonEmpty (title a) (js "title"));
    checked (assertNonEmpty (description a) (js "description"));
    checked (assertNonEmpty (overview a) (js "overview"));
    checked (assertNonEmpty (image a) (js "image"));
    checked (assertNonEmpty (venue a) (js "venue"));
    checked (assertNonEmpty (location a) (js "location"));
    checked (assertNonEmpty (mode a) (js "mode"));
    checked (assertNonEmpty (audience a) (js "audience"));
    checked (assertNonEmpty (organizer a) (js "organizer"));
    arrayCheck (agenda a) (js "agenda is required");
    arrayCheck (tags a) (js "tags are required");
    checked (bind (asString (date a))
               (fun s => normalizeDate engineParse (DateString s)));
    checked (bind (asString (time a)) normalizeTime) ].

(** A field put through [normalize] (left alone where that fails). *)
Definition normalizedBy (normalize : jsstring -> result jsstring)
  (v : option jsstring) : option jsstring :=
  match bind (asString v) normalize with
  | Ok s => Some s
  | Throw _ => v
  end.

(** The document field by field: the strings trimmed, the date and the time
    normalised, the arrays as they are, and the slug made from the trimmed
    title when the title counts as modified or the slug is missing. *)
Definition savedDoc (engineParse : jsstring -> option Z) (this : EventDoc)
  : EventDoc :=
  let a := attrs this in
  let modified := match title a with
                  | Some t => titleAfter this t
                  | None => titleModified this
                  end in
  {| attrs :=
       {| title := option_map trim (title a);
          slug := if modified || slugMissing (slug a)
                  then option_map (fun t => slugify (trim t)) (title a)
                  else slug a;
          description := option_map trim (description a);
          overview := option_map trim (overview a);
          image := option_map trim (image a);
          venue := option_map trim (venue a);
          location := option_map trim (location a);
          date := normalizedBy
                    (fun s => normalizeDate engineParse (DateString s))
                    (date a);
          time := normalizedBy normalizeTime (time a);
          mode := option_map trim (mode a);
          audience := option_map trim (audience a);
          agenda := agenda a;
          organizer := option_map trim (organizer a);
          tags := tags a |};
     titleModified := modified |}.

(** *** Stored bookings *)




(** *** The connection manager *)

Definition isDisconnect (a : action) : bool :=
  match a with
  | Disconnect => true
  | _ => false
  end.

(** What the [await] of a settled promise gives. *)
Definition settledAs (o : settled) : result Mongoose :=
  match o with
  | Fulfilled m => Ok m
  | Rejected e => Throw e
  end.

(** What holds of the system as long as nobody disconnects: there is at
    most one promise, number 0; the callers that wait, wait for it; a cached
    connection and every outcome come from it. *)
Record singleAttempt (s : System) : Prop := mkSingleAttempt {
  sa_none :
    promise (cached (runtime s)) = None ->
    conn (cached (runtime s)) = None /\ waiting s = [] /\ outcomes s = []
    /\ connectCalls (runtime s) = 0%nat /\ nextPromise (runtime s) = 0%nat;
  sa_some :
    forall p, promise (cached (runtime s)) = Some p ->
              p = 0%nat /\ connectCalls (runtime s) = 1%nat;
  sa_waiting : forall c p, In (c, p) (waiting s) -> p = 0%nat;
  sa_conn :
    forall m, conn (cached (runtime s)) = Some m ->
              lookupPromise (settledPromises (runtime s)) 0%nat
              = Some (Fulfilled m);
  sa_outcomes :
    forall c r, In (c, r) (outcomes s) ->
                exists o, lookupPromise (settledPromises (runtime s)) 0%nat
                          = Some o /\ r = settledAs o
}.

(** *** Requests *)

(** Every stored slug is of the form [slugify] produces. *)
Definition slugsCanonical (d : Database) : bool :=
  forallb (fun ev => match slug (fields ev) with
                     | Some s => isSlug s
                     | None => true
                     end) (events d).

(** The parameters of a request for the slug [s]. *)
Definition requestFor (s : jsstring) : result (option Route.RouteParams) :=
  Ok (Some {| Route.slug := Some s |}).

(** * Properties *)

(** ** Characters and strings *)

Local Open Scope N_scope.

(** Case analysis on the comparisons of a goal, closing the cases that
    arithmetic refutes as they come. *)
Ltac split_cmp :=
  repeat (match goal with
          | |- context [N.leb ?a ?b] => destruct (N.leb_spec a b)
          | |- context [N.eqb ?a ?b] => destruct (N.eqb_spec a b)
          | H : context [N.leb ?a ?b] |- _ => destruct (N.leb_spec a b)
          | H : context [N.eqb ?a ?b] |- _ => destruct (N.eqb_spec a b)
          end; simpl in *; try discriminate; try lia).

Lemma str_eqb_eq (a b : jsstring) : str_eqb a b = true <-> a = b.
Proof.
  revert b; induction a as [|x a IH]; intros [|y b]; simpl;
    try (split; [discriminate | discriminate]); try tauto.
  unfold unit_eqb. rewrite andb_true_iff, N.eqb_eq, IH.
  split; [intros [-> ->]; reflexivity | intros H; inversion H; auto].
Qed.

Lemma str_eqb_refl (a : jsstring) : str_eqb a a = true.
Proof. apply str_eqb_eq; reflexivity. Qed.


(** *** trim *)

Lemma trimStart_nows (s : jsstring) :
  forallb (fun c => negb (isWhiteSpace c)) s = true -> trimStart s = s.
Proof.
  destruct s as [|c r]; simpl; [reflexivity|].
  destruct (isWhiteSpace c); simpl; [discriminate | reflexivity].
Qed.

Lemma forallb_rev (A : Type) (f : A -> bool) (l : list A) :
  forallb f (rev l) = forallb f l.
Proof.
  induction l as [|a l IH]; simpl; [reflexivity|].
  rewrite forallb_app, IH. simpl. rewrite andb_true_r. apply andb_comm.
Qed.

Lemma trim_nows (s : jsstring) :
  forallb (fun c => negb (isWhiteSpace c)) s = true -> trim s = s.
Proof.
  intros H. unfold trim, trimEnd.
  rewrite (trimStart_nows s H), trimStart_nows, rev_involutive;
    [reflexivity | now rewrite forallb_rev].
Qed.

(** *** slugify *)

Lemma isSlugChar_not_space (c : code_unit) :
  isSlugChar c = true -> isWhiteSpace c = false.
Proof.
  unfold isSlugChar, isSlugAlnum, isWhiteSpace, hyphen.
  intros H. split_cmp.
Qed.

Lemma isSlugChar_not_quote (c : code_unit) :
  isSlugChar c = true -> isQuote c = false.
Proof.
  unfold isSlugChar, isSlugAlnum, isQuote, hyphen.
  intros H. split_cmp.
Qed.

Lemma isSlugChar_lower (c : code_unit) :
  isSlugChar c = true -> lowerUnit c = [c].
Proof.
  unfold isSlugChar, isSlugAlnum, lowerUnit, hyphen.
  intros H. split_cmp; reflexivity.
Qed.

Lemma isSlugChar_cases (c : code_unit) :
  isSlugChar c = true ->
  (isSlugAlnum c = true /\ c <> hyphen) \/ (isSlugAlnum c = false /\ c = hyphen).
Proof.
  unfold isSlugChar, isSlugAlnum, hyphen.
  intros H. split_cmp; auto.
Qed.

Lemma toLowerCase_slug (s : jsstring) :
  forallb isSlugChar s = true -> toLowerCase s = s.
Proof.
  induction s as [|c r IH]; simpl; [reflexivity|].
  rewrite andb_true_iff. intros [Hc Hr].
  rewrite (isSlugChar_lower c Hc), (IH Hr). reflexivity.
Qed.

Lemma trim_slug (s : jsstring) : forallb isSlugChar s = true -> trim s = s.
Proof.
  intros H. apply trim_nows.
  rewrite forallb_forall in *. intros c Hc.
  now rewrite (isSlugChar_not_space c (H c Hc)).
Qed.

Lemma removeQuotes_slug (s : jsstring) :
  forallb isSlugChar s = true -> removeQuotes s = s.
Proof.
  induction s as [|c r IH]; simpl; [reflexivity|].
  rewrite andb_true_iff. intros [Hc Hr].
  rewrite (isSlugChar_not_quote c Hc). simpl. now rewrite (IH Hr).
Qed.

(** What [hyphenate] produces. *)
Lemma hyphenate_chars (s : jsstring) (b : bool) :
  forallb isSlugChar (hyphenate b s) = true.
Proof.
  revert b; induction s as [|c r IH]; intros b; simpl; [reflexivity|].
  destruct (isSlugAlnum c) eqn:Hc.
  - simpl. unfold isSlugChar at 1. rewrite Hc. simpl. apply IH.
  - destruct b; simpl; rewrite ?IH; reflexivity.
Qed.

Lemma isSlugAlnum_not_hyphen (c : code_unit) :
  isSlugAlnum c = true -> (c =? hyphen) = false.
Proof. unfold isSlugAlnum, hyphen. intros H. split_cmp. Qed.

Lemma hyphenate_in_run (s : jsstring) :
  startsWith hyphen (hyphenate true s) = false.
Proof.
  induction s as [|c r IH]; simpl; [reflexivity|].
  destruct (isSlugAlnum c) eqn:Hc; [|exact IH].
  simpl. now apply isSlugAlnum_not_hyphen.
Qed.

Lemma hyphenate_single (s : jsstring) (b : bool) :
  singleHyphens (hyphenate b s) = true.
Proof.
  revert b; induction s as [|c r IH]; intros b; simpl; [reflexivity|].
  destruct (isSlugAlnum c) eqn:Hc.
  - simpl. rewrite (isSlugAlnum_not_hyphen c Hc). simpl. apply IH.
  - destruct b; [apply IH|].
    simpl. rewrite hyphenate_in_run, IH. reflexivity.
Qed.

(** On a string that is already hyphenated, [hyphenate] changes nothing. *)
Lemma hyphenate_fixed (s : jsstring) :
  forallb isSlugChar s = true -> singleHyphens s = true ->
  hyphenate false s = s /\
  (startsWith hyphen s = false -> hyphenate true s = s).
Proof.
  induction s as [|c r IH]; simpl; [auto|].
  rewrite !andb_true_iff. intros [Hc Hr] [Hcr Hs].
  destruct (IH Hr Hs) as [IH1 IH2].
  destruct (isSlugChar_cases c Hc) as [[Ha Hn]|[Ha ->]]; rewrite Ha.
  - rewrite IH1. split; [reflexivity | intros _; reflexivity].
  - rewrite N.eqb_refl in Hcr. simpl in Hcr.
    apply negb_true_iff in Hcr. rewrite (IH2 Hcr).
    split; [reflexivity|]. rewrite N.eqb_refl. discriminate.
Qed.

Lemma startsWith_snoc (c x : code_unit) (s : jsstring) :
  startsWith c (s ++ [x]) = if isEmpty s then x =? c else startsWith c s.
Proof. destruct s; reflexivity. Qed.

Lemma isEmpty_rev (s : jsstring) : isEmpty (rev s) = isEmpty s.
Proof.
  destruct s as [|x r]; simpl; [reflexivity|].
  destruct (rev r); reflexivity.
Qed.

Lemma endsWith_cons (c x : code_unit) (r : jsstring) :
  endsWith c (x :: r) = if isEmpty r then x =? c else endsWith c r.
Proof.
  unfold endsWith. simpl. now rewrite startsWith_snoc, isEmpty_rev.
Qed.

Lemma endsWith_rev (c : code_unit) (s : jsstring) :
  endsWith c (rev s) = startsWith c s.
Proof. unfold endsWith. now rewrite rev_involutive. Qed.

Lemma singleHyphens_snoc (s : jsstring) (c : code_unit) :
  singleHyphens (s ++ [c])
  = singleHyphens s && negb (endsWith hyphen s && (c =? hyphen)).
Proof.
  induction s as [|x r IH]; simpl.
  - now rewrite andb_false_r.
  - rewrite IH, startsWith_snoc, endsWith_cons.
    destruct r as [|y t]; simpl.
    + destruct (x =? hyphen), (c =? hyphen); reflexivity.
    + destruct (x =? hyphen), (y =? hyphen), (c =? hyphen), (singleHyphens t),
        (endsWith hyphen (y :: t)); reflexivity.
Qed.

Lemma singleHyphens_rev (s : jsstring) :
  singleHyphens (rev s) = singleHyphens s.
Proof.
  induction s as [|x r IH]; simpl; [reflexivity|].
  rewrite singleHyphens_snoc, IH, endsWith_rev.
  rewrite andb_comm. f_equal. f_equal. apply andb_comm.
Qed.

Lemma hyphenated_rev (s : jsstring) : hyphenated s -> hyphenated (rev s).
Proof.
  intros [H1 H2]. split; [now rewrite forallb_rev | now rewrite singleHyphens_rev].
Qed.

Lemma dropLeadingHyphen_hyphenated (s : jsstring) :
  hyphenated s ->
  hyphenated (dropLeadingHyphen s)
  /\ startsWith hyphen (dropLeadingHyphen s) = false
  /\ (endsWith hyphen s = false -> endsWith hyphen (dropLeadingHyphen s) = false).
Proof.
  intros [H1 H2]. destruct s as [|c r]; simpl in *.
  - repeat split; reflexivity.
  - apply andb_true_iff in H1 as [Hc Hr]. apply andb_true_iff in H2 as [Hn Hs].
    destruct (c =? hyphen) eqn:E.
    + simpl in Hn. apply negb_true_iff in Hn.
      repeat split; auto.
      rewrite endsWith_cons. destruct r; simpl; auto.
    + simpl. rewrite E. repeat split; simpl; auto.
      * now rewrite Hc, Hr.
      * now rewrite E, Hs.
Qed.

Lemma stripEdgeHyphens_slug (s : jsstring) :
  hyphenated s -> isSlug (stripEdgeHyphens s) = true.
Proof.
  intros H. unfold stripEdgeHyphens, dropTrailingHyphen.
  destruct (dropLeadingHyphen_hyphenated _ H) as (H1 & S1 & _).
  apply hyphenated_rev in H1.
  destruct (dropLeadingHyphen_hyphenated _ H1) as (H2 & S2 & E2).
  rewrite endsWith_rev in E2. specialize (E2 S1).
  apply hyphenated_rev in H2. destruct H2 as [A B].
  unfold isSlug. rewrite A, B, endsWith_rev, S2. simpl.
  unfold endsWith in E2. now rewrite E2.
Qed.

Lemma stripEdgeHyphens_fixed (s : jsstring) :
  startsWith hyphen s = false -> endsWith hyphen s = false ->
  stripEdgeHyphens s = s.
Proof.
  intros S E. unfold stripEdgeHyphens, dropTrailingHyphen.
  assert (D : forall t, startsWith hyphen t = false -> dropLeadingHyphen t = t).
  { intros [|c r]; simpl; [reflexivity|]. now intros ->. }
  rewrite (D s S), (D (rev s) E). apply rev_involutive.
Qed.

Lemma isSlug_parts (s : jsstring) :
  isSlug s = true ->
  forallb isSlugChar s = true /\ singleHyphens s = true
  /\ startsWith hyphen s = false /\ endsWith hyphen s = false.
Proof.
  unfold isSlug. rewrite !andb_true_iff, !negb_true_iff. tauto.
Qed.

Lemma slugify_isSlug (title : jsstring) : isSlug (slugify title) = true.
Proof.
  unfold slugify. apply stripEdgeHyphens_slug.
  split; [apply hyphenate_chars | apply hyphenate_single].
Qed.

Lemma slugify_fixed (s : jsstring) : isSlug s = true -> slugify s = s.
Proof.
  intros H. destruct (isSlug_parts s H) as (C & S & L & T).
  unfold slugify.
  rewrite (toLowerCase_slug s C), (trim_slug s C), (removeQuotes_slug s C).
  destruct (hyphenate_fixed s C S) as [-> _].
  now apply stripEdgeHyphens_fixed.
Qed.

(** C4.  For every title, [slugify title] is made of characters of
    [a-z0-9-] only, is in lower case (lower-casing it changes nothing), has
    neither a leading nor a trailing hyphen, and [slugify] is idempotent:
    [slugify (slugify title) = slugify title]. *)
Theorem slugify_canonical_idempotent (title : jsstring) :
  forallb isSlugChar (slugify title) = true
  /\ toLowerCase (slugify title) = slugify title
  /\ startsWith hyphen (slugify title) = false
  /\ endsWith hyphen (slugify title) = false
  /\ slugify (slugify title) = slugify title.
Proof.
  pose proof (slugify_isSlug title) as H.
  destruct (isSlug_parts _ H) as (C & S & L & T).
  repeat split; auto using toLowerCase_slug, slugify_fixed.
Qed.

(** ** The Event pre-save hook *)

Ltac hook_cbn :=
  cbn [getPath setPath assign attrs titleModified fst snd hasTrimSetter
       title slug description overview image venue location date time
       mode audience agenda organizer tags asString].

Section PreSave.

Variable engineParse : jsstring -> option Z.

Local Abbreviation pre_save := (EventSchema_pre_save engineParse).

(** What a run of the hook does to the title and the slug.  When the title
    fails its check, the document is left as it is.  Otherwise the title is
    trimmed, and the slug is either generated from it (when the title is
    modified or the slug missing) or left alone; a run that fails before
    line 116 has not reached the slug. *)
Lemma pre_save_effect (this : EventDoc) :
  match assertNonEmpty (title (attrs this)) (js "title") with
  | Throw e => pre_save this = (this, Throw e)
  | Ok t =>
      let doc' := fst (pre_save this) in
      title (attrs doc') = Some (trim t)
      /\ titleModified doc' = titleAfter this t
      /\ ((snd (pre_save this) = Ok tt
           /\ slug (attrs doc')
              = if titleAfter this t || slugMissing (slug (attrs this))
                then Some (slugify (trim t)) else slug (attrs this))
          \/ (snd (pre_save this) <> Ok tt
              /\ (slug (attrs doc') = slug (attrs this)
                  \/ (titleAfter this t || slugMissing (slug (attrs this))
                      = true
                      /\ slug (attrs doc') = Some (slugify (trim t))))))
  end.
Proof.
  unfold EventSchema_pre_save, andThen, requireString, requireArray,
    generateSlug, normalizePath, titleAfter.
  hook_cbn.
  destruct (assertNonEmpty (title (attrs this)) (js "title")) as [t|e];
    hook_cbn; [|reflexivity].
  repeat match goal with
         | |- context [assertNonEmpty ?x ?n] =>
             destruct (assertNonEmpty x n); hook_cbn;
             [|repeat split; right; split; [discriminate | now left]]
         end.
  destruct (agenda (attrs this)) as [[|? ?]|]; hook_cbn;
    try (repeat split; right; split; [discriminate | now left]).
  destruct (tags (attrs this)) as [[|? ?]|]; hook_cbn;
    try (repeat split; right; split; [discriminate | now left]).
  destruct (_ || slugMissing _) eqn:G; hook_cbn.
  - destruct (bind (asString (date (attrs this))) _); hook_cbn;
      [|repeat split; right; split; [discriminate | now right]].
    destruct (bind (asString (time (attrs this))) _); hook_cbn;
      [|repeat split; right; split; [discriminate | now right]].
    repeat split. left. split; reflexivity.
  - destruct (bind (asString (date (attrs this))) _); hook_cbn;
      [|repeat split; right; split; [discriminate | now left]].
    destruct (bind (asString (time (attrs this))) _); hook_cbn;
      [|repeat split; right; split; [discriminate | now left]].
    repeat split. left. split; reflexivity.
Qed.

(** The hook ends in [next()] when every check passes. *)
Lemma pre_save_ok (this : EventDoc) :
  fieldsValid engineParse this = true -> snd (pre_save this) = Ok tt.
Proof.
  unfold fieldsValid, isNonEmptyArray. rewrite !andb_true_iff.
  intros H. decompose [and] H. clear H.
  unfold EventSchema_pre_save, andThen, requireString, requireArray,
    generateSlug, normalizePath.
  hook_cbn.
  repeat match goal with
         | |- context [assertNonEmpty ?x ?n] =>
             destruct (assertNonEmpty x n); [hook_cbn | discriminate]
         end.
  destruct (agenda (attrs this)) as [[|? ?]|]; try discriminate; hook_cbn.
  destruct (tags (attrs this)) as [[|? ?]|]; try discriminate; hook_cbn.
  destruct (_ || slugMissing _); hook_cbn;
    (destruct (bind (asString (date (attrs this))) _);
       [hook_cbn | discriminate]);
    (destruct (bind (asString (time (attrs this))) _);
       [hook_cbn | discriminate]);
    reflexivity.
Qed.

Lemma assertNonEmpty_trimmed (v : option jsstring) (f t : jsstring) :
  assertNonEmpty v f = Ok t -> exists s, v = Some s /\ t = trim s /\ t <> [].
Proof.
  unfold assertNonEmpty. destruct v as [s|]; [|discriminate].
  destruct (trim s) eqn:E; [discriminate|].
  intros H. injection H as <-. exists s. repeat split; auto. discriminate.
Qed.

(** C6.  In every save of an Event (whether the hook ends in [next()] or
    in an error), when the title is not modified (Mongoose does not report
    the path modified, and the hook's own trimming leaves the title as it
    was) and a slug is present, the hook leaves the slug as it is.  The
    slug changes only when the title is modified or no slug exists, and it
    is then computed from the current title. *)
Theorem pre_save_keeps_slug (this : EventDoc) :
  let doc' := fst (pre_save this) in
  (titleModified this = false ->
   title (attrs doc') = title (attrs this) ->
   slugMissing (slug (attrs this)) = false ->
   slug (attrs doc') = slug (attrs this))
  /\ (slug (attrs doc') <> slug (attrs this) ->
      (titleModified this = true
       \/ title (attrs doc') <> title (attrs this)
       \/ slugMissing (slug (attrs this)) = true)
      /\ exists t, title (attrs doc') = Some t
                   /\ slug (attrs doc') = Some (slugify t)).
Proof.
  pose proof (pre_save_effect this) as E.
  destruct (assertNonEmpty (title (attrs this)) (js "title")) as [t|e] eqn:A.
  2:{ rewrite E. simpl. split; [auto | intros H; now elim H]. }
  cbv zeta in E |- *. destruct E as (Ht & _ & Hs).
  assert (C : titleAfter this t || slugMissing (slug (attrs this)) = true ->
              titleModified this = true
              \/ title (attrs (fst (pre_save this))) <> title (attrs this)
              \/ slugMissing (slug (attrs this)) = true).
  { unfold titleAfter. rewrite Ht.
    destruct (titleModified this); [now left|].
    destruct (slugMissing (slug (attrs this))); [now right; right|].
    destruct (title (attrs this)) as [old|]; [|right; left; discriminate].
    simpl. rewrite orb_false_r, negb_true_iff. intros N.
    right; left. intros H. injection H as <-.
    now rewrite str_eqb_refl in N. }
  assert (K : slug (attrs (fst (pre_save this))) = slug (attrs this)
              \/ (titleAfter this t || slugMissing (slug (attrs this)) = true
                  /\ slug (attrs (fst (pre_save this)))
                     = Some (slugify (trim t)))).
  { destruct Hs as [[_ Hs] | [_ Hs]]; [|exact Hs].
    destruct (titleAfter this t || slugMissing (slug (attrs this)));
      [right | left]; auto. }
  split.
  - intros Hm Heq Hmiss. destruct K as [K | [K _]]; [exact K|].
    destruct (C K) as [H | [H | H]]; [congruence | now elim H | congruence].
  - intros Hne. destruct K as [K | [K1 K2]]; [now elim Hne|].
    split; [now apply C | eauto].
Qed.

(** A document that was saved with a slug of its own keeps it. *)
Lemma pre_save_keeps_slug_example :
  EventSchema_pre_save isoOnly
    (sampleDoc (js "Dev Conf") (Some (js "custom-slug")) false)
  = (mkEventDoc
       (sampleAttrs_saved (js "Dev Conf") (Some (js "custom-slug"))) false,
     Ok tt).
Proof. reflexivity. Qed.

End PreSave.

(** ** Titles without letters or digits *)

Lemma forallb_flat_map (A B : Type) (P : B -> bool) (f : A -> list B)
  (l : list A) :
  forallb P (flat_map f l) = forallb (fun x => forallb P (f x)) l.
Proof.
  induction l as [|a l IH]; simpl; [reflexivity|].
  now rewrite forallb_app, IH.
Qed.

Lemma forallb_trimStart (P : code_unit -> bool) (s : jsstring) :
  forallb P s = true -> forallb P (trimStart s) = true.
Proof.
  induction s as [|c r IH]; simpl; [reflexivity|].
  intros H. destruct (isWhiteSpace c); [|exact H].
  apply andb_true_iff in H as [_ H]. auto.
Qed.

Lemma forallb_trim (P : code_unit -> bool) (s : jsstring) :
  forallb P s = true -> forallb P (trim s) = true.
Proof.
  intros H. unfold trim, trimEnd.
  rewrite forallb_rev. apply forallb_trimStart.
  rewrite forallb_rev. now apply forallb_trimStart.
Qed.

Lemma forallb_filter (A : Type) (P f : A -> bool) (l : list A) :
  forallb P l = true -> forallb P (filter f l) = true.
Proof.
  induction l as [|a l IH]; simpl; [reflexivity|].
  rewrite andb_true_iff. intros [Ha Hl].
  destruct (f a); simpl; [rewrite Ha|]; auto.
Qed.

Lemma hyphenate_no_alnum (s : jsstring) :
  forallb (fun c => negb (isSlugAlnum c)) s = true ->
  hyphenate true s = []
  /\ hyphenate false s = if isEmpty s then [] else [hyphen].
Proof.
  induction s as [|c r IH]; simpl; [auto|].
  rewrite andb_true_iff, negb_true_iff. intros [-> Hr].
  destruct (IH Hr) as [-> _]. auto.
Qed.

Lemma noLowerAlnum_trim (t : jsstring) :
  noLowerAlnum t = true -> noLowerAlnum (trim t) = true.
Proof.
  unfold noLowerAlnum, toLowerCase. rewrite !forallb_flat_map.
  apply forallb_trim.
Qed.

(** The titles in question are those without ASCII letter or digit,
    without U+0130 and without U+212A. *)
Lemma noLowerAlnum_chars (t : jsstring) :
  noLowerAlnum t
  = forallb (fun c => negb (isAsciiAlnum c) && negb (c =? 304)
                      && negb (c =? 8490)) t.
Proof.
  unfold noLowerAlnum, toLowerCase. rewrite forallb_flat_map.
  induction t as [|c r IH]; simpl; [reflexivity|]. rewrite IH. f_equal.
  unfold lowerUnit, isAsciiAlnum, isSlugAlnum.
  split_cmp; reflexivity.
Qed.

(** A title none of whose characters is a letter or digit in lower case
    has the empty slug. *)
Lemma slugify_noLowerAlnum (t : jsstring) :
  noLowerAlnum t = true -> slugify t = [].
Proof.
  unfold noLowerAlnum, slugify. intros H.
  apply forallb_trim in H.
  apply (forallb_filter _ _ (fun c => negb (isQuote c))) in H.
  fold (removeQuotes (trim (toLowerCase t))) in H.
  destruct (hyphenate_no_alnum _ H) as [_ ->].
  destruct (removeQuotes (trim (toLowerCase t))); reflexivity.
Qed.

(** C10, as stated, fails twice.  The Kelvin sign U+212A is no ASCII
    letter, and its lower case is [k]: the slug of that title is not empty.
    And a title of white space alone contains no ASCII letter or digit, but
    the hook rejects it ('title is required') and assigns no slug. *)
Lemma slug_of_non_ascii_title_counterexample :
  (noAsciiAlnum [8490] = true /\ slugify [8490] = js "k")
  /\ (noAsciiAlnum (js "  ") = true
      /\ EventSchema_pre_save isoOnly (sampleDoc (js "  ") None true)
         = (sampleDoc (js "  ") None true,
            Throw (Error (js "title is required")))).
Proof. repeat split. Qed.

Section EmptySlug.

Variable engineParse : jsstring -> option Z.

Local Abbreviation pre_save := (EventSchema_pre_save engineParse).

(** A document whose slug is missing or empty gets its slug computed from
    the title by every save that ends in [next()]. *)
Lemma pre_save_regenerates_missing_slug (d : EventDoc) :
  slugMissing (slug (attrs d)) = true -> snd (pre_save d) = Ok tt ->
  exists t, title (attrs (fst (pre_save d))) = Some t
            /\ slug (attrs (fst (pre_save d))) = Some (slugify t).
Proof.
  intros Hm H. pose proof (pre_save_effect engineParse d) as E.
  destruct (assertNonEmpty (title (attrs d)) (js "title")) as [t|e].
  - cbv zeta in E. destruct E as (Ht & _ & [[_ Hs] | [N _]]);
      [|now elim N].
    rewrite Hm, orb_true_r in Hs. eauto.
  - rewrite E in H. discriminate.
Qed.

(** C10 (amended).  For a title that is not blank and none of whose
    characters is, in lower case, a letter or digit of [a-z0-9], [slugify]
    returns the empty string; a save of a document with that title whose
    other fields pass the checks, and whose slug is generated (the title is
    modified or no slug exists), ends without error and with the empty
    slug; and whenever the slug of a document is the empty string, a save
    computes it again from the title. *)
Theorem empty_slug_of_title_without_alnum (this : EventDoc) (t : jsstring) :
  title (attrs this) = Some t ->
  noLowerAlnum t = true ->
  fieldsValid engineParse this = true ->
  titleModified this = true \/ slugMissing (slug (attrs this)) = true ->
  slugify t = []
  /\ snd (pre_save this) = Ok tt
  /\ slug (attrs (fst (pre_save this))) = Some []
  /\ (forall d, slug (attrs d) = Some [] -> snd (pre_save d) = Ok tt ->
      exists t', title (attrs (fst (pre_save d))) = Some t'
                 /\ slug (attrs (fst (pre_save d))) = Some (slugify t')).
Proof.
  intros Ht Hno Hvalid Hgen. split; [now apply slugify_noLowerAlnum|].
  pose proof (pre_save_ok engineParse this Hvalid) as O.
  split; [exact O|]. split.
  - pose proof (pre_save_effect engineParse this) as E.
    destruct (assertNonEmpty (title (attrs this)) (js "title")) as [t0|e] eqn:A.
    + cbv zeta in E. destruct E as (_ & _ & [[_ Hs] | [N _]]); [|now elim N].
      destruct (assertNonEmpty_trimmed _ _ _ A) as (s & Hs0 & -> & _).
      rewrite Ht in Hs0. injection Hs0 as <-.
      assert (C : titleAfter this (trim t)
                  || slugMissing (slug (attrs this)) = true).
      { unfold titleAfter.
        destruct Hgen as [-> | ->]; [reflexivity | apply orb_true_r]. }
      rewrite C in Hs. rewrite Hs. f_equal.
      apply slugify_noLowerAlnum. now do 2 apply noLowerAlnum_trim.
    + rewrite E in O. discriminate.
  - intros d Hd. apply pre_save_regenerates_missing_slug. now rewrite Hd.
Qed.

End EmptySlug.

Lemma empty_slug_of_title_without_alnum_witness :
  fieldsValid isoOnly (sampleDoc (js "!!!") None true) = true
  /\ slugify (js "!!!") = []
  /\ snd (EventSchema_pre_save isoOnly (sampleDoc (js "!!!") None true))
     = Ok tt
  /\ slug (attrs (fst (EventSchema_pre_save isoOnly
                         (sampleDoc (js "!!!") None true))))
     = Some [].
Proof.
  split; [reflexivity|].
  destruct (empty_slug_of_title_without_alnum isoOnly
              (sampleDoc (js "!!!") None true) (js "!!!")
              eq_refl eq_refl eq_refl (or_introl eq_refl))
    as (A & B & C & _).
  repeat split; assumption.
Defined.

(** ** normalizeTime *)

Lemma trimStart_app_ws (w r : jsstring) :
  allWhiteSpace w = true -> trimStart (w ++ r) = trimStart r.
Proof.
  induction w as [|c w IH]; simpl; [reflexivity|].
  rewrite andb_true_iff. intros [-> H]. auto.
Qed.

Lemma trimStart_split (s : jsstring) :
  exists w, allWhiteSpace w = true /\ s = w ++ trimStart s.
Proof.
  induction s as [|c r (w & Hw & IH)]; [exists []; auto|].
  simpl. destruct (isWhiteSpace c) eqn:E.
  - exists (c :: w). simpl. rewrite E, Hw. now rewrite <- IH.
  - exists []. auto.
Qed.

Lemma trimStart_head (s : jsstring) :
  match trimStart s with
  | [] => True
  | c :: _ => isWhiteSpace c = false
  end.
Proof.
  induction s as [|c r IH]; simpl; [exact I|].
  destruct (isWhiteSpace c) eqn:E; [exact IH | exact E].
Qed.

Lemma trimStart_nil (s : jsstring) :
  trimStart s = [] <-> allWhiteSpace s = true.
Proof.
  induction s as [|c r IH]; simpl; [tauto|].
  destruct (isWhiteSpace c); simpl; [exact IH|].
  split; discriminate.
Qed.

Lemma isEmpty_true (s : jsstring) : isEmpty s = true <-> s = [].
Proof. destruct s; simpl; split; auto; discriminate. Qed.

Lemma allWhiteSpace_app (a b : jsstring) :
  allWhiteSpace a = true -> allWhiteSpace b = true ->
  allWhiteSpace (a ++ b) = true.
Proof. unfold allWhiteSpace. rewrite forallb_app. now intros -> ->. Qed.

Lemma trimEnd_app_ws (x w : jsstring) :
  allWhiteSpace w = true -> trimEnd (x ++ w) = trimEnd x.
Proof.
  intros H. unfold trimEnd. rewrite rev_app_distr, trimStart_app_ws;
    [reflexivity|]. unfold allWhiteSpace. now rewrite forallb_rev.
Qed.

Lemma trimEnd_snoc (x : jsstring) (c : code_unit) :
  isWhiteSpace c = false -> trimEnd (x ++ [c]) = x ++ [c].
Proof.
  intros H. unfold trimEnd. rewrite rev_unit. simpl. rewrite H.
  simpl. now rewrite rev_involutive.
Qed.

(** Trimming a text padded with white space gives the text back when its
    first and its last character are not white space. *)
Lemma trim_core (u w t : jsstring) (h c : code_unit) :
  allWhiteSpace u = true -> allWhiteSpace w = true ->
  isWhiteSpace h = false -> isWhiteSpace c = false ->
  forall core, core = h :: t -> (exists t', core = t' ++ [c]) ->
  trim (u ++ core ++ w) = core.
Proof.
  intros Hu Hw Hh Hc core -> [t' Ht']. unfold trim.
  rewrite trimStart_app_ws by assumption. simpl. rewrite Hh.
  change (h :: t ++ w) with ((h :: t) ++ w).
  rewrite trimEnd_app_ws by assumption. rewrite Ht'. now apply trimEnd_snoc.
Qed.

(** Every string is its trimmed text with white space around it. *)
Lemma trim_split (s : jsstring) :
  exists u w, allWhiteSpace u = true /\ allWhiteSpace w = true
              /\ s = u ++ trim s ++ w.
Proof.
  destruct (trimStart_split s) as (u & Hu & Hs).
  destruct (trimStart_split (rev (trimStart s))) as (w & Hw & Hr).
  exists u, (rev w). repeat split; auto.
  - unfold allWhiteSpace. now rewrite forallb_rev.
  - rewrite Hs at 1. f_equal. unfold trim, trimEnd.
    rewrite <- rev_app_distr, <- Hr. now rewrite rev_involutive.
Qed.

(** The classes of the time expression do not overlap. *)
Lemma isDigit_other (c : code_unit) :
  isDigit c = true ->
  isWhiteSpace c = false /\ isAP c = false /\ (c =? 58) = false.
Proof.
  unfold isDigit, isWhiteSpace, isAP. intros H. split_cmp; auto.
Qed.

Lemma isAP_other (c : code_unit) :
  isAP c = true ->
  isWhiteSpace c = false /\ isDigit c = false /\ (c =? 58) = false.
Proof.
  unfold isDigit, isWhiteSpace, isAP. intros H. split_cmp; auto.
Qed.

Lemma isM_other (c : code_unit) : isM c = true -> isWhiteSpace c = false.
Proof. unfold isWhiteSpace, isM. intros H. split_cmp; auto. Qed.

Lemma isWhiteSpace_other (c : code_unit) :
  isWhiteSpace c = true ->
  isDigit c = false /\ isAP c = false /\ (c =? 58) = false.
Proof.
  unfold isDigit, isWhiteSpace, isAP. intros H. split_cmp; auto.
Qed.

Lemma orElse_Some (A : Type) (a b : option A) (x : A) :
  orElse a b = Some x <-> a = Some x \/ (a = None /\ b = Some x).
Proof.
  destruct a; simpl; split; auto.
  - intros [H | [H _]]; [exact H | discriminate].
  - intros [H | [_ H]]; [discriminate | exact H].
Qed.

Lemma isAmPm_inv (a : jsstring) :
  isAmPm a = true -> exists x y, a = [x; y] /\ isAP x = true /\ isM y = true.
Proof.
  destruct a as [|x [|y [|z r]]]; simpl; try discriminate.
  rewrite andb_true_iff. intros [? ?]. eauto.
Qed.

Lemma twoDigits_inv (d : jsstring) :
  twoDigits d = true ->
  exists x y, d = [x; y] /\ isDigit x = true /\ isDigit y = true.
Proof.
  destruct d as [|x [|y [|z r]]]; simpl; try discriminate.
  rewrite andb_true_iff. intros [? ?]. eauto.
Qed.

(** The first character of the end of a time text is no digit and no
    colon. *)
Lemma SuffixText_head (s : jsstring) (ap : option jsstring) :
  SuffixText s ap ->
  match s with
  | [] => True
  | c :: _ => isDigit c = false /\ (c =? 58) = false
  end.
Proof.
  intros (w2 & w3 & H2 & H3 & Hap & ->).
  destruct w2 as [|c w2]; simpl in *.
  - destruct ap as [a|]; simpl in *.
    + destruct (isAmPm_inv a Hap) as (x & y & -> & Hx & _). simpl.
      destruct (isAP_other x Hx) as (_ & ? & ?). auto.
    + destruct w3 as [|c w3]; simpl in *; [exact I|].
      apply andb_true_iff in H3 as [Hc _].
      destruct (isWhiteSpace_other c Hc) as (? & _ & ?). auto.
  - apply andb_true_iff in H2 as [Hc _].
    destruct (isWhiteSpace_other c Hc) as (? & _ & ?). auto.
Qed.

Lemma matchSuffix_spec (s : jsstring) (ap : option jsstring) :
  matchSuffix s = Some ap <-> SuffixText s ap.
Proof.
  unfold matchSuffix. split.
  - destruct (trimStart_split s) as (w & Hw & Hs).
    destruct (trimStart s) as [|a [|m r]] eqn:E; try discriminate.
    + intros H. injection H as <-. exists w, []. auto.
    + destruct (isAP a && isM m && isEmpty (trimStart r)) eqn:C;
        [|discriminate].
      intros H. injection H as <-.
      apply andb_true_iff in C as [C Hr]. apply isEmpty_true, trimStart_nil in Hr.
      exists w, r. simpl. auto.
  - intros (w2 & w3 & H2 & H3 & Hap & ->).
    rewrite trimStart_app_ws by assumption.
    destruct ap as [a|]; simpl in *.
    + destruct (isAmPm_inv a Hap) as (x & y & -> & Hx & Hy). simpl.
      destruct (isAP_other x Hx) as (-> & _). rewrite Hx, Hy.
      apply trimStart_nil in H3. now rewrite H3.
    + apply trimStart_nil in H3. now rewrite H3.
Qed.

Lemma matchTwoDigits_spec (s : jsstring) (mm ap : option jsstring) :
  matchTwoDigits s = Some (mm, ap) <->
  exists d rest, mm = Some d /\ twoDigits d = true /\ s = d ++ rest
                 /\ SuffixText rest ap.
Proof.
  unfold matchTwoDigits. split.
  - destruct s as [|d1 [|d2 r]]; try discriminate.
    destruct (isDigit d1 && isDigit d2) eqn:D; [|discriminate].
    destruct (matchSuffix r) as [ap'|] eqn:E; [|discriminate].
    simpl. intros H. injection H as <- <-.
    exists [d1; d2], r. simpl. rewrite <- matchSuffix_spec. auto.
  - intros (d & rest & -> & Hd & -> & Hs).
    destruct (twoDigits_inv d Hd) as (x & y & -> & Hx & Hy). simpl.
    rewrite Hx, Hy. apply matchSuffix_spec in Hs. now rewrite Hs.
Qed.

Lemma matchTwoDigits_suffix (s : jsstring) (ap : option jsstring) :
  SuffixText s ap -> matchTwoDigits s = None.
Proof.
  intros H. apply SuffixText_head in H. unfold matchTwoDigits.
  destruct s as [|d1 [|d2 r]]; try reflexivity.
  destruct H as [-> _]. reflexivity.
Qed.

Lemma matchMinutes_spec (s : jsstring) (mm ap : option jsstring) :
  matchMinutes s = Some (mm, ap) <-> MinutesText s mm ap.
Proof.
  unfold matchMinutes, MinutesText. rewrite !orElse_Some. split.
  - intros [H | [_ [H | [_ H]]]].
    + destruct s as [|c r]; [discriminate|].
      destruct (N.eqb_spec c 58) as [->|]; [|discriminate].
      apply matchTwoDigits_spec in H as (d & rest & -> & Hd & -> & Hs).
      right. exists [58], d, rest. auto.
    + apply matchTwoDigits_spec in H as (d & rest & -> & Hd & -> & Hs).
      right. exists [], d, rest. auto.
    + destruct (matchSuffix s) as [ap'|] eqn:E; [|discriminate].
      simpl in H. injection H as <- <-. left. now rewrite <- matchSuffix_spec.
  - intros [[-> Hs] | (sep & d & rest & -> & Hd & Hsep & -> & Hs)].
    + right. split.
      * pose proof (SuffixText_head _ _ Hs) as Hh.
        destruct s as [|c r]; [reflexivity|]. now destruct Hh as [_ ->].
      * right. split; [now apply matchTwoDigits_suffix with ap|].
        apply matchSuffix_spec in Hs. now rewrite Hs.
    + assert (G : matchTwoDigits (d ++ rest) = Some (Some d, ap)).
      { apply matchTwoDigits_spec. exists d, rest. auto. }
      destruct Hsep as [-> | ->]; simpl.
      * right. split; [|now left].
        destruct (twoDigits_inv d Hd) as (x & y & -> & Hx & _). simpl.
        destruct (isDigit_other x Hx) as (_ & _ & ->). reflexivity.
      * now left.
Qed.

Lemma oneOrTwoDigits_inv (h : jsstring) :
  oneOrTwoDigits h = true ->
  (exists x, h = [x] /\ isDigit x = true)
  \/ (exists x y, h = [x; y] /\ isDigit x = true /\ isDigit y = true).
Proof.
  destruct h as [|x [|y [|z r]]]; simpl; try discriminate.
  - eauto.
  - rewrite andb_true_iff. intros [? ?]. right. eauto.
Qed.

(** After a digit that is read as the second digit of the hours, a text
    that begins with one more digit and then ends is no minutes text. *)
Lemma matchMinutes_after_spare_digit (d : code_unit) (rest : jsstring)
  (ap : option jsstring) :
  isDigit d = true -> SuffixText rest ap -> matchMinutes (d :: rest) = None.
Proof.
  intros Hd Hs.
  destruct (matchMinutes (d :: rest)) as [[mm' ap']|] eqn:E; [|reflexivity].
  exfalso. apply matchMinutes_spec in E.
  destruct E as [[_ H] | (sep & d' & rest' & _ & Hd' & Hsep & Heq & H)].
  - apply SuffixText_head in H. destruct H as [H _]. congruence.
  - destruct (twoDigits_inv d' Hd') as (x & y & -> & Hx & Hy).
    destruct Hsep as [-> | ->]; simpl in Heq; injection Heq as -> ->.
    + apply SuffixText_head in Hs. destruct Hs as [Hs _]. congruence.
    + discriminate Hd.
Qed.

Lemma matchTime_spec (s hh : jsstring) (mm ap : option jsstring) :
  matchTime s = Some (hh, mm, ap) <-> TimeText s hh mm ap.
Proof.
  unfold matchTime, TimeText. rewrite orElse_Some. split.
  - destruct (trimStart_split s) as (w & Hw & Hs).
    intros [H | [_ H]].
    + destruct (trimStart s) as [|h1 [|h2 r]]; try discriminate.
      destruct (isDigit h1 && isDigit h2) eqn:D; [|discriminate].
      destruct (matchMinutes r) as [[mm' ap']|] eqn:E; [|discriminate].
      simpl in H. injection H as <- <- <-.
      exists w, r. apply matchMinutes_spec in E. simpl. auto.
    + destruct (trimStart s) as [|h1 r]; [discriminate|].
      destruct (isDigit h1) eqn:D; [|discriminate].
      destruct (matchMinutes r) as [[mm' ap']|] eqn:E; [|discriminate].
      simpl in H. injection H as <- <- <-.
      exists w, r. apply matchMinutes_spec in E. simpl. auto.
  - intros (w1 & rest & Hw & Hh & -> & Hm).
    rewrite trimStart_app_ws by assumption.
    pose proof Hm as Hm'. apply matchMinutes_spec in Hm'.
    destruct (oneOrTwoDigits_inv hh Hh)
      as [(x & -> & Hx) | (x & y & -> & Hx & Hy)];
      simpl; destruct (isDigit_other x Hx) as (-> & _).
    + right. rewrite Hx, Hm'. split; [|reflexivity].
      destruct Hm as [[_ Hs] | (sep & d & rest' & _ & Hd & Hsep & -> & Hs)].
      * apply SuffixText_head in Hs.
        destruct rest as [|c r]; [reflexivity|].
        destruct Hs as [-> _]. reflexivity.
      * destruct (twoDigits_inv d Hd) as (d1 & d2 & -> & H1 & H2).
        destruct Hsep as [-> | ->]; simpl; [|reflexivity].
        rewrite H1. now rewrite (matchMinutes_after_spare_digit d2 rest' ap).
    + left. now rewrite Hx, Hy, Hm'.
Qed.

(** White space around a time text does not matter. *)
Lemma SuffixText_pad (s w : jsstring) (ap : option jsstring) :
  allWhiteSpace w = true -> SuffixText s ap -> SuffixText (s ++ w) ap.
Proof.
  intros Hw (w2 & w3 & H2 & H3 & Hap & ->).
  exists w2, (w3 ++ w). repeat split; auto using allWhiteSpace_app.
  now rewrite <- !app_assoc.
Qed.

Lemma MinutesText_pad (s w : jsstring) (mm ap : option jsstring) :
  allWhiteSpace w = true -> MinutesText s mm ap -> MinutesText (s ++ w) mm ap.
Proof.
  intros Hw [[-> Hs] | (sep & d & rest & -> & Hd & Hsep & -> & Hs)].
  - left. auto using SuffixText_pad.
  - right. exists sep, d, (rest ++ w). repeat split; auto using SuffixText_pad.
    now rewrite <- !app_assoc.
Qed.

Lemma TimeText_pad (s u w hh : jsstring) (mm ap : option jsstring) :
  allWhiteSpace u = true -> allWhiteSpace w = true ->
  TimeText s hh mm ap -> TimeText (u ++ s ++ w) hh mm ap.
Proof.
  intros Hu Hw (w1 & rest & H1 & Hh & -> & Hm).
  exists (u ++ w1), (rest ++ w).
  repeat split; auto using allWhiteSpace_app, MinutesText_pad.
  now rewrite <- !app_assoc.
Qed.

Lemma SuffixText_core (s : jsstring) (ap : option jsstring) :
  SuffixText s ap ->
  exists c w, allWhiteSpace w = true /\ s = c ++ w /\ SuffixText c ap
              /\ (c = [] \/ endsNonSpace c).
Proof.
  intros (w2 & w3 & H2 & H3 & Hap & ->). destruct ap as [a|]; simpl in *.
  - exists (w2 ++ a), w3. split; [exact H3|]. split; [apply app_assoc|]. split.
    + exists w2, []. repeat split; auto. now rewrite app_nil_r.
    + right. destruct (isAmPm_inv a Hap) as (x & y & -> & _ & Hy).
      exists (w2 ++ [x]), y. split; [now rewrite <- app_assoc|].
      now apply isM_other.
  - exists [], (w2 ++ w3). split; [now apply allWhiteSpace_app|].
    split; [reflexivity|]. split; [|now left].
    exists [], []. auto.
Qed.

Lemma MinutesText_core (s : jsstring) (mm ap : option jsstring) :
  MinutesText s mm ap ->
  exists c w, allWhiteSpace w = true /\ s = c ++ w /\ MinutesText c mm ap
              /\ (c = [] \/ endsNonSpace c).
Proof.
  intros [[-> Hs] | (sep & d & rest & -> & Hd & Hsep & -> & Hs)].
  - destruct (SuffixText_core s ap Hs) as (c & w & Hw & -> & Hc & He).
    exists c, w. split; [exact Hw|]. split; [reflexivity|].
    split; [now left | exact He].
  - destruct (SuffixText_core rest ap Hs) as (c & w & Hw & -> & Hc & He).
    exists (sep ++ d ++ c), w. split; [exact Hw|]. split; [|split].
    + now rewrite <- !app_assoc.
    + right. exists sep, d, c. auto.
    + right. destruct He as [-> | (t & x & -> & Hx)].
      * destruct (twoDigits_inv d Hd) as (d1 & d2 & -> & _ & H2).
        exists (sep ++ [d1]), d2. rewrite app_nil_r, <- app_assoc.
        split; [reflexivity|]. now apply isDigit_other.
      * exists (sep ++ d ++ t), x. now rewrite <- !app_assoc.
Qed.

Lemma TimeText_trim (v hh : jsstring) (mm ap : option jsstring) :
  TimeText v hh mm ap -> TimeText (trim v) hh mm ap.
Proof.
  intros (w1 & rest & H1 & Hh & -> & Hm).
  destruct (MinutesText_core rest mm ap Hm) as (c & w & Hw & -> & Hc & He).
  assert (Hcore : exists h t x, hh ++ c = h :: t /\ isWhiteSpace h = false
                     /\ (exists t', hh ++ c = t' ++ [x])
                     /\ isWhiteSpace x = false).
  { destruct (oneOrTwoDigits_inv hh Hh)
      as [(x & -> & Hx) | (x & y & -> & Hx & Hy)];
      destruct (isDigit_other x Hx) as (Wx & _).
    - destruct He as [-> | (t & z & -> & Hz)].
      + exists x, [], x. repeat split; auto. now exists [].
      + exists x, (t ++ [z]), z. repeat split; auto. now exists (x :: t).
    - destruct (isDigit_other y Hy) as (Wy & _).
      destruct He as [-> | (t & z & -> & Hz)].
      + exists x, [y], y. repeat split; auto. now exists [x].
      + exists x, (y :: t ++ [z]), z. repeat split; auto.
        now exists (x :: y :: t). }
  destruct Hcore as (h & t & x & Heq & Wh & Hend & Wx).
  replace (w1 ++ hh ++ c ++ w) with (w1 ++ (hh ++ c) ++ w)
    by now rewrite <- !app_assoc.
  rewrite (trim_core w1 w t h x H1 Hw Wh Wx (hh ++ c) Heq Hend).
  exists [], c. auto.
Qed.

Lemma TimeText_trim_iff (v hh : jsstring) (mm ap : option jsstring) :
  TimeText (trim v) hh mm ap <-> TimeText v hh mm ap.
Proof.
  split; [|apply TimeText_trim].
  destruct (trim_split v) as (u & w & Hu & Hw & Hv).
  intros H. rewrite Hv. now apply TimeText_pad.
Qed.

(** The hour the function computes is the hour on the 24-hour clock. *)
Lemma hours_hour24 (h : Z) (ap : option jsstring) :
  optionalAmPm ap = true ->
  (let ampm := toLowerCase (text ap) in
   if isEmpty ampm then h
   else (let h0 := if (h =? 12)%Z then 0%Z else h in
         if str_eqb ampm (js "pm") then (h0 + 12)%Z else h0))
  = hour24 h ap.
Proof.
  destruct ap as [a|]; simpl; [|reflexivity].
  intros Ha. destruct (isAmPm_inv a Ha) as (x & y & -> & Hx & Hy).
  unfold isAP in Hx. unfold isM in Hy.
  destruct (N.eqb_spec x 97), (N.eqb_spec x 65), (N.eqb_spec x 112),
    (N.eqb_spec x 80); try discriminate; subst;
    destruct (N.eqb_spec y 109), (N.eqb_spec y 77); try discriminate; subst;
    try lia; cbv - [Z.eqb Z.add];
    destruct (h =? 12)%Z; lia.
Qed.

Lemma padStart2_clock (n : Z) :
  (0 <= n <= 59)%Z ->
  padStart2 (numberToString n)
  = [Z.to_N (48 + n / 10); Z.to_N (48 + n mod 10)].
Proof.
  intros H. assert (E : exists k, (k < 60)%nat /\ n = Z.of_nat k).
  { exists (Z.to_nat n). split; lia. }
  destruct E as (k & Hk & ->). clear H.
  do 60 (destruct k as [|k]; [vm_compute; reflexivity|]). lia.
Qed.

Lemma TimeText_ampm (s hh : jsstring) (mm ap : option jsstring) :
  TimeText s hh mm ap -> optionalAmPm ap = true.
Proof.
  intros (w1 & rest & _ & _ & _ & Hm).
  destruct Hm as [[_ Hs] | (sep & d & r & _ & _ & _ & _ & Hs)];
    destruct Hs as (w2 & w3 & _ & _ & Hap & _); exact Hap.
Qed.

Lemma normalizeTime_captures (value hh : jsstring) (mm ap : option jsstring) :
  matchTime (trim value) = Some (hh, mm, ap) ->
  normalizeTime value = timeOfCaptures hh mm ap.
Proof.
  intros E. pose proof E as T. apply matchTime_spec, TimeText_ampm in T.
  unfold normalizeTime, timeOfCaptures. rewrite E.
  rewrite <- (hours_hour24 (parseInt10 hh) ap T).
  destruct mm; reflexivity.
Qed.

Lemma timeOfCaptures_ok (g1 : jsstring) (g2 g3 : option jsstring)
  (out : jsstring) :
  timeOfCaptures g1 g2 g3 = Ok out <->
  (0 <= hour24 (parseInt10 g1) g3 <= 23)%Z /\ (0 <= minuteOf g2 <= 59)%Z
  /\ out = clock (hour24 (parseInt10 g1) g3) (minuteOf g2).
Proof.
  unfold timeOfCaptures.
  set (h := hour24 (parseInt10 g1) g3). set (m := minuteOf g2).
  rewrite !Z.gtb_ltb.
  destruct (Z.ltb_spec h 0), (Z.ltb_spec 23 h), (Z.ltb_spec m 0),
    (Z.ltb_spec 59 m); simpl;
    try (split; [discriminate | intros (? & ? & _); lia]).
  rewrite !padStart2_clock by lia. unfold clock.
  split.
  - intros E. injection E as <-. repeat split; lia.
  - intros (_ & _ & ->). reflexivity.
Qed.

Lemma timeOfCaptures_throw (g1 : jsstring) (g2 g3 : option jsstring) (e : exn) :
  timeOfCaptures g1 g2 g3 = Throw e -> e = Error (js "time is invalid").
Proof.
  unfold timeOfCaptures.
  destruct (_ || _ || _ || _)%bool; [|discriminate].
  intros H. now injection H as <-.
Qed.

(** C3, as stated, fails: the colon of the time expression is optional, so
    [1430], which is none of the patterns [H], [HH], [H:mm], [HH:mm], is
    accepted and read as 14:30. *)
Lemma normalizeTime_accepts_unlisted_pattern :
  listedTimePattern (js "1430") = false
  /\ normalizeTime (js "1430") = Ok (js "14:30").
Proof. split; reflexivity. Qed.

(** C3 (amended).  [normalizeTime] accepts exactly the time texts: white
    space, one or two digits of hours, optionally two digits of minutes
    with or without a colon before them, white space, an optional am/pm in
    either case, white space.  With am/pm an hour of 12 counts as 0, and pm
    adds 12.  The hour has to lie in 0..23 and the minute in 0..59; the
    result is then the zero-padded [HH:mm], and every other call fails
    with 'time is invalid'.  In particular "2pm" gives "14:00", "12am"
    gives "00:00", "9:05" gives "09:05", and "25:00" fails. *)
Theorem normalizeTime_accepts_time_texts :
  (forall value out,
     normalizeTime value = Ok out <->
     exists hh mm ap,
       TimeText value hh mm ap
       /\ (0 <= hour24 (parseInt10 hh) ap <= 23)%Z
       /\ (0 <= minuteOf mm <= 59)%Z
       /\ out = clock (hour24 (parseInt10 hh) ap) (minuteOf mm))
  /\ (forall value e,
        normalizeTime value = Throw e -> e = Error (js "time is invalid"))
  /\ normalizeTime (js "2pm") = Ok (js "14:00")
  /\ normalizeTime (js "12am") = Ok (js "00:00")
  /\ normalizeTime (js "9:05") = Ok (js "09:05")
  /\ normalizeTime (js "25:00") = Throw (Error (js "time is invalid")).
Proof.
  split; [|split; [|repeat split]].
  - intros value out. split.
    + intros H.
      destruct (matchTime (trim value)) as [[[hh mm] ap]|] eqn:E.
      * rewrite (normalizeTime_captures value hh mm ap E) in H.
        apply timeOfCaptures_ok in H.
        exists hh, mm, ap. split; [|exact H].
        now apply TimeText_trim_iff, matchTime_spec.
      * unfold normalizeTime in H. rewrite E in H. discriminate.
    + intros (hh & mm & ap & T & H).
      apply TimeText_trim, matchTime_spec in T.
      rewrite (normalizeTime_captures value hh mm ap T).
      now apply timeOfCaptures_ok.
  - intros value e H.
    destruct (matchTime (trim value)) as [[[hh mm] ap]|] eqn:E.
    + rewrite (normalizeTime_captures value hh mm ap E) in H.
      now apply timeOfCaptures_throw in H.
    + unfold normalizeTime in H. rewrite E in H. now injection H as <-.
Qed.

(** ** The email of a Booking *)

Lemma takeAddrChars_drop (v : jsstring) :
  v = takeAddrChars v ++ dropAddrChars v
  /\ forallb isAddrChar (takeAddrChars v) = true
  /\ match dropAddrChars v with
     | [] => True
     | c :: _ => isAddrChar c = false
     end.
Proof.
  induction v as [|c r (IH1 & IH2 & IH3)]; simpl; [auto|].
  destruct (isAddrChar c) eqn:E; simpl.
  - rewrite E, IH2. repeat split; auto. now rewrite <- IH1.
  - auto.
Qed.

Lemma takeAddrChars_app (l r : jsstring) :
  forallb isAddrChar l = true ->
  match r with [] => True | c :: _ => isAddrChar c = false end ->
  takeAddrChars (l ++ r) = l /\ dropAddrChars (l ++ r) = r.
Proof.
  intros Hl Hr. induction l as [|c l IH]; simpl in *.
  - destruct r as [|c r]; [auto|]. simpl. rewrite Hr. auto.
  - apply andb_true_iff in Hl as [-> Hl]. destruct (IH Hl) as [-> ->]. auto.
Qed.

Lemma exists_last_or_nil (A : Type) (l : list A) :
  l = [] \/ exists l' a, l = l' ++ [a].
Proof. destruct l using rev_ind; [now left | right; eauto]. Qed.

(** A dot with a character before it and a character after it. *)
Lemma inner_dot (d : jsstring) :
  existsb (N.eqb 46) (removelast (tl d)) = true <->
  exists d1 d2, d = d1 ++ [46] ++ d2 /\ d1 <> [] /\ d2 <> [].
Proof.
  split.
  - destruct d as [|x t]; [discriminate|]. simpl tl.
    destruct (exists_last_or_nil _ t) as [-> | (t' & z & ->)]; [discriminate|].
    rewrite removelast_last. intros H.
    apply existsb_exists in H as (c & Hin & Hc). apply N.eqb_eq in Hc. subst c.
    apply in_split in Hin as (a & b & ->).
    exists (x :: a), (b ++ [z]). simpl. rewrite <- !app_assoc. simpl.
    repeat split; try discriminate.
    destruct b; discriminate.
  - intros (d1 & d2 & -> & H1 & H2).
    destruct d1 as [|x a]; [contradiction|].
    destruct (exists_last_or_nil _ d2) as [-> | (b & z & ->)]; [contradiction|].
    simpl. change (a ++ 46 :: b ++ [z]) with (a ++ (46 :: b) ++ [z]).
    rewrite app_assoc, removelast_last, existsb_app. simpl. apply orb_true_r.
Qed.

Lemma emailRegex_test_spec (s : jsstring) :
  emailRegex_test s = true <-> EmailShape s.
Proof.
  unfold emailRegex_test, EmailShape. split.
  - destruct (takeAddrChars_drop s) as (Hs & Hl & _).
    destruct (takeAddrChars s) as [|x l] eqn:El; [discriminate|].
    destruct (dropAddrChars s) as [|c d] eqn:Ed; [discriminate|].
    rewrite andb_true_iff. unfold domainMatches. rewrite andb_true_iff.
    intros (Hc & Hd & Hdot). apply N.eqb_eq in Hc. subst c.
    apply inner_dot in Hdot as (d1 & d2 & -> & H1 & H2).
    rewrite forallb_app in Hd. simpl in Hd.
    apply andb_true_iff in Hd as [Hd1 Hd2].
    exists (x :: l), d1, d2.
    split; [exact Hs|]. split; [discriminate|]. split; [exact H1|].
    split; [exact H2|]. rewrite !forallb_app.
    apply andb_true_iff; split; [exact Hl|].
    apply andb_true_iff; split; [exact Hd1 | exact Hd2].
  - intros (l & d1 & d2 & -> & Hl & H1 & H2 & Hall).
    rewrite !forallb_app in Hall. apply andb_true_iff in Hall as [Al Ad].
    apply andb_true_iff in Ad as [A1 A2].
    destruct (takeAddrChars_app l ([64] ++ d1 ++ [46] ++ d2) Al) as [-> ->];
      [reflexivity|].
    destruct l as [|x l]; [contradiction|]. simpl.
    unfold domainMatches. apply andb_true_iff. split.
    + rewrite forallb_app. apply andb_true_iff; split; [exact A1 | exact A2].
    + apply inner_dot. exists d1, d2. auto.
Qed.

(** The two setters of the path commute: the order in which Mongoose runs
    them does not matter. *)
Lemma trim_ends (v : jsstring) :
  trim v = []
  \/ ((exists h t, trim v = h :: t /\ isWhiteSpace h = false)
      /\ (exists t c, trim v = t ++ [c] /\ isWhiteSpace c = false)).
Proof.
  unfold trim, trimEnd.
  pose proof (trimStart_head (rev (trimStart v))) as L.
  destruct (trimStart_split (rev (trimStart v))) as (w & Hw & Hr).
  destruct (trimStart (rev (trimStart v))) as [|c r] eqn:E; [now left|].
  right. split.
  - pose proof (trimStart_head v) as F.
    assert (Hs : trimStart v = rev (c :: r) ++ rev w).
    { rewrite <- rev_app_distr, <- Hr. now rewrite rev_involutive. }
    destruct (rev (c :: r)) as [|h t] eqn:R.
    + apply (f_equal (@List.length N)) in R. rewrite length_rev in R.
      discriminate.
    + rewrite Hs in F. simpl in F. eauto.
  - exists (rev r), c. simpl. auto.
Qed.

Lemma toLowerCase_ws (w : jsstring) :
  allWhiteSpace w = true -> toLowerCase w = w.
Proof.
  induction w as [|c w IH]; simpl; [reflexivity|].
  rewrite andb_true_iff. intros [Hc Hw]. rewrite (IH Hw).
  unfold lowerUnit. unfold isWhiteSpace in Hc. split_cmp; reflexivity.
Qed.

Lemma lowerUnit_not_space (c : code_unit) :
  isWhiteSpace c = false ->
  (exists h t, lowerUnit c = h :: t /\ isWhiteSpace h = false)
  /\ (exists t z, lowerUnit c = t ++ [z] /\ isWhiteSpace z = false).
Proof.
  intros H. unfold lowerUnit.
  destruct ((65 <=? c) && (c <=? 90)) eqn:U.
  - assert (W : isWhiteSpace (c + 32) = false).
    { unfold isWhiteSpace. apply andb_true_iff in U as [A B].
      apply N.leb_le in A, B. split_cmp; reflexivity. }
    split; [exists (c + 32), [] | exists [], (c + 32)]; auto.
  - destruct (c =? 304); [|destruct (c =? 8490)].
    + split; [exists 105, [775] | exists [105], 775]; auto.
    + split; [exists 107, [] | exists [], 107]; auto.
    + split; [exists c, [] | exists [], c]; auto.
Qed.

Lemma trim_ws (w : jsstring) : allWhiteSpace w = true -> trim w = [].
Proof.
  intros H. unfold trim. apply trimStart_nil in H. now rewrite H.
Qed.

Lemma setters_commute (v : jsstring) :
  trim (toLowerCase v) = toLowerCase (trim v).
Proof.
  destruct (trim_split v) as (u & w & Hu & Hw & Hv).
  rewrite Hv at 1. unfold toLowerCase at 1. rewrite !flat_map_app.
  fold (toLowerCase u). fold (toLowerCase (trim v)). fold (toLowerCase w).
  rewrite (toLowerCase_ws u Hu), (toLowerCase_ws w Hw).
  destruct (trim_ends v) as [E | [(h & t & E1 & Hh) (t' & c & E2 & Hc)]].
  - rewrite E. simpl. apply trim_ws. now apply allWhiteSpace_app.
  - destruct (lowerUnit_not_space h Hh) as [(h' & r & L1 & W1) _].
    destruct (lowerUnit_not_space c Hc) as [_ (r' & z & L2 & W2)].
    apply (trim_core u w (r ++ toLowerCase t) h' z Hu Hw W1 W2).
    + rewrite E1. simpl. fold (toLowerCase t). now rewrite L1.
    + exists (toLowerCase t' ++ r'). rewrite E2. unfold toLowerCase.
      rewrite flat_map_app. simpl. rewrite app_nil_r, L2.
      now rewrite app_assoc.
Qed.

(** C7, as stated, fails: [a@b.] has exactly one [@], a character that is
    not white space on each side of it (no white space at all, indeed) and
    a dot after the [@], and the validator rejects it, because the
    expression wants a character after the dot. *)
Lemma email_listed_but_rejected :
  listedEmailPattern (emailSetters (js "a@b.")) = true
  /\ validateEmail (emailSetters (js "a@b.")) = Some (js "email is invalid").
Proof. split; reflexivity. Qed.

(** C7 (amended).  The email is trimmed and lower-cased; the validation
    then accepts exactly the strings made of a local part, one [@] and a
    domain, where no character of the local part or the domain is white
    space or [@], the local part is not empty, and the domain has a dot
    with at least one character before it and one after it.  An empty
    value fails the [required] validator; every other string that is not
    accepted is rejected with 'email is invalid'. *)
Theorem email_validation_accepts (v : jsstring) :
  emailSetters v = toLowerCase (trim v)
  /\ (validateEmail (emailSetters v) = None <-> EmailShape (emailSetters v))
  /\ (emailSetters v = [] ->
      validateEmail (emailSetters v) = Some (js "Path `email` is required."))
  /\ (emailSetters v <> [] -> ~ EmailShape (emailSetters v) ->
      validateEmail (emailSetters v) = Some (js "email is invalid")).
Proof.
  split; [reflexivity|].
  set (s := emailSetters v). unfold validateEmail.
  pose proof (emailRegex_test_spec s) as E.
  destruct s as [|c r]; simpl.
  - repeat split; try discriminate; try contradiction.
    intros (l & d1 & d2 & H & Hl & _). destruct l; [contradiction|discriminate].
  - destruct (emailRegex_test (c :: r)).
    + repeat split; try discriminate; tauto.
    + repeat split; try discriminate.
      intros H. apply E in H. discriminate.
Qed.

(** ** Bookings *)

Section Bookings.

Variable castObjectId : jsstring -> ObjectId + jsstring.

Local Abbreviation create := (Booking_create castObjectId).

(** [Booking.create] either fails and leaves the store as it is, or
    appends the record. *)
Lemma Booking_create_cases (f : Faults) (d : Database) (input : BookingInput) :
  (exists e, create f d input = (d, Throw e))
  \/ (exists id,
        castObjectId (input_eventId input) = inl id
        /\ create f d input
           = ({| events := events d;
                 bookings := bookings d
                   ++ [ {| eventId := id;
                           email := emailSetters (input_email input) |} ] |},
              Ok {| eventId := id;
                    email := emailSetters (input_email input) |})).
Proof.
  unfold Booking_create, BookingSchema_pre_save, Event_exists, Booking_insert,
    storeOp, bind.
  destruct (castObjectId (input_eventId input)) as [id|m] eqn:C;
    [|left; eauto].
  destruct (validationErrors castObjectId input); [|left; eauto].
  destruct (onExists f); [left; eauto|].
  destruct (existsb _ (events d)); simpl; [|left; eauto].
  destruct (onInsert f); [left; eauto|].
  right. exists id. auto.
Qed.

(** When it succeeds. *)
Lemma Booking_create_ok (f : Faults) (d : Database) (input : BookingInput) :
  isOk (snd (create f d input)) = true <->
  validationErrors castObjectId input = [] /\ onExists f = None
  /\ eventMissing castObjectId d input = false /\ onInsert f = None.
Proof.
  unfold Booking_create, BookingSchema_pre_save, Event_exists, Booking_insert,
    storeOp, bind, eventMissing, validationErrors.
  destruct (castObjectId (input_eventId input)) as [id|m] eqn:C; simpl.
  - destruct (validateEmail (emailSetters (input_email input))); simpl;
      [split; [discriminate | intros (? & _); discriminate]|].
    destruct (onExists f); simpl;
      [split; [discriminate | intros (_ & ? & _); discriminate]|].
    destruct (existsb _ (events d)); simpl;
      [|split; [discriminate | intros (_ & _ & ? & _); discriminate]].
    destruct (onInsert f); simpl;
      [split; [discriminate | intros (_ & _ & _ & ?); discriminate]|].
    tauto.
  - split; [discriminate | intros (? & _); discriminate].
Qed.

(** With a valid input and a store that answers, a missing event is what
    the hook reports. *)
Lemma Booking_create_missing (f : Faults) (d : Database) (input : BookingInput) :
  eventMissing castObjectId d input = true ->
  validationErrors castObjectId input = [] -> onExists f = None ->
  create f d input = (d, Throw (Error (js "Referenced event does not exist"))).
Proof.
  unfold Booking_create, BookingSchema_pre_save, Event_exists, storeOp, bind,
    eventMissing.
  intros M V E. rewrite V, E.
  destruct (castObjectId (input_eventId input)) as [id|m] eqn:C.
  - simpl. rewrite M. reflexivity.
  - unfold validationErrors in V. rewrite C in V. discriminate.
Qed.

Local Abbreviation book := (createBooking castObjectId).

Lemma createBooking_unfold (w : World) (srv : Server) (input : BookingInput) :
  book w srv input
  = match snd (connectToDatabase (connectAttempt w) (mongo srv)) with
    | Throw e =>
        ({| mongo := fst (connectToDatabase (connectAttempt w) (mongo srv));
            db := db srv |}, Throw e)
    | Ok _ =>
        ({| mongo := fst (connectToDatabase (connectAttempt w) (mongo srv));
            db := fst (create (faults w) (db srv) input) |},
         match snd (create (faults w) (db srv) input) with
         | Throw e => Throw e
         | Ok _ => Ok {| success := true |}
         end)
    end.
Proof.
  unfold createBooking.
  destruct (connectToDatabase (connectAttempt w) (mongo srv)) as [rt [m|e]];
    simpl; [|reflexivity].
  destruct (create (faults w) (db srv) input) as [d' r]. reflexivity.
Qed.

(** C1 (amended).  When the event a booking refers to is not in the Event
    store, [createBooking] fails and writes nothing: the Booking collection
    (and the whole store) is the same after the call as before.  The error
    is 'Referenced event does not exist' when the call gets as far as the
    hook, that is when the connection is there, the input passes the schema
    validation and the store answers the existence query; a failure before
    that is reported instead (a validation error, say). *)
Theorem createBooking_missing_event (w : World) (srv : Server)
  (input : BookingInput) :
  eventMissing castObjectId (db srv) input = true ->
  exists e,
    snd (book w srv input) = Throw e
    /\ db (fst (book w srv input)) = db srv
    /\ bookings (db (fst (book w srv input))) = bookings (db srv)
    /\ List.length (bookings (db (fst (book w srv input))))
       = List.length (bookings (db srv))
    /\ (connects w srv = true ->
        validationErrors castObjectId input = [] ->
        onExists (faults w) = None ->
        e = Error (js "Referenced event does not exist")).
Proof.
  intros M. rewrite createBooking_unfold. unfold connects.
  destruct (snd (connectToDatabase (connectAttempt w) (mongo srv))) as [m|e].
  - destruct (Booking_create_cases (faults w) (db srv) input)
      as [[e He] | (id & _ & He)].
    + rewrite He. simpl. exists e. repeat split.
      intros _ V X.
      rewrite (Booking_create_missing (faults w) (db srv) input M V X) in He.
      now injection He as <-.
    + assert (O : isOk (snd (create (faults w) (db srv) input)) = true)
        by now rewrite He.
      apply Booking_create_ok in O as (_ & _ & O & _). congruence.
  - simpl. exists e. repeat split. discriminate.
Qed.

(** C8 (amended).  [createBooking] connects, runs [Booking.create]
    (validation, existence check, write) and returns [{success: true}]; it
    never returns [{success: false}].  It returns exactly when the
    connection is there, the input is valid, the event exists and the
    store does not fail, and one Booking record has then been appended.  In
    every other case the exception leaves the function (the handler that
    would turn it into [{success: false}] is commented out) and the store
    is unchanged. *)
Theorem createBooking_outcomes (w : World) (srv : Server)
  (input : BookingInput) :
  (forall b, snd (book w srv input) = Ok {| success := b |} -> b = true)
  /\ (isOk (snd (book w srv input)) = true <->
      connects w srv = true
      /\ validationErrors castObjectId input = []
      /\ onExists (faults w) = None
      /\ eventMissing castObjectId (db srv) input = false
      /\ onInsert (faults w) = None)
  /\ (isOk (snd (book w srv input)) = true ->
      exists id,
        castObjectId (input_eventId input) = inl id
        /\ bookings (db (fst (book w srv input)))
           = bookings (db srv)
             ++ [ {| eventId := id;
                     email := emailSetters (input_email input) |} ])
  /\ (forall e, snd (book w srv input) = Throw e ->
      db (fst (book w srv input)) = db srv).
Proof.
  rewrite createBooking_unfold. unfold connects.
  pose proof (Booking_create_ok (faults w) (db srv) input) as O.
  destruct (snd (connectToDatabase (connectAttempt w) (mongo srv))) as [m|e];
    simpl.
  - destruct (Booking_create_cases (faults w) (db srv) input)
      as [[e He] | (id & C & He)]; rewrite He in *; simpl in *.
    + repeat split; try discriminate; tauto.
    + repeat split; try tauto.
      * intros b H. now injection H as <-.
      * intros _. eauto.
      * discriminate.
  - repeat split; try discriminate. intros (H & _). discriminate.
Qed.

End Bookings.

Lemma createBooking_missing_event_witness :
  eventMissing castHex24 (db sampleServer) orphanBooking = true
  /\ exists e,
       snd (createBooking castHex24 calmWorld sampleServer orphanBooking)
       = Throw e
       /\ db (fst (createBooking castHex24 calmWorld sampleServer
                     orphanBooking))
          = db sampleServer
       /\ e = Error (js "Referenced event does not exist").
Proof.
  split; [reflexivity|].
  destruct (createBooking_missing_event castHex24 calmWorld sampleServer
              orphanBooking eq_refl)
    as (e & He & Hdb & _ & _ & Hhook).
  exists e. split; [exact He|]. split; [exact Hdb|].
  apply Hhook; reflexivity.
Defined.

(** C1, as stated, fails: with an email that is not valid, the save of a
    booking for an event that is not stored fails in the schema validation,
    which runs before the hook, and the error is 'email is invalid'. *)
Lemma createBooking_missing_event_invalid_email :
  eventMissing castHex24 (db sampleServer) orphanBadEmailBooking = true
  /\ snd (createBooking castHex24 calmWorld sampleServer
            orphanBadEmailBooking)
     = Throw (ValidationError [(js "email", js "email is invalid")]).
Proof. split; vm_compute; reflexivity. Qed.

(** C8, as stated, fails: a booking for an event that is not stored makes
    [createBooking] throw; no [{success: false}] is returned. *)
Lemma createBooking_throws :
  snd (createBooking castHex24 calmWorld sampleServer orphanBooking)
  = Throw (Error (js "Referenced event does not exist"))
  /\ forall b,
       snd (createBooking castHex24 calmWorld sampleServer orphanBooking)
       <> Ok {| success := b |}.
Proof.
  assert (E : snd (createBooking castHex24 calmWorld sampleServer
                     orphanBooking)
              = Throw (Error (js "Referenced event does not exist")))
    by (vm_compute; reflexivity).
  split; [exact E | rewrite E; discriminate].
Qed.

(** A booking for the stored event succeeds: the record is appended with
    its email trimmed and in lower case. *)
Lemma createBooking_success :
  snd (createBooking castHex24 calmWorld sampleServer goodBooking)
  = Ok {| success := true |}
  /\ bookings (db (fst (createBooking castHex24 calmWorld sampleServer
                          goodBooking)))
     = bookings (db sampleServer)
       ++ [ {| eventId := storedEventId; email := js "bob@example.com" |} ].
Proof. split; vm_compute; reflexivity. Qed.

(** ** GET /api/events/[slug] *)

(** Closes the clauses of the response theorem once the handler has been
    run on a case. *)
Ltac GET_case :=
  repeat split; intros;
  repeat match goal with
         | H : Some _ = Some _ |- _ => injection H as <-
         | H : _ \/ _ |- _ => destruct H
         | H : find _ _ = _ |- _ => rewrite H
         end;
  try discriminate; try reflexivity; try congruence.

Local Arguments slugAcceptable : simpl never.

Lemma GET_guard (s : jsstring) :
  isEmpty s || negb (Route.isValidSlug (Some s))
  = negb (slugAcceptable (Some s)).
Proof.
  destruct s as [|c r]; [reflexivity|].
  unfold Route.isValidSlug, slugAcceptable. simpl isEmpty. simpl orb.
  destruct (Nat.eqb_spec (List.length (trim (c :: r))) 0),
    (Nat.ltb_spec 200 (List.length (trim (c :: r)))),
    (Nat.leb_spec 1 (List.length (trim (c :: r)))),
    (Nat.leb_spec (List.length (trim (c :: r))) 200);
    simpl; try reflexivity; lia.
Qed.

(** C9.  The response of the GET handler, for every request.  The body
    says [success: true] exactly with status 200.  When the parameters
    resolve, the status is 400 (with code BAD_REQUEST) exactly
    when the slug is missing or its trimmed length is not between 1 and
    200.  With a valid slug the response is 404 with NOT_FOUND when the
    connection and the query succeed and no Event has that slug, 200 with
    the event as data when one has, and 500 with INTERNAL_ERROR when the
    connection or the query fails; a rejected parameter promise gives 500
    as well. *)
Theorem GET_responses (w : World) (srv : Server)
  (params : result (option Route.RouteParams)) :
  let r := snd (Route.GET w srv params) in
  (Route.successOf (Route.body r) = true <-> Route.status r = 200%Z)
  /\ (forall e, params = Throw e ->
     r = {| Route.status := 500;
            Route.body := Route.ErrorResponse (js "Unexpected server error.")
                            Route.INTERNAL_ERROR |})
  /\ (forall ps, params = Ok ps ->
      (Route.status r = 400%Z <-> slugAcceptable (slugOf ps) = false)
      /\ (slugAcceptable (slugOf ps) = false ->
          r = {| Route.status := 400;
                 Route.body :=
                   Route.ErrorResponse
                     (js "A valid slug path parameter is required.")
                     Route.BAD_REQUEST |})
      /\ (forall s, slugOf ps = Some s -> slugAcceptable (Some s) = true ->
          (connects w srv = true -> onFindOne (faults w) = None ->
           match find (slugIs s) (events (db srv)) with
           | None =>
               r = {| Route.status := 404;
                      Route.body := Route.ErrorResponse (js "Event not found.")
                                      Route.NOT_FOUND |}
           | Some event =>
               r = {| Route.status := 200;
                      Route.body := Route.EventResponse event |}
           end)
          /\ (connects w srv = false \/ onFindOne (faults w) <> None ->
              r = {| Route.status := 500;
                     Route.body :=
                       Route.ErrorResponse (js "Unexpected server error.")
                         Route.INTERNAL_ERROR |}))).
Proof.
  intros r. subst r. split; [|split].
  - unfold Route.GET, Event_findOne, storeOp.
    assert (N : forall x : Server * Route.Response,
                  Route.successOf (Route.body (snd x)) = false ->
                  Route.status (snd x) <> 200%Z ->
                  Route.successOf (Route.body (snd x)) = true
                  <-> Route.status (snd x) = 200%Z).
    { intros x F H. rewrite F. split; [discriminate | intros E; now elim H]. }
    destruct params as [[[[s|]]|]|]; try (apply N; [reflexivity|discriminate]).
    cbv beta iota delta [Route.slug].
    destruct (isEmpty s || negb (Route.isValidSlug (Some s)));
      [apply N; [reflexivity|discriminate]|].
    destruct (connectToDatabase (connectAttempt w) (mongo srv))
      as [rt [m|e]]; [|apply N; [reflexivity|discriminate]].
    destruct (onFindOne (faults w)); [apply N; [reflexivity|discriminate]|].
    destruct (find (slugIs s) (events (db srv)));
      [simpl; split; reflexivity | apply N; [reflexivity|discriminate]].
  - intros e ->. reflexivity.
  - intros ps ->. unfold Route.GET. fold (slugOf ps).
    destruct (slugOf ps) as [s|]; [|GET_case].
    rewrite GET_guard. unfold connects, Event_findOne, storeOp.
    destruct (slugAcceptable (Some s)) eqn:A; simpl negb; cbv iota;
      [|GET_case].
    destruct (connectToDatabase (connectAttempt w) (mongo srv))
      as [rt [m|e]]; simpl; [|GET_case].
    destruct (onFindOne (faults w)) as [e|]; simpl; [GET_case|].
    destruct (find (slugIs s) (events (db srv))) as [ev|] eqn:F; simpl;
      GET_case.
Qed.

(** ** The connection manager *)

Local Open Scope nat_scope.

(** A rejected attempt leaves the cache as it is: the [await] of line 63
    throws before [cached.conn] is assigned, and nothing resets
    [cached.promise]. *)
Lemma connectToDatabase_resume_rejected (rt : Runtime) (e : exn) :
  connectToDatabase_resume rt (Rejected e) = (rt, Throw e).
Proof. reflexivity. Qed.

(** Once the cache holds a rejected promise, every call awaits that
    promise: no new attempt is started, and the call fails with the old
    error. *)
Lemma connectToDatabase_stuck (rt : Runtime) (p : PromiseId) (e : exn)
  (attempt : settled) :
  cached rt = {| conn := None; promise := Some p |} ->
  lookupPromise (settledPromises rt) p = Some (Rejected e) ->
  connectToDatabase attempt rt = (rt, Throw e).
Proof.
  intros C L. unfold connectToDatabase, connectToDatabase_enter, settle.
  rewrite C. simpl. rewrite L. reflexivity.
Qed.

Lemma disconnectFromDatabase_stuck (rt : Runtime) (p : PromiseId)
  (failure : option exn) :
  cached rt = {| conn := None; promise := Some p |} ->
  disconnectFromDatabase failure rt = (rt, Ok tt).
Proof. intros C. unfold disconnectFromDatabase. now rewrite C. Qed.

(** In the system of several callers, no step other than a disconnect
    ever clears the cached promise. *)
Lemma step_keeps_promise (s s' : System) (a : action) (p : PromiseId) :
  step s a = Some s' -> a <> Disconnect ->
  promise (cached (runtime s)) = Some p ->
  promise (cached (runtime s')) = Some p.
Proof.
  destruct a as [c|q o|c|]; simpl; intros H Ha Hp; [| | |now elim Ha].
  - unfold connectToDatabase_enter in H.
    destruct (conn (cached (runtime s))); [|rewrite Hp in H];
      injection H as <-; exact Hp.
  - injection H as <-. simpl. unfold settle.
    destruct (lookupPromise (settledPromises (runtime s)) q); exact Hp.
  - destruct (waitingFor (waiting s) c) as [q|]; [|discriminate].
    destruct (lookupPromise (settledPromises (runtime s)) q) as [[m|e]|];
      [| |discriminate]; injection H as <-; exact Hp.
Qed.

(** Every caller that waits for a rejected attempt gets its error when it
    is resumed, and the resumption changes nothing in the cache. *)
Lemma rejected_attempt_reaches_waiter (s : System) (c : nat) (p : PromiseId)
  (e : exn) :
  waitingFor (waiting s) c = Some p ->
  lookupPromise (settledPromises (runtime s)) p = Some (Rejected e) ->
  step s (Resume c)
  = Some {| runtime := runtime s;
            waiting := removeWaiter (waiting s) c;
            outcomes := outcomes s ++ [(c, Throw e)] |}.
Proof. intros W L. simpl. now rewrite W, L. Qed.

(** C2, on the code.  Two callers await the first connection attempt, and
    the attempt fails with [e].  Both callers get the error; but the cache
    keeps the rejected promise ([promise] is not reset, the state is not
    UNINITIALIZED), so a third call starts no new attempt
    ([mongoose.connect] has been called once in all) and fails with the
    same error. *)
Theorem connect_failure_stays_cached (e : exn) :
  exists s,
    run start [Call 1; Call 2; Settle 0 (Rejected e); Resume 1; Resume 2;
               Call 3; Resume 3] = Some s
    /\ outcomes s = [(1, Throw e); (2, Throw e); (3, Throw e)]
    /\ cached (runtime s) = {| conn := None; promise := Some 0%nat |}
    /\ isUninitialized (runtime s) = false
    /\ connectCalls (runtime s) = 1%nat
    /\ forall attempt,
         connectToDatabase attempt (runtime s) = (runtime s, Throw e).
Proof.
  eexists. split; [reflexivity|]. simpl. repeat split.
Qed.

(** The paths of the state machine that the code does follow: a successful
    attempt is cached and shared, and [disconnectFromDatabase] resets the
    cache. *)
Lemma connect_success_is_shared (m : Mongoose) :
  exists s,
    run start [Call 1; Call 2; Settle 0 (Fulfilled m); Resume 1; Resume 2;
               Call 3; Disconnect] = Some s
    /\ outcomes s = [(1, Ok m); (2, Ok m); (3, Ok m)]
    /\ connectCalls (runtime s) = 1%nat
    /\ isUninitialized (runtime s) = true.
Proof.
  eexists. split; [reflexivity|]. simpl. repeat split.
Qed.

(** ** normalizeDate *)

Local Open Scope Z_scope.

(** Case analysis on the integer comparisons of a goal. *)
Ltac split_Zcmp :=
  repeat match goal with
         | |- context [Z.eqb ?a ?b] => destruct (Z.eqb_spec a b)
         | |- context [Z.leb ?a ?b] => destruct (Z.leb_spec a b)
         | |- context [Z.ltb ?a ?b] => destruct (Z.ltb_spec a b)
         end.

(** The civil date of a day number is a date of the calendar, and it has
    that day number. *)
Lemma civil_days (n : Z) :
  match civilFromDays n with
  | (y, m, d) =>
      daysFromCivil y m d = n /\ 1 <= m <= 12 /\ 1 <= d <= daysInMonth y m
  end.
Proof.
  unfold civilFromDays, daysFromCivil.
  set (z := n + 719468).
  set (era := z / 146097).
  set (doe := z - era * 146097).
  assert (Hn : n = era * 146097 + doe - 719468) by (subst doe z; lia).
  assert (Hdoe : 0 <= doe < 146097).
  { subst doe era. pose proof (Z.div_mod z 146097).
    pose proof (Z.mod_pos_bound z 146097). lia. }
  clearbody doe era. clear z.
  set (yoe := (doe - doe / 1460 + doe / 36524 - doe / 146096) / 365).
  assert (Hyoe : 0 <= yoe <= 399) by (subst yoe; Z.div_mod_to_equations; lia).
  set (doy := doe - (365 * yoe + yoe / 4 - yoe / 100)).
  assert (Hdoy : 0 <= doy <= 365)
    by (subst doy yoe; Z.div_mod_to_equations; lia).
  assert (Hleap : doy = 365 -> yoe mod 4 = 3 /\ (yoe mod 100 <> 99 \/ yoe = 399))
    by (subst doy yoe; Z.div_mod_to_equations; lia).
  assert (Hdoe' : doe = yoe * 365 + yoe / 4 - yoe / 100 + doy) by (subst doy; lia).
  clearbody doy yoe.
  set (mp := (5 * doy + 2) / 153).
  assert (Hmp : 153 * mp <= 5 * doy + 2 < 153 * (mp + 1))
    by (subst mp; Z.div_mod_to_equations; lia).
  clearbody mp.
  set (d := doy - (153 * mp + 2) / 5 + 1).
  assert (Hera : (yoe + era * 400) / 400 = era) by (Z.div_mod_to_equations; lia).
  assert (Hd : 1 <= d <= 31) by (subst d; Z.div_mod_to_equations; lia).
  assert (Hdoy' : doy = (153 * mp + 2) / 5 + d - 1) by (subst d; lia).
  assert (Hfeb : mp = 11 -> d <= 29 /\ (d = 29 -> doy = 365))
    by (subst d; Z.div_mod_to_equations; lia).
  assert (H30 : mp = 1 \/ mp = 3 \/ mp = 6 \/ mp = 8 -> d <= 30)
    by (subst d; Z.div_mod_to_equations; lia).
  clearbody d.
  destruct (Z.ltb_spec mp 10) as [L|L].
  - replace (mp + 3 <=? 2) with false by (symmetry; apply Z.leb_gt; lia).
    rewrite Hera.
    replace (yoe + era * 400 - era * 400) with yoe by lia.
    replace (mp + 3 - 3) with mp by lia.
    split; [lia|]. split; [lia|].
    unfold daysInMonth. split_Zcmp; simpl; lia.
  - replace (mp - 9 <=? 2) with true by (symmetry; apply Z.leb_le; lia).
    replace (yoe + era * 400 + 1 - 1) with (yoe + era * 400) by lia.
    rewrite Hera.
    replace (yoe + era * 400 - era * 400) with yoe by lia.
    replace (mp - 9 + 9) with mp by lia.
    split; [lia|]. split; [lia|].
    unfold daysInMonth, isLeapYear. 
    split_Zcmp; simpl; try lia; Z.div_mod_to_equations; lia.
Qed.


(** The decimal digits of the numbers of four digits and of two. *)
Lemma digitsFuel_step (f : nat) (n : N) (acc : jsstring) :
  digitsFuel (S f) n acc
  = if (n / 10 =? 0)%N then (48 + n mod 10)%N :: acc
    else digitsFuel f (n / 10) ((48 + n mod 10)%N :: acc).
Proof. reflexivity. Qed.

Lemma N_div_bounds (n b lo hi : N) :
  (b <> 0 -> b * lo <= n -> n < b * (hi + 1) -> lo <= n / b <= hi)%N.
Proof.
  intros Hb Hlo Hhi. split.
  - now apply N.div_le_lower_bound.
  - apply N.lt_succ_r. rewrite <- N.add_1_r. now apply N.Div0.div_lt_upper_bound.
Qed.

Lemma decimal_four_digits (n : N) :
  (1000 <= n <= 9999)%N ->
  decimal n = [48 + n / 1000; 48 + (n / 100) mod 10; 48 + (n / 10) mod 10;
               48 + n mod 10]%N.
Proof.
  intros H. unfold decimal.
  assert (L : exists f, N.to_nat (N.log2 n) = S (S (S f))).
  { assert (9 <= N.log2 n)%N.
    { change 9%N with (N.log2 512). apply N.log2_le_mono. lia. }
    exists (N.to_nat (N.log2 n) - 3)%nat. lia. }
  destruct L as [f ->].
  rewrite !digitsFuel_step, !N.Div0.div_div. simpl N.mul.
  pose proof (N_div_bounds n 10 100 999 ltac:(lia) ltac:(lia) ltac:(lia)).
  pose proof (N_div_bounds n 100 10 99 ltac:(lia) ltac:(lia) ltac:(lia)).
  pose proof (N_div_bounds n 1000 1 9 ltac:(lia) ltac:(lia) ltac:(lia)).
  pose proof (N_div_bounds n 10000 0 0 ltac:(lia) ltac:(lia) ltac:(lia)).
  replace (n / 10 =? 0)%N with false by (symmetry; apply N.eqb_neq; lia).
  replace (n / 100 =? 0)%N with false by (symmetry; apply N.eqb_neq; lia).
  replace (n / 1000 =? 0)%N with false by (symmetry; apply N.eqb_neq; lia).
  replace (n / 10000 =? 0)%N with true by (symmetry; apply N.eqb_eq; lia).
  rewrite (N.mod_small (n / 1000) 10) by lia. reflexivity.
Qed.

Lemma isDigit_offset (k : N) : (k <= 9)%N -> isDigit (48 + k) = true.
Proof.
  intros H. unfold isDigit. apply andb_true_iff. split; apply N.leb_le; lia.
Qed.

Lemma decimal_four_digits_parse (n : N) :
  (1000 <= n <= 9999)%N ->
  exists a b c d,
    decimal n = [a; b; c; d]
    /\ forallb isDigit [a; b; c; d] = true
    /\ parseInt10 [a; b; c; d] = Z.of_N n.
Proof.
  intros H. rewrite (decimal_four_digits n H).
  pose proof (N_div_bounds n 1000 1 9 ltac:(lia) ltac:(lia) ltac:(lia)).
  pose proof (N.mod_lt (n / 100) 10 ltac:(lia)).
  pose proof (N.mod_lt (n / 10) 10 ltac:(lia)).
  pose proof (N.mod_lt n 10 ltac:(lia)).
  do 4 eexists. split; [reflexivity|]. split.
  - cbn [forallb]. rewrite !isDigit_offset by lia. reflexivity.
  - unfold parseInt10. cbn [parseDigits].
    pose proof (N.div_mod n 10 ltac:(lia)) as E1.
    pose proof (N.div_mod (n / 10) 10 ltac:(lia)) as E2.
    pose proof (N.div_mod (n / 100) 10 ltac:(lia)) as E3.
    rewrite N.Div0.div_div in E2. rewrite N.Div0.div_div in E3.
    change (10 * 10)%N with 100%N in E2. change (100 * 10)%N with 1000%N in E3.
    lia.
Qed.

Lemma two_digits_parse (k : Z) :
  0 <= k <= 59 ->
  exists a b,
    padStart2 (numberToString k) = [a; b]
    /\ forallb isDigit [a; b] = true
    /\ parseInt10 [a; b] = k.
Proof.
  intros H. rewrite (padStart2_clock k H).
  assert (A : 0 <= k / 10 <= 9) by (Z.div_mod_to_equations; lia).
  assert (B : 0 <= k mod 10 <= 9) by (Z.div_mod_to_equations; lia).
  assert (E : k = 10 * (k / 10) + k mod 10) by (Z.div_mod_to_equations; lia).
  do 2 eexists. split; [reflexivity|]. split.
  - cbn [forallb].
    replace (Z.to_N (48 + k / 10)) with (48 + Z.to_N (k / 10))%N by lia.
    replace (Z.to_N (48 + k mod 10)) with (48 + Z.to_N (k mod 10))%N by lia.
    rewrite !isDigit_offset by lia. reflexivity.
  - unfold parseInt10. cbn [parseDigits]. lia.
Qed.

Section NormalizeDate.

Variable engineParse : jsstring -> option Z.

(** [normalizeDate] fails exactly on an invalid date, with 'date is
    invalid'. *)
Lemma normalizeDate_fails (value : DateInput) :
  (timeValue engineParse value = None <->
   normalizeDate engineParse value = Throw (Error (js "date is invalid")))
  /\ (forall e, normalizeDate engineParse value = Throw e ->
      e = Error (js "date is invalid")).
Proof.
  unfold normalizeDate, timeValue.
  destruct (match value with
            | DateString s => dateParse engineParse s
            | DateObject t => t
            end) as [t|].
  - destruct (civilFromDays (t / msPerDay)) as [[y m] d].
    repeat split; discriminate.
  - repeat split; auto. intros e H. now injection H as <-.
Qed.

(** When the UTC year of the date has four digits, the result has the form
    [YYYY-MM-DD] and [normalizeDate] returns it unchanged: on these dates
    the function is idempotent. *)
Lemma normalizeDate_fixed_output (value : DateInput) (t : Z) (out : jsstring) :
  timeValue engineParse value = Some t ->
  1000 <= fst (fst (civilFromDays (t / msPerDay))) <= 9999 ->
  normalizeDate engineParse value = Ok out ->
  isYearMonthDay out = true
  /\ normalizeDate engineParse (DateString out) = Ok out.
Proof.
  intros T Y. unfold normalizeDate at 1. unfold timeValue in T. rewrite T.
  pose proof (civil_days (t / msPerDay)) as C.
  destruct (civilFromDays (t / msPerDay)) as [[y m] d] eqn:E.
  simpl in Y. destruct C as (D & Hm & Hd).
  assert (Hd31 : 1 <= d <= 31).
  { split; [lia|]. unfold daysInMonth in Hd.
    destruct (m =? 2); [destruct (isLeapYear y)|];
      try destruct ((m =? 4) || (m =? 6) || (m =? 9) || (m =? 11))%bool; lia. }
  destruct (decimal_four_digits_parse (Z.to_N y) ltac:(lia))
    as (y1 & y2 & y3 & y4 & Ny & Dy & Py).
  assert (Ny' : numberToString y = [y1; y2; y3; y4]).
  { unfold numberToString.
    replace (y <? 0) with false by (symmetry; apply Z.ltb_ge; lia). exact Ny. }
  destruct (two_digits_parse m ltac:(lia)) as (m1 & m2 & Nm & Dm & Pm).
  destruct (two_digits_parse d ltac:(lia)) as (d1 & d2 & Nd & Dd & Pd).
  assert (O : numberToString y ++ js "-" ++ padStart2 (numberToString m)
              ++ js "-" ++ padStart2 (numberToString d)
              = [y1; y2; y3; y4; 45%N; m1; m2; 45%N; d1; d2])
    by (rewrite Ny', Nm, Nd; reflexivity).
  rewrite O. intros H. injection H as <-.
  assert (F : forallb isDigit [y1; y2; y3; y4; m1; m2; d1; d2] = true).
  { cbn [forallb] in Dy, Dm, Dd |- *.
    repeat match goal with
           | H : _ && _ = true |- _ => apply andb_true_iff in H; destruct H
           end.
    repeat match goal with
           | H : isDigit _ = true |- _ => rewrite H; clear H
           end.
    reflexivity. }
  split.
  - unfold isYearMonthDay. rewrite F. reflexivity.
  - unfold normalizeDate, dateParse, parseIsoDate. rewrite F.
    simpl andb. cbv iota. rewrite Py, Pm, Pd, Z2N.id by lia.
    replace (1 <=? m) with true by (symmetry; apply Z.leb_le; lia).
    replace (m <=? 12) with true by (symmetry; apply Z.leb_le; lia).
    replace (1 <=? d) with true by (symmetry; apply Z.leb_le; lia).
    replace (d <=? daysInMonth y m) with true by (symmetry; apply Z.leb_le; lia).
    simpl andb. cbv iota. rewrite D.
    rewrite Z.div_mul by (unfold msPerDay; lia). rewrite E, O. reflexivity.
Qed.

(** Examples: ISO dates are returned as they are, and a [Date] object gives
    the UTC day of its time value (here 2025-03-11T00:21:01Z). *)
Lemma normalizeDate_example :
  normalizeDate engineParse (DateString (js "2025-03-10"))
  = Ok (js "2025-03-10")
  /\ normalizeDate engineParse (DateString (js "2024-02-29"))
     = Ok (js "2024-02-29")
  /\ normalizeDate engineParse (DateObject (Some 1741654861000%Z))
     = Ok (js "2025-03-11").
Proof. repeat split. Qed.

(** C5, on the code.  The year is written without padding: the ISO date
    [0099-01-01] (1 January of the year 99) comes out as [99-01-01], which
    is not of the form [YYYY-MM-DD]. *)
Theorem normalizeDate_year_not_padded :
  isYearMonthDay (js "0099-01-01") = true
  /\ normalizeDate engineParse (DateString (js "0099-01-01"))
     = Ok (js "99-01-01")
  /\ isYearMonthDay (js "99-01-01") = false.
Proof. repeat split. Qed.

End NormalizeDate.

(** * Further properties of the code *)

(** ** assertNonEmpty and trim *)

Local Open Scope N_scope.

(** [trim] is idempotent, empties exactly the strings of white space, and
    ignores white space added around a string. *)
Lemma trim_idem (s : jsstring) : trim (trim s) = trim s.
Proof.
  destruct (trim_ends s) as [E | [[h [t [E Hh]]] [t' [c [E' Hc]]]]].
  - rewrite E. reflexivity.
  - pose proof (trim_core [] [] t h c eq_refl eq_refl Hh Hc (trim s) E
                  (ex_intro _ t' E')) as H.
    simpl in H. rewrite app_nil_r in H. exact H.
Qed.

Lemma trim_nil_iff (s : jsstring) : trim s = [] <-> allWhiteSpace s = true.
Proof.
  split.
  - intros E. destruct (trim_split s) as [u [w [Hu [Hw Hs]]]].
    rewrite E in Hs. simpl in Hs. rewrite Hs. apply allWhiteSpace_app; assumption.
  - apply trim_ws.
Qed.

Lemma trim_pad (u w s : jsstring) :
  allWhiteSpace u = true -> allWhiteSpace w = true ->
  trim (u ++ s ++ w) = trim s.
Proof.
  intros Hu Hw.
  destruct (trim_split s) as [u' [w' [Hu' [Hw' Hs]]]].
  assert (E : u ++ s ++ w = (u ++ u') ++ trim s ++ (w' ++ w)).
  { rewrite Hs at 1. rewrite <- !app_assoc. reflexivity. }
  rewrite E.
  destruct (trim_ends s) as [E0 | [[h [t [E1 Hh]]] [t' [c [E2 Hc]]]]].
  - rewrite E0. simpl. apply trim_ws.
    apply allWhiteSpace_app; apply allWhiteSpace_app; assumption.
  - apply (trim_core (u ++ u') (w' ++ w) t h c).
    + apply allWhiteSpace_app; assumption.
    + apply allWhiteSpace_app; assumption.
    + exact Hh.
    + exact Hc.
    + exact E1.
    + exists t'. exact E2.
Qed.

(** X1.  [assertNonEmpty] returns the trimmed value of a string that is not
    all white space, and the result passes the check again unchanged; a
    value that is not a string fails with [<field> must be a string], a
    string of white space only (the empty one included) with [<field> is
    required]. *)
Theorem assertNonEmpty_outcome (value : option jsstring) (field : jsstring) :
  match assertNonEmpty value field with
  | Ok v =>
      exists s, value = Some s /\ v = trim s /\ allWhiteSpace s = false
                /\ assertNonEmpty (Some v) field = Ok v
  | Throw e =>
      (value = None /\ e = Error (field ++ js " must be a string"))
      \/ (exists s, value = Some s /\ allWhiteSpace s = true
                    /\ e = Error (field ++ js " is required"))
  end.
Proof.
  destruct value as [s |]; simpl.
  - destruct (trim s) as [| c r] eqn:E.
    + right. exists s. split; [reflexivity |]. split; [| reflexivity].
      apply trim_nil_iff. exact E.
    + exists s. split; [reflexivity |]. split; [symmetry; exact E |]. split.
      * destruct (allWhiteSpace s) eqn:W; [| reflexivity].
        apply trim_nil_iff in W. congruence.
      * rewrite <- E. rewrite trim_idem. rewrite E. reflexivity.
  - left. split; reflexivity.
Qed.

(** ** slugify, by words *)

(** Hyphenation and the runs of letters and digits. *)
Lemma dropTrailingHyphen_cons (c : code_unit) (x : jsstring) :
  x <> [] -> dropTrailingHyphen (c :: x) = c :: dropTrailingHyphen x.
Proof.
  intros Hx. unfold dropTrailingHyphen. simpl.
  destruct (rev x) as [| y ys] eqn:E.
  - apply (f_equal (@rev _)) in E. rewrite rev_involutive in E. simpl in E.
    contradiction.
  - simpl. destruct (y =? hyphen); rewrite ?rev_app_distr; simpl;
      rewrite ?rev_app_distr; reflexivity.
Qed.

Lemma dropLeadingHyphen_hyphenate (s : jsstring) :
  dropLeadingHyphen (hyphenate false s) = hyphenate true s.
Proof.
  destruct s as [| c r]; simpl; [reflexivity |].
  destruct (isSlugAlnum c) eqn:A; simpl.
  - rewrite (isSlugAlnum_not_hyphen c A). reflexivity.
  - reflexivity.
Qed.

Lemma hyphenate_startsAlnum (s : jsstring) :
  startsAlnum s = true -> hyphenate false s = hyphenate true s.
Proof.
  destruct s as [| c r]; simpl; [discriminate |].
  intros A. rewrite A. reflexivity.
Qed.

Lemma hyphenate_nil_iff (s : jsstring) :
  hyphenate true s = [] <-> alnumRuns s = [].
Proof.
  induction s as [| c r IH]; simpl; [tauto |].
  destruct (isSlugAlnum c).
  - split; intros H; [discriminate H |].
    destruct (startsAlnum r); [destruct (alnumRuns r) |]; discriminate H.
  - exact IH.
Qed.

Lemma hyphenate_words (s : jsstring) :
  dropTrailingHyphen (hyphenate true s) = joinWith hyphen (alnumRuns s).
Proof.
  induction s as [| c r IH]; [reflexivity |].
  cbn [hyphenate alnumRuns].
  destruct (isSlugAlnum c) eqn:A; [| exact IH].
  destruct (startsAlnum r) eqn:S.
  - rewrite (hyphenate_startsAlnum r S).
    destruct r as [| c' r']; [discriminate S |]. simpl in S.
    assert (N : hyphenate true (c' :: r') <> []).
    { simpl. rewrite S. discriminate. }
    rewrite (dropTrailingHyphen_cons c _ N), IH.
    destruct (alnumRuns (c' :: r')) as [| w ws] eqn:E.
    + apply hyphenate_nil_iff in E. contradiction.
    + simpl. destruct ws; reflexivity.
  - destruct r as [| c' r'].
    + simpl. unfold dropTrailingHyphen. simpl.
      rewrite (isSlugAlnum_not_hyphen c A). reflexivity.
    + simpl in S. cbn [hyphenate]. rewrite S.
      change (alnumRuns (c' :: r')) with
        (if isSlugAlnum c' then
           if startsAlnum r' then
             match alnumRuns r' with
             | w :: ws => (c' :: w) :: ws
             | [] => [[c']]
             end
           else [c'] :: alnumRuns r'
         else alnumRuns r') in *.
      rewrite S in *.
      change (hyphenate true (c' :: r')) with
        (if isSlugAlnum c' then c' :: hyphenate false r'
         else hyphenate true r') in IH.
      rewrite S in IH.
      destruct (hyphenate true r') as [| y ys] eqn:E.
      * apply hyphenate_nil_iff in E. rewrite E. reflexivity.
      * rewrite dropTrailingHyphen_cons by discriminate.
        rewrite dropTrailingHyphen_cons by discriminate.
        rewrite IH.
        destruct (alnumRuns r') as [| w ws] eqn:E'.
        -- apply hyphenate_nil_iff in E'. congruence.
        -- reflexivity.
Qed.

Lemma isWhiteSpace_not_alnum (c : code_unit) :
  isWhiteSpace c = true -> isSlugAlnum c = false /\ isQuote c = false.
Proof.
  unfold isWhiteSpace, isSlugAlnum, isQuote. intros H. split; split_cmp.
Qed.

Lemma alnumRuns_no_alnum (w : jsstring) :
  forallb (fun c => negb (isSlugAlnum c)) w = true -> alnumRuns w = [].
Proof.
  induction w as [| c r IH]; simpl; [reflexivity |].
  intros H. apply andb_true_iff in H. destruct H as [H1 H2].
  apply negb_true_iff in H1. rewrite H1. exact (IH H2).
Qed.

Lemma alnumRuns_skip (u s : jsstring) :
  forallb (fun c => negb (isSlugAlnum c)) u = true ->
  alnumRuns (u ++ s) = alnumRuns s.
Proof.
  induction u as [| c r IH]; simpl; [reflexivity |].
  intros H. apply andb_true_iff in H. destruct H as [H1 H2].
  apply negb_true_iff in H1. rewrite H1. exact (IH H2).
Qed.

Lemma alnumRuns_pad (s w : jsstring) :
  forallb (fun c => negb (isSlugAlnum c)) w = true ->
  alnumRuns (s ++ w) = alnumRuns s.
Proof.
  intros Hw. induction s as [| c r IH].
  - simpl. apply alnumRuns_no_alnum. exact Hw.
  - simpl. rewrite IH.
    assert (S : startsAlnum (r ++ w) = startsAlnum r).
    { destruct r as [| c' r']; [| reflexivity]. simpl.
      destruct w as [| x w']; [reflexivity |]. simpl in *.
      apply andb_true_iff in Hw. destruct Hw as [H1 _].
      apply negb_true_iff in H1. exact H1. }
    rewrite S. reflexivity.
Qed.

Lemma allWhiteSpace_no_alnum (w : jsstring) :
  allWhiteSpace w = true ->
  forallb (fun c => negb (isSlugAlnum c)) w = true /\ removeQuotes w = w.
Proof.
  induction w as [| c r IH]; simpl; [split; reflexivity |].
  intros H. apply andb_true_iff in H. destruct H as [H1 H2].
  destruct (isWhiteSpace_not_alnum c H1) as [A Q].
  destruct (IH H2) as [IH1 IH2].
  rewrite A, Q. simpl. rewrite IH1, IH2. split; reflexivity.
Qed.

Lemma removeQuotes_app (a b : jsstring) :
  removeQuotes (a ++ b) = removeQuotes a ++ removeQuotes b.
Proof. unfold removeQuotes. apply filter_app. Qed.

Lemma alnumRuns_trim (x : jsstring) :
  alnumRuns (removeQuotes (trim x)) = alnumRuns (removeQuotes x).
Proof.
  destruct (trim_split x) as [u [w [Hu [Hw Hx]]]].
  destruct (allWhiteSpace_no_alnum u Hu) as [Au Qu].
  destruct (allWhiteSpace_no_alnum w Hw) as [Aw Qw].
  rewrite Hx at 2.
  rewrite !removeQuotes_app, Qu, Qw.
  rewrite (alnumRuns_skip _ _ Au), (alnumRuns_pad _ _ Aw). reflexivity.
Qed.

Lemma slugify_runs (title : jsstring) :
  slugify title
  = joinWith hyphen (alnumRuns (removeQuotes (toLowerCase title))).
Proof.
  unfold slugify, stripEdgeHyphens.
  rewrite dropLeadingHyphen_hyphenate, hyphenate_words, alnumRuns_trim.
  reflexivity.
Qed.

(** The runs are words of letters and digits. *)
Lemma alnumRuns_words (s : jsstring) :
  Forall (fun w => w <> [] /\ forallb isSlugAlnum w = true) (alnumRuns s).
Proof.
  induction s as [| c r IH]; simpl; [constructor |].
  destruct (isSlugAlnum c) eqn:A; [| exact IH].
  destruct (startsAlnum r).
  - destruct (alnumRuns r) as [| w ws].
    + constructor; [| constructor].
      split; [discriminate | simpl; rewrite A; reflexivity].
    + inversion IH as [| x l [_ Hw] Hws]; subst.
      constructor; [| exact Hws].
      split; [discriminate | simpl; rewrite A; exact Hw].
  - constructor; [| exact IH].
    split; [discriminate | simpl; rewrite A; reflexivity].
Qed.

(** X2.  The slug of a title is made of the maximal runs of [a-z0-9] of the
    lower-cased title with its apostrophes and backticks removed, in order,
    with one hyphen between each two runs; each run is a non-empty string
    of characters of [a-z0-9]. *)
Theorem slugify_words (title : jsstring) :
  slugify title
  = joinWith hyphen (alnumRuns (removeQuotes (toLowerCase title)))
  /\ Forall (fun w => w <> [] /\ forallb isSlugAlnum w = true)
       (alnumRuns (removeQuotes (toLowerCase title))).
Proof.
  split; [apply slugify_runs | apply alnumRuns_words].
Qed.

(** No step of [slugify] adds, drops or moves a letter or digit. *)
Lemma filter_alnum_dropLeadingHyphen (s : jsstring) :
  filter isSlugAlnum (dropLeadingHyphen s) = filter isSlugAlnum s.
Proof.
  destruct s as [| c r]; [reflexivity |]. simpl.
  destruct (N.eqb_spec c hyphen) as [-> | _]; reflexivity.
Qed.

Lemma filter_alnum_stripEdgeHyphens (s : jsstring) :
  filter isSlugAlnum (stripEdgeHyphens s) = filter isSlugAlnum s.
Proof.
  unfold stripEdgeHyphens, dropTrailingHyphen.
  rewrite filter_rev, filter_alnum_dropLeadingHyphen, filter_rev,
    rev_involutive.
  apply filter_alnum_dropLeadingHyphen.
Qed.

Lemma filter_alnum_hyphenate (s : jsstring) (b : bool) :
  filter isSlugAlnum (hyphenate b s) = filter isSlugAlnum s.
Proof.
  revert b. induction s as [| c r IH]; intros b; [reflexivity |].
  simpl. destruct (isSlugAlnum c) eqn:A.
  - simpl. rewrite A, IH. reflexivity.
  - destruct b; simpl; apply IH.
Qed.

Lemma isQuote_not_alnum (c : code_unit) :
  isQuote c = true -> isSlugAlnum c = false.
Proof. unfold isQuote, isSlugAlnum. intros H. split_cmp. Qed.

Lemma filter_alnum_removeQuotes (s : jsstring) :
  filter isSlugAlnum (removeQuotes s) = filter isSlugAlnum s.
Proof.
  induction s as [| c r IH]; [reflexivity |]. simpl.
  destruct (isQuote c) eqn:Q; simpl.
  - rewrite (isQuote_not_alnum c Q). exact IH.
  - rewrite IH. reflexivity.
Qed.

Lemma filter_alnum_ws (w : jsstring) :
  allWhiteSpace w = true -> filter isSlugAlnum w = [].
Proof.
  induction w as [| c r IH]; [reflexivity |]. simpl. intros H.
  apply andb_true_iff in H. destruct H as [H1 H2].
  destruct (isWhiteSpace_not_alnum c H1) as [A _]. rewrite A. exact (IH H2).
Qed.

Lemma filter_alnum_trim (s : jsstring) :
  filter isSlugAlnum (trim s) = filter isSlugAlnum s.
Proof.
  destruct (trim_split s) as [u [w [Hu [Hw Hs]]]].
  rewrite Hs at 2.
  rewrite !filter_app, (filter_alnum_ws u Hu), (filter_alnum_ws w Hw),
    app_nil_r.
  reflexivity.
Qed.

Lemma filter_alnum_slugify (title : jsstring) :
  filter isSlugAlnum (slugify title) = filter isSlugAlnum (toLowerCase title).
Proof.
  unfold slugify.
  rewrite filter_alnum_stripEdgeHyphens, filter_alnum_hyphenate,
    filter_alnum_removeQuotes.
  apply filter_alnum_trim.
Qed.

Lemma filter_nil_forallb (A : Type) (f : A -> bool) (l : list A) :
  filter f l = [] -> forallb (fun x => negb (f x)) l = true.
Proof.
  induction l as [| a r IH]; [reflexivity |]. simpl.
  destruct (f a); [discriminate |]. exact IH.
Qed.

(** X3.  The characters of [a-z0-9] of the slug are those of the lower-cased
    title, in the same order; the slug is empty exactly when the lower-cased
    title has none. *)
Theorem slugify_keeps_letters_and_digits (title : jsstring) :
  filter isSlugAlnum (slugify title)
  = filter isSlugAlnum (toLowerCase title)
  /\ (slugify title = [] <-> noLowerAlnum title = true).
Proof.
  split; [apply filter_alnum_slugify |].
  split.
  - intros E. unfold noLowerAlnum. apply filter_nil_forallb.
    rewrite <- filter_alnum_slugify, E. reflexivity.
  - apply slugify_noLowerAlnum.
Qed.

(** Lower-casing is idempotent and commutes with the removal of quotes. *)
Lemma lowerUnit_idem (c : code_unit) :
  flat_map lowerUnit (lowerUnit c) = lowerUnit c.
Proof.
  unfold lowerUnit.
  destruct ((65 <=? c) && (c <=? 90)) eqn:U.
  - simpl. unfold lowerUnit.
    apply andb_true_iff in U. destruct U as [U1 U2].
    apply N.leb_le in U1. apply N.leb_le in U2.
    replace ((65 <=? c + 32) && (c + 32 <=? 90)) with false
      by (symmetry; apply andb_false_iff; right; apply N.leb_gt; lia).
    replace (c + 32 =? 304) with false by (symmetry; apply N.eqb_neq; lia).
    replace (c + 32 =? 8490) with false by (symmetry; apply N.eqb_neq; lia).
    reflexivity.
  - destruct (N.eqb_spec c 304) as [-> | N1]; [reflexivity |].
    destruct (N.eqb_spec c 8490) as [-> | N2]; [reflexivity |].
    simpl. unfold lowerUnit. rewrite U.
    apply N.eqb_neq in N1. apply N.eqb_neq in N2. rewrite N1, N2.
    reflexivity.
Qed.

Lemma toLowerCase_idem (s : jsstring) :
  toLowerCase (toLowerCase s) = toLowerCase s.
Proof.
  unfold toLowerCase. induction s as [| c r IH]; [reflexivity |].
  simpl. rewrite flat_map_app, IH, lowerUnit_idem. reflexivity.
Qed.

Lemma removeQuotes_lowerUnit (c : code_unit) :
  removeQuotes (lowerUnit c) = if isQuote c then [] else lowerUnit c.
Proof.
  unfold lowerUnit, removeQuotes, isQuote.
  destruct ((65 <=? c) && (c <=? 90)) eqn:U.
  - apply andb_true_iff in U. destruct U as [U1 U2].
    apply N.leb_le in U1. apply N.leb_le in U2. simpl.
    replace (c + 32 =? 39) with false by (symmetry; apply N.eqb_neq; lia).
    replace (c + 32 =? 96) with false by (symmetry; apply N.eqb_neq; lia).
    replace (c =? 39) with false by (symmetry; apply N.eqb_neq; lia).
    replace (c =? 96) with false by (symmetry; apply N.eqb_neq; lia).
    reflexivity.
  - destruct (N.eqb_spec c 304) as [-> | N1]; [reflexivity |].
    destruct (N.eqb_spec c 8490) as [-> | N2]; [reflexivity |].
    simpl. destruct ((c =? 39) || (c =? 96)); reflexivity.
Qed.

Lemma removeQuotes_toLowerCase (s : jsstring) :
  removeQuotes (toLowerCase s) = toLowerCase (removeQuotes s).
Proof.
  unfold toLowerCase. induction s as [| c r IH]; [reflexivity |].
  simpl. rewrite removeQuotes_app, removeQuotes_lowerUnit, IH.
  fold (isQuote c). destruct (isQuote c); reflexivity.
Qed.

Lemma removeQuotes_idem (s : jsstring) :
  removeQuotes (removeQuotes s) = removeQuotes s.
Proof.
  unfold removeQuotes. induction s as [| c r IH]; [reflexivity |].
  simpl. destruct (isQuote c) eqn:Q; simpl; [exact IH |].
  rewrite Q. simpl. rewrite IH. reflexivity.
Qed.

(** X4.  Titles that differ only in the case of their letters, in their
    apostrophes and backticks, or in white space around them have the same
    slug. *)
Theorem slugify_ignores_case_padding_quotes (title u w : jsstring) :
  slugify (toLowerCase title) = slugify title
  /\ slugify (removeQuotes title) = slugify title
  /\ (allWhiteSpace u = true -> allWhiteSpace w = true ->
      slugify (u ++ title ++ w) = slugify title).
Proof.
  split; [unfold slugify; rewrite toLowerCase_idem; reflexivity |].
  split.
  - rewrite !slugify_runs.
    rewrite <- removeQuotes_toLowerCase, removeQuotes_idem. reflexivity.
  - intros Hu Hw. unfold slugify.
    rewrite !setters_commute, (trim_pad u w title Hu Hw). reflexivity.
Qed.

(** ** normalizeDate *)

Local Open Scope Z_scope.

(** A date of the calendar is the civil date of its day number. *)
Lemma days_civil (y m d : Z) :
  1 <= m <= 12 -> 1 <= d <= daysInMonth y m ->
  civilFromDays (daysFromCivil y m d) = (y, m, d).
Proof.
  intros Hm Hd.
  unfold daysFromCivil.
  set (y' := if m <=? 2 then y - 1 else y).
  set (mp := if m <=? 2 then m + 9 else m - 3).
  set (era := y' / 400).
  set (yoe := y' - era * 400).
  assert (Hyoe : 0 <= yoe <= 399) by (subst yoe era; Z.div_mod_to_equations; lia).
  assert (Hy' : y' = yoe + era * 400) by (subst yoe; lia).
  assert (Hmp : 0 <= mp <= 11 /\ m = (if mp <? 10 then mp + 3 else mp - 9)
                /\ y = (if mp <? 10 then y' else y' + 1)).
  { subst mp y'. destruct (Z.leb_spec m 2).
    - replace (m + 9 <? 10) with false by (symmetry; apply Z.ltb_ge; lia). lia.
    - replace (m - 3 <? 10) with true by (symmetry; apply Z.ltb_lt; lia). lia. }
  destruct Hmp as (Hmp & Em & Ey).
  set (doy := (153 * mp + 2) / 5 + d - 1).
  assert (Hd' : 1 <= d <= 31 /\ (mp = 1 \/ mp = 3 \/ mp = 6 \/ mp = 8 -> d <= 30)
                /\ (mp = 11 -> d <= 29
                    /\ (d = 29 -> (yoe + 1) mod 4 = 0
                                  /\ ((yoe + 1) mod 100 <> 0 \/ yoe = 399)))).
  { clear doy. unfold daysInMonth, isLeapYear in Hd. rewrite Em, Ey in Hd.
    rewrite Hy' in Hd. clear Em Ey Hy'. clearbody yoe era mp.
    destruct (Z.ltb_spec mp 10).
    - revert Hd. split_Zcmp; simpl; intros; try lia.
    - revert Hd. split_Zcmp; simpl; intros; try lia;
        Z.div_mod_to_equations; lia. }
  destruct Hd' as (Hd1 & Hd30 & Hfeb).
  clearbody yoe era.
  assert (Hdoy : 0 <= doy <= 365
                 /\ (doy = 365 -> (yoe + 1) mod 4 = 0
                                  /\ ((yoe + 1) mod 100 <> 0 \/ yoe = 399))
                 /\ (5 * doy + 2) / 153 = mp
                 /\ doy - (153 * mp + 2) / 5 + 1 = d).
  { subst doy. clear Em Ey. clearbody mp.
    assert (mp = 0 \/ mp = 1 \/ mp = 2 \/ mp = 3 \/ mp = 4 \/ mp = 5 \/ mp = 6
            \/ mp = 7 \/ mp = 8 \/ mp = 9 \/ mp = 10 \/ mp = 11) as K by lia.
    repeat (destruct K as [K | K]); subst mp;
      (split; [Z.div_mod_to_equations; lia |]);
      (split; [intros E; first [exfalso; Z.div_mod_to_equations; lia
                               | apply Hfeb; [reflexivity |];
                                 Z.div_mod_to_equations; lia] |]);
      split; Z.div_mod_to_equations; lia. }
  clearbody doy mp.
  set (doe := yoe * 365 + yoe / 4 - yoe / 100 + doy).
  assert (Hdoe : 0 <= doe < 146097) by (subst doe; Z.div_mod_to_equations; lia).
  unfold civilFromDays.
  replace (era * 146097 + doe - 719468 + 719468) with (era * 146097 + doe) by lia.
  assert (E1 : (era * 146097 + doe) / 146097 = era)
    by (Z.div_mod_to_equations; lia).
  rewrite E1.
  replace (era * 146097 + doe - era * 146097) with doe by lia.
  assert (E2 : (doe - doe / 1460 + doe / 36524 - doe / 146096) / 365 = yoe).
  { subst doe. Z.div_mod_to_equations. lia. }
  rewrite E2.
  replace (doe - (365 * yoe + yoe / 4 - yoe / 100)) with doy by (subst doe; lia).
  destruct Hdoy as (_ & _ & -> & ->).
  rewrite <- Em.
  replace (if m <=? 2 then yoe + era * 400 + 1 else yoe + era * 400) with y;
    [reflexivity |].
  rewrite Ey, Hy'. destruct (Z.ltb_spec mp 10).
  - replace (m <=? 2) with false by (symmetry; apply Z.leb_gt; lia). lia.
  - replace (m <=? 2) with true by (symmetry; apply Z.leb_le; lia). lia.
Qed.

(** Digits written back as they were read. *)
Lemma isDigit_value (c : code_unit) :
  isDigit c = true -> 0 <= Z.of_N c - 48 <= 9.
Proof.
  unfold isDigit. intros H. apply andb_true_iff in H. destruct H as [H1 H2].
  apply N.leb_le in H1. apply N.leb_le in H2. lia.
Qed.

Lemma parse_two_digits_pad (a b : code_unit) :
  isDigit a = true -> isDigit b = true -> parseInt10 [a; b] <= 59 ->
  padStart2 (numberToString (parseInt10 [a; b])) = [a; b].
Proof.
  intros Da Db. pose proof (isDigit_value a Da). pose proof (isDigit_value b Db).
  unfold parseInt10. cbn [parseDigits]. intros L.
  rewrite padStart2_clock by lia.
  f_equal; [| f_equal]; Z.div_mod_to_equations; lia.
Qed.

Lemma parse_four_digits_decimal (a b c d : code_unit) :
  forallb isDigit [a; b; c; d] = true -> (a =? 48)%N = false ->
  1000 <= parseInt10 [a; b; c; d] <= 9999
  /\ numberToString (parseInt10 [a; b; c; d]) = [a; b; c; d].
Proof.
  cbn [forallb]. intros F A.
  repeat (apply andb_true_iff in F; destruct F as [?D F]).
  apply N.eqb_neq in A.
  pose proof (isDigit_value a D). pose proof (isDigit_value b D0).
  pose proof (isDigit_value c D1). pose proof (isDigit_value d D2).
  unfold parseInt10. cbn [parseDigits].
  set (n := (((0 * 10 + (Z.of_N a - 48)) * 10 + (Z.of_N b - 48)) * 10
             + (Z.of_N c - 48)) * 10 + (Z.of_N d - 48)).
  assert (R : 1000 <= n <= 9999) by (subst n; lia).
  split; [exact R |].
  unfold numberToString.
  replace (n <? 0) with false by (symmetry; apply Z.ltb_ge; lia).
  rewrite decimal_four_digits by lia.
  assert (E : Z.to_N n = (1000 * (a - 48) + 100 * (b - 48) + 10 * (c - 48)
                          + (d - 48))%N) by (subst n; lia).
  rewrite E. clear E R n.
  f_equal; [| f_equal; [| f_equal; [| f_equal]]];
    zify; Z.to_euclidean_division_equations; lia.
Qed.

Section IsoDates.

Variable engineParse : jsstring -> option Z.

(** What an ISO date string is made of. *)
Lemma parseIsoDate_inv (s : jsstring) (t : Z) :
  parseIsoDate s = Some t ->
  exists y1 y2 y3 y4 m1 m2 d1 d2,
    s = [y1; y2; y3; y4; 45%N; m1; m2; 45%N; d1; d2]
    /\ forallb isDigit [y1; y2; y3; y4; m1; m2; d1; d2] = true
    /\ 1 <= parseInt10 [m1; m2] <= 12
    /\ 1 <= parseInt10 [d1; d2]
         <= daysInMonth (parseInt10 [y1; y2; y3; y4]) (parseInt10 [m1; m2])
    /\ t = daysFromCivil (parseInt10 [y1; y2; y3; y4]) (parseInt10 [m1; m2])
             (parseInt10 [d1; d2]) * msPerDay.
Proof.
  unfold parseIsoDate.
  destruct s as [| y1 [| y2 [| y3 [| y4 [| h1 [| m1 [| m2 [| h2 [| d1 [| d2 [| x r]]]]]]]]]]];
    try discriminate.
  destruct (forallb isDigit [y1; y2; y3; y4; m1; m2; d1; d2]) eqn:F;
    [| discriminate].
  destruct (N.eqb_spec h1 45) as [-> |]; [| discriminate].
  destruct (N.eqb_spec h2 45) as [-> |]; [| discriminate].
  simpl andb. cbv iota.
  destruct (Z.leb_spec 1 (parseInt10 [m1; m2])); [| discriminate].
  destruct (Z.leb_spec (parseInt10 [m1; m2]) 12); [| discriminate].
  destruct (Z.leb_spec 1 (parseInt10 [d1; d2])); [| discriminate].
  destruct (Z.leb_spec (parseInt10 [d1; d2])
              (daysInMonth (parseInt10 [y1; y2; y3; y4])
                 (parseInt10 [m1; m2]))); [| discriminate].
  simpl andb. cbv iota. intros T. injection T as <-.
  exists y1, y2, y3, y4, m1, m2, d1, d2.
  repeat split; try assumption; reflexivity.
Qed.

Lemma daysInMonth_le (y m : Z) : daysInMonth y m <= 31.
Proof.
  unfold daysInMonth.
  destruct (m =? 2); [destruct (isLeapYear y) |];
    try destruct ((m =? 4) || (m =? 6) || (m =? 9) || (m =? 11))%bool; lia.
Qed.

(** X5.  A string [YYYY-MM-DD] that names a day of the calendar and whose
    year does not begin with 0 is returned by [normalizeDate] as it is,
    whatever the engine does with other strings. *)
Theorem normalizeDate_keeps_iso_dates (s : jsstring) (t : Z) :
  parseIsoDate s = Some t -> startsWith 48%N s = false ->
  normalizeDate engineParse (DateString s) = Ok s.
Proof.
  intros P Z0. unfold normalizeDate, dateParse. rewrite P.
  destruct (parseIsoDate_inv s t P)
    as (y1 & y2 & y3 & y4 & m1 & m2 & d1 & d2 & -> & F & Hm & Hd & ->).
  simpl in Z0.
  rewrite Z.div_mul by (unfold msPerDay; lia).
  rewrite (days_civil _ _ _ Hm Hd).
  pose proof (daysInMonth_le (parseInt10 [y1; y2; y3; y4]) (parseInt10 [m1; m2])).
  cbn [forallb] in F.
  repeat (apply andb_true_iff in F; destruct F as [?D F]).
  assert (Fy : forallb isDigit [y1; y2; y3; y4] = true)
    by (cbn [forallb]; rewrite D, D0, D1, D2; reflexivity).
  destruct (parse_four_digits_decimal y1 y2 y3 y4 Fy Z0) as [_ ->].
  rewrite (parse_two_digits_pad m1 m2 D3 D4) by lia.
  rewrite (parse_two_digits_pad d1 d2 D5 D6) by lia.
  reflexivity.
Qed.

(** The result of [normalizeDate] read as an ISO date. *)
Lemma normalizeDate_parse_back (value : DateInput) (t : Z) (out : jsstring) :
  timeValue engineParse value = Some t ->
  1000 <= fst (fst (civilFromDays (t / msPerDay))) <= 9999 ->
  normalizeDate engineParse value = Ok out ->
  parseIsoDate out = Some (t / msPerDay * msPerDay).
Proof.
  intros T Y. unfold normalizeDate at 1. unfold timeValue in T. rewrite T.
  pose proof (civil_days (t / msPerDay)) as C.
  destruct (civilFromDays (t / msPerDay)) as [[y m] d] eqn:E.
  simpl in Y. destruct C as (D & Hm & Hd).
  pose proof (daysInMonth_le y m) as L.
  destruct (decimal_four_digits_parse (Z.to_N y) ltac:(lia))
    as (y1 & y2 & y3 & y4 & Ny & Dy & Py).
  assert (Ny' : numberToString y = [y1; y2; y3; y4]).
  { unfold numberToString.
    replace (y <? 0) with false by (symmetry; apply Z.ltb_ge; lia). exact Ny. }
  destruct (two_digits_parse m ltac:(lia)) as (m1 & m2 & Nm & Dm & Pm).
  destruct (two_digits_parse d ltac:(lia)) as (d1 & d2 & Nd & Dd & Pd).
  rewrite Ny', Nm, Nd. intros H. injection H as <-.
  assert (F : forallb isDigit [y1; y2; y3; y4; m1; m2; d1; d2] = true).
  { cbn [forallb] in Dy, Dm, Dd |- *.
    repeat match goal with
           | H : _ && _ = true |- _ => apply andb_true_iff in H; destruct H
           end.
    repeat match goal with
           | H : isDigit _ = true |- _ => rewrite H; clear H
           end.
    reflexivity. }
  cbn [app js list_ascii_of_string map N_of_ascii].
  unfold parseIsoDate.
  change (N_of_ascii "-") with 45%N.
  rewrite F. simpl andb. cbv iota. rewrite Py, Pm, Pd, Z2N.id by lia.
  replace (1 <=? m) with true by (symmetry; apply Z.leb_le; lia).
  replace (m <=? 12) with true by (symmetry; apply Z.leb_le; lia).
  replace (1 <=? d) with true by (symmetry; apply Z.leb_le; lia).
  replace (d <=? daysInMonth y m) with true by (symmetry; apply Z.leb_le; lia).
  simpl andb. cbv iota. rewrite D. reflexivity.
Qed.

(** X6.  When the UTC year of the date has four digits, the result of
    [normalizeDate], read as an ISO date, is midnight UTC of the day of the
    time value it was given: the time of day is dropped and the day kept.
    Normalising the result again returns it unchanged. *)
Theorem normalizeDate_names_the_utc_day (value : DateInput) (t : Z)
  (out : jsstring) :
  timeValue engineParse value = Some t ->
  1000 <= fst (fst (civilFromDays (t / msPerDay))) <= 9999 ->
  normalizeDate engineParse value = Ok out ->
  parseIsoDate out = Some (t / msPerDay * msPerDay)
  /\ normalizeDate engineParse (DateString out) = Ok out.
Proof.
  intros T Y H. split.
  - exact (normalizeDate_parse_back value t out T Y H).
  - exact (proj2 (normalizeDate_fixed_output engineParse value t out T Y H)).
Qed.

End IsoDates.

(** A leap day. *)
Lemma normalizeDate_keeps_iso_dates_witness :
  normalizeDate isoOnly (DateString (js "2024-02-29")) = Ok (js "2024-02-29").
Proof.
  apply (normalizeDate_keeps_iso_dates isoOnly (js "2024-02-29")
           (19782 * msPerDay)); reflexivity.
Defined.

(** The [Date] 2025-03-11T00:21:01Z. *)
Lemma normalizeDate_names_the_utc_day_witness :
  parseIsoDate (js "2025-03-11") = Some (20158 * msPerDay)
  /\ normalizeDate isoOnly (DateString (js "2025-03-11"))
     = Ok (js "2025-03-11").
Proof.
  apply (normalizeDate_names_the_utc_day isoOnly
           (DateObject (Some 1741654861000)) 1741654861000 (js "2025-03-11")).
  - reflexivity.
  - vm_compute. split; discriminate.
  - reflexivity.
Defined.

(** ** normalizeTime *)

(** A result of [normalizeTime] is a clock text, and clock texts are
    returned as they are. *)
Lemma normalizeTime_inv (value out : jsstring) :
  normalizeTime value = Ok out ->
  exists hh mm ap,
    matchTime (trim value) = Some (hh, mm, ap)
    /\ 0 <= hour24 (parseInt10 hh) ap <= 23
    /\ 0 <= minuteOf mm <= 59
    /\ out = clock (hour24 (parseInt10 hh) ap) (minuteOf mm).
Proof.
  intros H.
  destruct (matchTime (trim value)) as [[[hh mm] ap] |] eqn:M.
  - rewrite (normalizeTime_captures value hh mm ap M) in H.
    apply timeOfCaptures_ok in H. exists hh, mm, ap. tauto.
  - unfold normalizeTime in H. rewrite M in H. discriminate H.
Qed.

Lemma clock_digits (h m : Z) :
  0 <= h <= 59 -> 0 <= m <= 59 ->
  exists a b c d,
    clock h m = [a; b; 58%N; c; d]
    /\ forallb isDigit [a; b; c; d] = true
    /\ parseInt10 [a; b] = h /\ parseInt10 [c; d] = m.
Proof.
  intros Hh Hm.
  destruct (two_digits_parse h Hh) as (a & b & Eh & Dh & Ph).
  destruct (two_digits_parse m Hm) as (c & d & Em & Dm & Pm).
  rewrite (padStart2_clock h Hh) in Eh. rewrite (padStart2_clock m Hm) in Em.
  unfold clock.
  remember (Z.to_N (48 + h / 10)) as a' eqn:Ea.
  remember (Z.to_N (48 + h mod 10)) as b' eqn:Eb.
  remember (Z.to_N (48 + m / 10)) as c' eqn:Ec.
  remember (Z.to_N (48 + m mod 10)) as d' eqn:Ed.
  clear Ea Eb Ec Ed.
  injection Eh as -> ->. injection Em as -> ->.
  exists a, b, c, d.
  split; [reflexivity |]. split; [| split; assumption].
  cbn [forallb] in *.
  apply andb_true_iff in Dh. destruct Dh as [-> Dh].
  apply andb_true_iff in Dh. destruct Dh as [-> _].
  exact Dm.
Qed.

Lemma normalizeTime_clock (h m : Z) :
  0 <= h <= 23 -> 0 <= m <= 59 -> normalizeTime (clock h m) = Ok (clock h m).
Proof.
  intros Hh Hm.
  destruct (clock_digits h m ltac:(lia) Hm) as (a & b & c & d & E & D & Ph & Pm).
  cbn [forallb] in D.
  repeat (apply andb_true_iff in D; destruct D as [?D D]).
  assert (T : TimeText (clock h m) [a; b] (Some [c; d]) None).
  { exists [], [58%N; c; d]. split; [reflexivity |]. split.
    - simpl. rewrite D0, D1. reflexivity.
    - split; [rewrite E; reflexivity |].
      right. exists [58%N], [c; d], []. split; [reflexivity |]. split.
      + simpl. rewrite D2, D3. reflexivity.
      + split; [right; reflexivity |]. split; [reflexivity |].
        exists [], []. repeat split. }
  apply TimeText_trim in T. apply matchTime_spec in T.
  rewrite (normalizeTime_captures _ _ _ _ T).
  apply timeOfCaptures_ok. simpl hour24. simpl minuteOf.
  rewrite Ph, Pm. split; [lia |]. split; [lia | reflexivity].
Qed.

(** X7.  Every result of [normalizeTime] is [HH:mm] with an hour from 0 to
    23 and a minute from 0 to 59, five characters long, and
    [normalizeTime] returns it unchanged. *)
Theorem normalizeTime_output_is_canonical (value out : jsstring) :
  normalizeTime value = Ok out ->
  (exists h m, 0 <= h <= 23 /\ 0 <= m <= 59 /\ out = clock h m)
  /\ List.length out = 5%nat
  /\ normalizeTime out = Ok out.
Proof.
  intros H.
  destruct (normalizeTime_inv value out H) as (hh & mm & ap & _ & Hh & Hm & ->).
  split; [| split].
  - exists (hour24 (parseInt10 hh) ap), (minuteOf mm). tauto.
  - reflexivity.
  - apply normalizeTime_clock; assumption.
Qed.

(** The result for [ 9:05 PM ]. *)
Lemma normalizeTime_output_is_canonical_witness :
  (exists h m, 0 <= h <= 23 /\ 0 <= m <= 59 /\ js "21:05" = clock h m)
  /\ List.length (js "21:05") = 5%nat
  /\ normalizeTime (js "21:05") = Ok (js "21:05").
Proof.
  apply (normalizeTime_output_is_canonical (js " 9:05 PM ") (js "21:05")).
  reflexivity.
Defined.

(** The hours and minutes of a time text are not negative. *)
Lemma parseInt10_hours (hh : jsstring) :
  oneOrTwoDigits hh = true -> 0 <= parseInt10 hh <= 99.
Proof.
  intros H. destruct (oneOrTwoDigits_inv hh H)
    as [(x & -> & Dx) | (x & y & -> & Dx & Dy)];
    unfold parseInt10; cbn [parseDigits].
  - pose proof (isDigit_value x Dx). lia.
  - pose proof (isDigit_value x Dx). pose proof (isDigit_value y Dy). lia.
Qed.

Lemma minuteOf_nonneg (s : jsstring) (mm ap : option jsstring) :
  MinutesText s mm ap -> 0 <= minuteOf mm.
Proof.
  intros [[-> _] | (sep & d & rest & -> & D & _)]; simpl; [lia |].
  destruct (twoDigits_inv d D) as (x & y & -> & Dx & Dy).
  unfold parseInt10. cbn [parseDigits].
  pose proof (isDigit_value x Dx). pose proof (isDigit_value y Dy). lia.
Qed.

(** X8.  With am or pm after the time (and a minute up to 59), the time is
    accepted exactly when the hour is at most 12 for pm and at most 23 for
    am: [13pm] is refused, [13am] is read as 13 o'clock.  An hour of 12 is
    noon with pm and midnight with am. *)
Theorem normalizeTime_am_pm_hours (value hh a : jsstring)
  (mm : option jsstring) :
  TimeText value hh mm (Some a) ->
  minuteOf mm <= 59 ->
  (isOk (normalizeTime value) = true
   <-> parseInt10 hh <= (if isPm (Some a) then 12 else 23))
  /\ (parseInt10 hh = 12 ->
      normalizeTime value
      = Ok (clock (if isPm (Some a) then 12 else 0) (minuteOf mm))).
Proof.
  intros T Hm.
  assert (Hh : 0 <= parseInt10 hh <= 99).
  { destruct T as (w1 & rest & _ & D & _). apply parseInt10_hours. exact D. }
  assert (Hm0 : 0 <= minuteOf mm).
  { destruct T as (w1 & rest & _ & _ & _ & M).
    exact (minuteOf_nonneg rest mm (Some a) M). }
  pose proof T as T'. apply TimeText_trim in T'. apply matchTime_spec in T'.
  rewrite (normalizeTime_captures _ _ _ _ T').
  assert (H24 : hour24 (parseInt10 hh) (Some a)
                = (if parseInt10 hh =? 12 then 0 else parseInt10 hh)
                  + (if isPm (Some a) then 12 else 0)) by reflexivity.
  split.
  - split.
    + intros O.
      destruct (timeOfCaptures hh mm (Some a)) as [out | e] eqn:E;
        [| discriminate O].
      apply timeOfCaptures_ok in E. destruct E as (B & _ & _).
      rewrite H24 in B. revert B.
      destruct (Z.eqb_spec (parseInt10 hh) 12); destruct (isPm (Some a)); lia.
    + intros B.
      assert (O : timeOfCaptures hh mm (Some a)
                  = Ok (clock (hour24 (parseInt10 hh) (Some a)) (minuteOf mm))).
      { apply timeOfCaptures_ok. split; [| split; [lia | reflexivity]].
        rewrite H24. revert B.
        destruct (Z.eqb_spec (parseInt10 hh) 12); destruct (isPm (Some a)); lia. }
      rewrite O. reflexivity.
  - intros E12. apply timeOfCaptures_ok. rewrite H24, E12. simpl Z.eqb. cbv iota.
    destruct (isPm (Some a)); (split; [lia | split; [lia | reflexivity]]).
Qed.

(** [13am]. *)
Lemma normalizeTime_am_pm_hours_witness :
  (isOk (normalizeTime (js "13am")) = true
   <-> parseInt10 (js "13") <= (if isPm (Some (js "am")) then 12 else 23))
  /\ (parseInt10 (js "13") = 12 ->
      normalizeTime (js "13am")
      = Ok (clock (if isPm (Some (js "am")) then 12 else 0) (minuteOf None))).
Proof.
  apply (normalizeTime_am_pm_hours (js "13am") (js "13") (js "am") None).
  - apply matchTime_spec. reflexivity.
  - simpl. lia.
Defined.

(** ** The Event pre-save hook *)

Local Open Scope N_scope.

Section PreSaveRuns.

Variable engineParse : jsstring -> option Z.

Local Abbreviation pre_save := (EventSchema_pre_save engineParse).

(** The hook and the list of its checks. *)
Lemma pre_save_first_failure (this : EventDoc) :
  snd (pre_save this) = firstFailure (checks engineParse (attrs this)).
Proof.
  unfold EventSchema_pre_save, andThen, requireString, requireArray,
    generateSlug, normalizePath, checks, firstFailure, checked, arrayCheck,
    isNonEmptyArray.
  hook_cbn.
  repeat match goal with
         | |- context [assertNonEmpty ?x ?n] =>
             destruct (assertNonEmpty x n); hook_cbn; cbn [bind];
             [| reflexivity]
         end.
  destruct (agenda (attrs this)) as [[| ? ?] |]; hook_cbn; try reflexivity.
  destruct (tags (attrs this)) as [[| ? ?] |]; hook_cbn; try reflexivity.
  destruct (_ || slugMissing _); hook_cbn;
    (destruct (bind (asString (date (attrs this))) _); hook_cbn; cbn [bind];
       [| reflexivity]);
    (destruct (bind (asString (time (attrs this))) _); hook_cbn; cbn [bind];
       reflexivity).
Qed.

(** What [assertNonEmpty] returns is already trimmed. *)
Lemma assertNonEmpty_fixed (v : option jsstring) (f t : jsstring) :
  assertNonEmpty v f = Ok t -> option_map trim v = Some t /\ trim t = t.
Proof.
  intros H. destruct (assertNonEmpty_trimmed v f t H) as (s & -> & -> & _).
  split; [reflexivity | apply trim_idem].
Qed.

(** A run that ends in [next()] leaves the document normalised field by
    field. *)
Lemma pre_save_saved (this : EventDoc) :
  snd (pre_save this) = Ok tt -> fst (pre_save this) = savedDoc engineParse this.
Proof.
  unfold EventSchema_pre_save, andThen, requireString, requireArray,
    generateSlug, normalizePath, savedDoc, normalizedBy, titleAfter.
  destruct this as [[t sl de ov im ve lo da ti mo au ag og tg] tm]. hook_cbn.
  repeat match goal with
         | |- context [assertNonEmpty ?x ?n] =>
             let A := fresh "A" in
             destruct (assertNonEmpty x n) eqn:A; hook_cbn;
             [apply assertNonEmpty_fixed in A; destruct A as [? ?]
             | discriminate]
         end.
  destruct ag as [[| ? ?] |]; hook_cbn; try discriminate.
  destruct tg as [[| ? ?] |]; hook_cbn; try discriminate.
  repeat match goal with
         | H : option_map trim ?x = Some ?v |- _ =>
             destruct x; simpl in H; [injection H as <- | discriminate H]
         end.
  clear. rewrite !trim_idem. cbn [option_map].
  destruct (tm || negb (str_eqb _ _) || slugMissing sl); hook_cbn;
    (destruct (bind (asString da) _); hook_cbn; [| discriminate]);
    (destruct (bind (asString ti) _); hook_cbn; [| discriminate]);
    intros _; unfold assign; hook_cbn; rewrite ?trim_idem; reflexivity.
Qed.

(** The converse of [pre_save_ok]. *)
Lemma pre_save_valid (this : EventDoc) :
  snd (pre_save this) = Ok tt -> fieldsValid engineParse this = true.
Proof.
  unfold EventSchema_pre_save, andThen, requireString, requireArray,
    generateSlug, normalizePath, fieldsValid, isNonEmptyArray.
  hook_cbn.
  repeat match goal with
         | |- context [assertNonEmpty ?x ?n] =>
             destruct (assertNonEmpty x n); hook_cbn; [| discriminate]
         end.
  destruct (agenda (attrs this)) as [[| ? ?] |]; hook_cbn; try discriminate.
  destruct (tags (attrs this)) as [[| ? ?] |]; hook_cbn; try discriminate.
  destruct (_ || slugMissing _); hook_cbn;
    (destruct (bind (asString (date (attrs this))) _); hook_cbn;
       [| discriminate]);
    (destruct (bind (asString (time (attrs this))) _); hook_cbn;
       [| discriminate]);
    reflexivity.
Qed.

Lemma isOk_assertNonEmpty (v : option jsstring) (f : jsstring) :
  isOk (assertNonEmpty v f) = true -> exists s, v = Some s /\ trim s <> [].
Proof.
  destruct (assertNonEmpty v f) as [t | e] eqn:A; [| discriminate].
  intros _. destruct (assertNonEmpty_trimmed v f t A) as (s & -> & -> & N).
  exists s. split; [reflexivity | exact N].
Qed.

Lemma isOk_bind_asString (f : jsstring -> result jsstring)
  (v : option jsstring) :
  isOk (bind (asString v) f) = true ->
  exists s out, v = Some s /\ f s = Ok out /\ normalizedBy f v = Some out.
Proof.
  unfold normalizedBy. destruct v as [s |]; [| discriminate]. simpl.
  destruct (f s) as [out | e] eqn:E; [| discriminate].
  intros _. exists s, out. repeat split; assumption.
Qed.

Lemma assertNonEmpty_trim_ok (s f : jsstring) :
  trim s <> [] -> assertNonEmpty (Some (trim s)) f = Ok (trim s).
Proof.
  intros N. unfold assertNonEmpty. rewrite trim_idem.
  destruct (trim s); [contradiction | reflexivity].
Qed.

(** The normalised document passes the checks and is its own normal form. *)
Lemma savedDoc_fixed (this : EventDoc) (d0 : jsstring) (t : Z) :
  fieldsValid engineParse this = true ->
  date (attrs this) = Some d0 ->
  dateParse engineParse d0 = Some t ->
  (1000 <= fst (fst (civilFromDays (t / msPerDay))) <= 9999)%Z ->
  fieldsValid engineParse (savedDoc engineParse this) = true
  /\ savedDoc engineParse (savedDoc engineParse this)
     = savedDoc engineParse this.
Proof.
  intros H D T Y. unfold fieldsValid in H. rewrite !andb_true_iff in H.
  decompose [and] H. clear H.
  repeat match goal with
         | H : isOk (assertNonEmpty _ _) = true |- _ =>
             apply isOk_assertNonEmpty in H; destruct H as (? & ? & ?)
         end.
  destruct this as [[ti_ sl de ov im ve lo da tm_ mo au ag og tg] tm].
  cbn [attrs title slug description overview image venue location date time
       mode audience agenda organizer tags] in *.
  subst.
  destruct ag as [[| ? ?] |]; try discriminate.
  destruct tg as [[| ? ?] |]; try discriminate.
  cbn [bind asString] in *.
  destruct (normalizeDate engineParse (DateString d0)) as [d' |] eqn:ND;
    [| discriminate].
  destruct (normalizeDate_fixed_output engineParse (DateString d0) t d' T Y ND)
    as [_ ND'].
  destruct tm_ as [t0 |]; [| discriminate]. cbn [bind asString] in *.
  destruct (normalizeTime t0) as [t' |] eqn:NT; [| discriminate].
  assert (NT' : normalizeTime t' = Ok t').
  { destruct (normalizeTime_inv t0 t' NT) as (hh & mm & ap & _ & Hh & Hm & ->).
    apply normalizeTime_clock; assumption. }
  unfold fieldsValid, savedDoc, normalizedBy, titleAfter.
  hook_cbn. cbn [option_map bind asString]. rewrite ND, NT.
  hook_cbn. cbn [option_map bind asString]. rewrite ND', NT'.
  rewrite !assertNonEmpty_trim_ok by assumption.
  rewrite !trim_idem, str_eqb_refl.
  split; [reflexivity |].
  cbn [negb]. rewrite !orb_false_r.
  destruct (_ || negb (str_eqb _ _) || slugMissing sl) eqn:G.
  - cbn [option_map]. destruct (_ || slugMissing (Some _)); reflexivity.
  - apply orb_false_iff in G. destruct G as [G1 G2]. rewrite G1, G2.
    reflexivity.
Qed.

(** X9.  The outcome of the hook is the first failure among its checks,
    taken in the order title, description, overview, image, venue, location,
    mode, audience, organizer, agenda, tags, date, time, each made on the
    document as it was before the hook ran.  The hook ends in [next()]
    exactly when all of them pass: generating the slug never fails it. *)
Theorem pre_save_reports_first_failure (this : EventDoc) :
  snd (pre_save this) = firstFailure (checks engineParse (attrs this))
  /\ (snd (pre_save this) = Ok tt <-> fieldsValid engineParse this = true).
Proof.
  split; [apply pre_save_first_failure |].
  split; [apply pre_save_valid | apply pre_save_ok].
Qed.

(** X10.  After a run of the hook that ends in [next()], the document is
    the one it was, field by field normalised: each of the nine required
    strings is trimmed and not empty, the date is the result of
    [normalizeDate], the time the [HH:mm] result of [normalizeTime], a slug
    is there, and agenda and tags are as they were. *)
Theorem pre_save_stores_normalised_fields (this : EventDoc) :
  snd (pre_save this) = Ok tt ->
  let doc' := fst (pre_save this) in
  doc' = savedDoc engineParse this
  /\ (forall p, hasTrimSetter p = true ->
      exists s, getPath p (attrs this) = Some s
                /\ getPath p (attrs doc') = Some (trim s) /\ trim s <> [])
  /\ (exists d0 d, date (attrs this) = Some d0
                   /\ normalizeDate engineParse (DateString d0) = Ok d
                   /\ date (attrs doc') = Some d)
  /\ (exists t0 h m, time (attrs this) = Some t0
                     /\ normalizeTime t0 = Ok (clock h m)
                     /\ (0 <= h <= 23)%Z /\ (0 <= m <= 59)%Z
                     /\ time (attrs doc') = Some (clock h m))
  /\ (exists s, slug (attrs doc') = Some s)
  /\ agenda (attrs doc') = agenda (attrs this)
  /\ tags (attrs doc') = tags (attrs this).
Proof.
  intros S doc'. subst doc'. rewrite (pre_save_saved this S).
  split; [reflexivity |].
  pose proof (pre_save_valid this S) as V.
  unfold fieldsValid in V. rewrite !andb_true_iff in V.
  decompose [and] V. clear V.
  repeat match goal with
         | H : isOk (assertNonEmpty _ _) = true |- _ =>
             apply isOk_assertNonEmpty in H; destruct H as (? & ? & ?)
         end.
  repeat match goal with
         | H : isOk (bind (asString _) _) = true |- _ =>
             apply isOk_bind_asString in H; destruct H as (? & ? & ? & ? & ?)
         end.
  split; [| split; [| split; [| split; [| split; reflexivity]]]].
  - intros p P.
    destruct p; try discriminate P; unfold savedDoc; hook_cbn;
      match goal with
      | H : ?f (attrs this) = Some ?s |- context [?f (attrs this)] =>
          exists s; rewrite H; repeat split; assumption
      end.
  - unfold savedDoc; hook_cbn. eauto.
  - unfold savedDoc; hook_cbn.
    match goal with
    | H : normalizeTime ?t0 = Ok ?out |- _ =>
        destruct (normalizeTime_inv t0 out H)
          as (hh & mm & ap & _ & Hh & Hm & ->)
    end.
    do 3 eexists. split; [eassumption |]. split; [eassumption |].
    split; [exact Hh |]. split; [exact Hm | eassumption].
  - unfold savedDoc; hook_cbn.
    destruct (_ || slugMissing (slug (attrs this))) eqn:G.
    + match goal with
      | H : title (attrs this) = Some _ |- _ => rewrite H
      end. simpl. eauto.
    + apply orb_false_iff in G. destruct G as [_ G].
      destruct (slug (attrs this)); [eauto | discriminate G].
Qed.

(** X11.  Saving twice changes nothing more: when the hook has ended in
    [next()] on a document whose date has a UTC year of four digits, a
    second run on the resulting document ends in [next()] and leaves it as
    it is. *)
Theorem pre_save_twice (this : EventDoc) (d0 : jsstring) (t : Z) :
  snd (pre_save this) = Ok tt ->
  date (attrs this) = Some d0 ->
  dateParse engineParse d0 = Some t ->
  (1000 <= fst (fst (civilFromDays (t / msPerDay))) <= 9999)%Z ->
  pre_save (fst (pre_save this)) = (fst (pre_save this), Ok tt).
Proof.
  intros S D T Y.
  rewrite (pre_save_saved this S).
  destruct (savedDoc_fixed this d0 t (pre_save_valid this S) D T Y) as [V I].
  pose proof (pre_save_ok engineParse _ V) as S'.
  pose proof (pre_save_saved _ S') as F. rewrite I in F.
  destruct (pre_save (savedDoc engineParse this)) as [doc r].
  simpl in S', F. subst. reflexivity.
Qed.



End PreSaveRuns.

(** A document with white space around its title and no slug. *)
Lemma pre_save_stores_normalised_fields_witness :
  fst (EventSchema_pre_save isoOnly (sampleDoc (js " Dev Conf ") None false))
  = savedDoc isoOnly (sampleDoc (js " Dev Conf ") None false).
Proof.
  exact (proj1 (pre_save_stores_normalised_fields isoOnly
                  (sampleDoc (js " Dev Conf ") None false) eq_refl)).
Defined.

(** The same document, saved twice. *)
Lemma pre_save_twice_witness :
  EventSchema_pre_save isoOnly
    (fst (EventSchema_pre_save isoOnly
            (sampleDoc (js " Dev Conf ") None false)))
  = (fst (EventSchema_pre_save isoOnly
            (sampleDoc (js " Dev Conf ") None false)), Ok tt).
Proof.
  apply (pre_save_twice isoOnly (sampleDoc (js " Dev Conf ") None false)
           (js "2025-03-10") (20157 * msPerDay)%Z).
  - reflexivity.
  - reflexivity.
  - reflexivity.
  - vm_compute. split; discriminate.
Defined.

(** ** The email of a booking *)




(** Strings without white space and [@]. *)
Lemma isAddrChar_inv (c : code_unit) :
  isAddrChar c = true -> isWhiteSpace c = false /\ isAt c = false.
Proof.
  unfold isAddrChar, isAt. intros H. apply andb_true_iff in H.
  destruct H as [H1 H2]. apply negb_true_iff in H1. apply negb_true_iff in H2.
  split; assumption.
Qed.

Lemma addrChars_no_at (l r : jsstring) :
  forallb isAddrChar l = true ->
  filter isAt l = [] /\ beforeAt (l ++ 64 :: r) = l
  /\ afterAt (l ++ 64 :: r) = r
  /\ forallb (fun c => negb (isWhiteSpace c)) l = true.
Proof.
  induction l as [| c l IH]; simpl; [intros _; repeat split |].
  intros H. apply andb_true_iff in H. destruct H as [H1 H2].
  destruct (isAddrChar_inv c H1) as [W A]. destruct (IH H2) as (I1 & I2 & I3 & I4).
  rewrite A, W, I1, I2, I3, I4. repeat split.
Qed.

(** X14.  An email that passes validation has exactly one [@] with a
    character that is not white space on each side and a dot after the [@];
    it contains no white space at all and has at least five characters. *)
Theorem accepted_email_has_listed_pattern (v : jsstring) :
  validateEmail (emailSetters v) = None ->
  listedEmailPattern (emailSetters v) = true
  /\ forallb (fun c => negb (isWhiteSpace c)) (emailSetters v) = true
  /\ (5 <= List.length (emailSetters v))%nat.
Proof.
  unfold validateEmail.
  destruct (isEmpty (emailSetters v)); [discriminate |].
  destruct (emailRegex_test (emailSetters v)) eqn:R; [| discriminate].
  intros _. apply emailRegex_test_spec in R.
  destruct R as (l & d1 & d2 & -> & Nl & N1 & N2 & F).
  rewrite !forallb_app in F.
  apply andb_true_iff in F. destruct F as [Fl F].
  apply andb_true_iff in F. destruct F as [F1 F2].
  assert (Fd : forallb isAddrChar (d1 ++ [46] ++ d2) = true).
  { rewrite !forallb_app, F1, F2. reflexivity. }
  destruct (addrChars_no_at l (d1 ++ [46] ++ d2) Fl) as (A1 & A2 & A3 & A4).
  destruct (addrChars_no_at (d1 ++ [46] ++ d2) [] Fd) as (B1 & _ & _ & B4).
  split; [| split].
  - unfold listedEmailPattern.
    change (l ++ [64] ++ d1 ++ [46] ++ d2) with (l ++ 64 :: d1 ++ [46] ++ d2).
    rewrite A2, A3, filter_app, A1. simpl filter.
    change (d1 ++ 46 :: d2) with (d1 ++ [46] ++ d2). rewrite B1. simpl.
    destruct l as [| c l']; [contradiction |].
    destruct d1 as [| c1 d1']; [contradiction |].
    simpl in A4, B4 |- *.
    apply andb_true_iff in A4. destruct A4 as [-> _].
    apply andb_true_iff in B4. destruct B4 as [-> _]. simpl.
    rewrite existsb_app. simpl. rewrite !orb_true_r. reflexivity.
  - rewrite forallb_app, A4. simpl.
    change (d1 ++ 46 :: d2) with (d1 ++ [46] ++ d2). exact B4.
  - rewrite !length_app. simpl.
    destruct l; [contradiction |]. destruct d1; [contradiction |].
    destruct d2; [contradiction |]. simpl. lia.
Qed.

(** An accepted email. *)
Lemma accepted_email_has_listed_pattern_witness :
  listedEmailPattern (emailSetters (js " Bob@Example.com ")) = true
  /\ forallb (fun c => negb (isWhiteSpace c))
       (emailSetters (js " Bob@Example.com ")) = true
  /\ (5 <= List.length (emailSetters (js " Bob@Example.com ")))%nat.
Proof.
  apply (accepted_email_has_listed_pattern (js " Bob@Example.com ")).
  reflexivity.
Defined.

(** ** The connection manager *)

Local Open Scope nat_scope.

(** A call that returns a connection has cached it. *)
Lemma connectToDatabase_caches (attempt : settled) (rt : Runtime)
  (m : Mongoose) :
  snd (connectToDatabase attempt rt) = Ok m ->
  conn (cached (fst (connectToDatabase attempt rt))) = Some m.
Proof.
  unfold connectToDatabase, connectToDatabase_enter.
  destruct (conn (cached rt)) as [m0 |] eqn:C.
  - simpl. intros H. injection H as <-. exact C.
  - destruct (promise (cached rt)) as [p |];
      match goal with
      | |- context [connectToDatabase_resume _ ?o] => destruct o
      end; simpl; intros H; try discriminate H; injection H as <-; reflexivity.
Qed.

Lemma connectToDatabase_cached_call (attempt attempt' : settled)
  (rt : Runtime) (m : Mongoose) :
  snd (connectToDatabase attempt rt) = Ok m ->
  connectToDatabase attempt' (fst (connectToDatabase attempt rt))
  = (fst (connectToDatabase attempt rt), Ok m).
Proof.
  intros H. apply connectToDatabase_caches in H.
  unfold connectToDatabase at 1, connectToDatabase_enter. rewrite H.
  reflexivity.
Qed.

(** X15.  Once a call of [connectToDatabase] has returned a connection, the
    connection is cached: every later call returns the same connection and
    leaves the state as it is, so [mongoose.connect] is not called again; a
    call adds at most one call of [mongoose.connect]. *)
Theorem connectToDatabase_reuses_connection (attempt : settled)
  (rt : Runtime) (m : Mongoose) :
  snd (connectToDatabase attempt rt) = Ok m ->
  let rt1 := fst (connectToDatabase attempt rt) in
  conn (cached rt1) = Some m
  /\ connectCalls rt1 <= S (connectCalls rt)
  /\ forall attempt', connectToDatabase attempt' rt1 = (rt1, Ok m).
Proof.
  intros H rt1. subst rt1.
  split; [apply connectToDatabase_caches; exact H |].
  split.
  - clear H. unfold connectToDatabase, connectToDatabase_enter.
    destruct (conn (cached rt)); [simpl; lia |].
    destruct (promise (cached rt));
      match goal with
      | |- context [connectToDatabase_resume (settle ?r ?p ?o) ?o] =>
          assert (E : connectCalls (settle r p o) = connectCalls r)
            by (unfold settle; destruct (lookupPromise _ p); reflexivity);
          destruct o; simpl in *; lia
      end.
  - intros attempt'.
    apply connectToDatabase_cached_call. exact H.
Qed.

(** A second call, whose own attempt would fail, after a first that connected. *)
Lemma connectToDatabase_reuses_connection_witness :
  connectToDatabase (Rejected TypeError)
    (fst (connectToDatabase (Fulfilled 7%N) initial))
  = (fst (connectToDatabase (Fulfilled 7%N) initial), Ok 7%N).
Proof.
  exact (proj2 (proj2 (connectToDatabase_reuses_connection (Fulfilled 7%N)
                         initial 7%N eq_refl)) (Rejected TypeError)).
Defined.

(** A promise that has settled stays as it is. *)
Lemma settle_lookup (rt : Runtime) (p q : PromiseId) (o x : settled) :
  lookupPromise (settledPromises rt) q = Some x ->
  lookupPromise (settledPromises (settle rt p o)) q = Some x.
Proof.
  intros H. unfold settle.
  destruct (lookupPromise (settledPromises rt) p) eqn:L; [exact H |].
  simpl. destruct (Nat.eqb_spec p q) as [-> | _]; [congruence | exact H].
Qed.

Lemma waitingFor_In (w : list (nat * PromiseId)) (c : nat) (p : PromiseId) :
  waitingFor w c = Some p -> In (c, p) w.
Proof.
  induction w as [| [c' p'] w IH]; simpl; [discriminate |].
  destruct (Nat.eqb_spec c' c) as [-> | _].
  - intros H. injection H as <-. left. reflexivity.
  - intros H. right. exact (IH H).
Qed.

Lemma removeWaiter_In (w : list (nat * PromiseId)) (c c' : nat)
  (p : PromiseId) :
  In (c', p) (removeWaiter w c) -> In (c', p) w.
Proof. unfold removeWaiter. intros H. apply filter_In in H. apply H. Qed.

(** [singleAttempt] holds at the start and is kept by every step but a
    disconnect. *)
Lemma start_singleAttempt : singleAttempt start.
Proof.
  split; simpl; try discriminate; try contradiction.
  intros _. repeat split.
Qed.

Lemma step_singleAttempt (s s' : System) (a : action) :
  singleAttempt s -> isDisconnect a = false -> step s a = Some s' ->
  singleAttempt s'.
Proof.
  intros I D.
  destruct a as [c | p o | c |]; try discriminate D; simpl.
  - unfold connectToDatabase_enter.
    destruct (conn (cached (runtime s))) as [m |] eqn:C.
    + destruct I as [I0 I1 Iw Ic Io].
      intros H. injection H as <-.
      constructor; simpl; [| exact I1 | exact Iw | exact Ic |].
      * intros P. destruct (I0 P) as (C' & _). congruence.
      * intros c' r H. apply in_app_or in H. destruct H as [H | [H | []]].
        -- exact (Io c' r H).
        -- injection H as <- <-. exists (Fulfilled m).
           split; [exact (Ic m C) | reflexivity].
    + destruct (promise (cached (runtime s))) as [p |] eqn:P.
      * destruct I as [I0 I1 Iw Ic Io].
        intros H. injection H as <-.
        constructor; simpl; [| exact I1 | | exact Ic | exact Io].
        -- rewrite P. discriminate.
        -- intros c' p' H. apply in_app_or in H. destruct H as [H | [H | []]].
           ++ exact (Iw c' p' H).
           ++ injection H as <- <-. exact (proj1 (I1 p P)).
      * destruct I as [I0 I1 Iw Ic Io].
        destruct (I0 P) as (_ & W & O & K & N).
        intros H. injection H as <-.
        constructor; simpl.
        -- discriminate.
        -- intros p H. injection H as <-. rewrite N, K. split; reflexivity.
        -- rewrite W. simpl. intros c' p' [H | []]. injection H as <- <-.
           exact N.
        -- discriminate.
        -- rewrite O. contradiction.
  - destruct I as [I0 I1 Iw Ic Io].
    intros H. injection H as <-.
    assert (E : cached (settle (runtime s) p o) = cached (runtime s)
                /\ connectCalls (settle (runtime s) p o)
                   = connectCalls (runtime s)
                /\ nextPromise (settle (runtime s) p o)
                   = nextPromise (runtime s)).
    { unfold settle. destruct (lookupPromise _ p); repeat split. }
    destruct E as (E1 & E2 & E3).
    constructor; simpl; rewrite ?E1, ?E2, ?E3;
      [exact I0 | exact I1 | exact Iw | |].
    + intros m C. apply settle_lookup. exact (Ic m C).
    + intros c r H. destruct (Io c r H) as (x & L & ->).
      exists x. split; [apply settle_lookup; exact L | reflexivity].
  - destruct (waitingFor (waiting s) c) as [p |] eqn:W; [| discriminate].
    pose proof (sa_waiting s I c p (waitingFor_In _ _ _ W)) as ->.
    destruct (lookupPromise (settledPromises (runtime s)) 0) as [o |] eqn:L;
      [| discriminate].
    destruct I as [I0 I1 Iw Ic Io].
    assert (P : promise (cached (runtime s)) <> None).
    { intros P. destruct (I0 P) as (_ & W' & _). rewrite W' in W.
      discriminate W. }
    destruct o as [m | e]; simpl; intros H; injection H as <-.
    + constructor; simpl.
      * intros P'. contradiction.
      * exact I1.
      * intros c' p' H. exact (Iw c' p' (removeWaiter_In _ _ _ _ H)).
      * intros m' H. injection H as <-. exact L.
      * intros c' r H. apply in_app_or in H. destruct H as [H | [H | []]].
        -- exact (Io c' r H).
        -- injection H as <- <-. exists (Fulfilled m).
           split; [exact L | reflexivity].
    + constructor; simpl.
      * intros P'. contradiction.
      * exact I1.
      * intros c' p' H. exact (Iw c' p' (removeWaiter_In _ _ _ _ H)).
      * exact Ic.
      * intros c' r H. apply in_app_or in H. destruct H as [H | [H | []]].
        -- exact (Io c' r H).
        -- injection H as <- <-. exists (Rejected e).
           split; [exact L | reflexivity].
Qed.

Lemma run_singleAttempt (l : list action) (s s' : System) :
  singleAttempt s -> forallb (fun a => negb (isDisconnect a)) l = true ->
  run s l = Some s' -> singleAttempt s'.
Proof.
  revert s. induction l as [| a l IH]; intros s I D; simpl.
  - intros H. injection H as <-. exact I.
  - simpl in D. apply andb_true_iff in D. destruct D as [D1 D2].
    apply negb_true_iff in D1.
    destruct (step s a) as [s1 |] eqn:S; [| discriminate].
    intros R. exact (IH s1 (step_singleAttempt s s1 a I D1 S) D2 R).
Qed.

(** X16.  As long as nobody disconnects, however the callers of
    [connectToDatabase] interleave, [mongoose.connect] is called at most
    once, and all callers that have come back have the same outcome. *)
Theorem connect_attempted_once (l : list action) (s : System) :
  run start l = Some s ->
  forallb (fun a => negb (isDisconnect a)) l = true ->
  connectCalls (runtime s) <= 1
  /\ (forall c1 r1 c2 r2,
        In (c1, r1) (outcomes s) -> In (c2, r2) (outcomes s) -> r1 = r2).
Proof.
  intros R D.
  destruct (run_singleAttempt l start s start_singleAttempt D R)
    as [I0 I1 _ _ Io].
  split.
  - destruct (promise (cached (runtime s))) as [p |] eqn:P.
    + destruct (I1 p eq_refl) as [_ ->]. lia.
    + destruct (I0 eq_refl) as (_ & _ & _ & -> & _). lia.
  - intros c1 r1 c2 r2 H1 H2.
    destruct (Io c1 r1 H1) as (o1 & L1 & ->).
    destruct (Io c2 r2 H2) as (o2 & L2 & ->).
    congruence.
Qed.

(** Three callers, one of them after the connection is there. *)
Lemma connect_attempted_once_witness :
  connectCalls
    (runtime
       (match run start [Call 1; Call 2; Settle 0 (Fulfilled 7%N); Resume 2;
                         Call 3; Resume 1] with
        | Some s => s
        | None => start
        end)) <= 1.
Proof.
  exact (proj1 (connect_attempted_once
                  [Call 1; Call 2; Settle 0 (Fulfilled 7%N); Resume 2;
                   Call 3; Resume 1] _ eq_refl eq_refl)).
Defined.

(** X17.  With a connection cached, a [disconnectFromDatabase] that goes
    through empties the cache, and the next [connectToDatabase] starts a new
    attempt, counted as a new call of [mongoose.connect], whose outcome it
    returns.  When [mongoose.disconnect()] fails, the error is thrown and the
    cache keeps the connection.  Without a cached connection the function
    does nothing. *)
Theorem disconnect_resets_cache (rt : Runtime) (m : Mongoose)
  (attempt : settled) (e : exn) :
  conn (cached rt) = Some m ->
  lookupPromise (settledPromises rt) (nextPromise rt) = None ->
  let rt1 := fst (disconnectFromDatabase None rt) in
  snd (disconnectFromDatabase None rt) = Ok tt
  /\ isUninitialized rt1 = true
  /\ snd (connectToDatabase attempt rt1) = settledAs attempt
  /\ connectCalls (fst (connectToDatabase attempt rt1)) = S (connectCalls rt)
  /\ disconnectFromDatabase (Some e) rt = (rt, Throw e)
  /\ (forall rt' failure,
        conn (cached rt') = None ->
        disconnectFromDatabase failure rt' = (rt', Ok tt)).
Proof.
  intros C L. unfold disconnectFromDatabase. rewrite C. simpl.
  split; [reflexivity |]. split; [reflexivity |].
  unfold connectToDatabase, connectToDatabase_enter. simpl. rewrite L.
  unfold settle. simpl. rewrite L.
  split; [destruct attempt; reflexivity |].
  split; [destruct attempt; reflexivity |].
  split; [reflexivity |].
  intros rt' failure C'. rewrite C'. reflexivity.
Qed.

(** Connect, then disconnect. *)
Lemma disconnect_resets_cache_witness :
  isUninitialized
    (fst (disconnectFromDatabase None
            (fst (connectToDatabase (Fulfilled 7%N) initial)))) = true.
Proof.
  exact (proj1 (proj2 (disconnect_resets_cache
                         (fst (connectToDatabase (Fulfilled 7%N) initial))
                         7%N (Fulfilled 8%N) TypeError eq_refl eq_refl))).
Defined.

(** ** Bookings and the store *)

Local Open Scope N_scope.

Section StoreInvariant.

Variable castObjectId : jsstring -> ObjectId + jsstring.

Local Abbreviation create := (Booking_create castObjectId).
Local Abbreviation book := (createBooking castObjectId).





(** X19.  Bookings are not deduplicated: after a booking that succeeded,
    the same booking made again (the store answering) succeeds again and
    stores the same record a second time, without a new connection. *)
Theorem createBooking_twice_adds_two (w w' : World) (srv : Server)
  (input : BookingInput) :
  isOk (snd (book w srv input)) = true ->
  onExists (faults w') = None -> onInsert (faults w') = None ->
  let srv1 := fst (book w srv input) in
  snd (book w' srv1 input) = Ok {| success := true |}
  /\ mongo (fst (book w' srv1 input)) = mongo srv1
  /\ exists b,
       bookings (db (fst (book w' srv1 input)))
       = bookings (db srv) ++ [b; b].
Proof.
  intros O E' I' srv1. subst srv1.
  rewrite (createBooking_unfold castObjectId w srv input) in O |- *.
  destruct (snd (connectToDatabase (connectAttempt w) (mongo srv)))
    as [m | e] eqn:K; [| discriminate O].
  simpl in O.
  destruct (Booking_create_cases castObjectId (faults w) (db srv) input)
    as [[e E] | (id & C & E)]; [rewrite E in O; discriminate O |].
  assert (O1 : isOk (snd (create (faults w) (db srv) input)) = true)
    by (rewrite E; reflexivity).
  apply Booking_create_ok in O1. destruct O1 as (V & _ & M & _).
  rewrite E. simpl fst.
  set (b := {| eventId := id; email := emailSetters (input_email input) |}).
  set (d1 := {| events := events (db srv); bookings := bookings (db srv) ++ [b] |}).
  rewrite (createBooking_unfold castObjectId w').
  cbn [mongo db].
  rewrite (connectToDatabase_cached_call (connectAttempt w)
             (connectAttempt w') (mongo srv) m K).
  cbn [fst snd].
  assert (O2 : isOk (snd (create (faults w') d1 input)) = true).
  { apply Booking_create_ok. repeat split; try assumption. }
  destruct (Booking_create_cases castObjectId (faults w') d1 input)
    as [[e E2] | (id' & C' & E2)]; [rewrite E2 in O2; discriminate O2 |].
  rewrite E2. cbn [fst snd mongo db bookings].
  split; [reflexivity |]. split; [reflexivity |].
  exists b. subst d1. cbn [bookings].
  assert (id' = id) as -> by congruence.
  rewrite <- app_assoc. reflexivity.
Qed.

End StoreInvariant.


(** The same booking twice. *)
Lemma createBooking_twice_adds_two_witness :
  snd (createBooking castHex24 calmWorld
         (fst (createBooking castHex24 calmWorld sampleServer goodBooking))
         goodBooking)
  = Ok {| success := true |}.
Proof.
  exact (proj1 (createBooking_twice_adds_two castHex24 calmWorld calmWorld
                  sampleServer goodBooking eq_refl eq_refl eq_refl)).
Defined.

(** ** The route *)

(** [GET] on a request that carries a slug, and on the others. *)
Lemma GET_unfold (w : World) (srv : Server) (s : jsstring) :
  Route.GET w srv (requestFor s)
  = if slugAcceptable (Some s)
    then
      let srv' := {| mongo := fst (connectToDatabase (connectAttempt w)
                                     (mongo srv));
                     db := db srv |} in
      match snd (connectToDatabase (connectAttempt w) (mongo srv)) with
      | Throw _ => (srv', Route.internalError)
      | Ok _ =>
          match onFindOne (faults w) with
          | Some _ => (srv', Route.internalError)
          | None =>
              match find (slugIs s) (events (db srv)) with
              | None => (srv', Route.notFound)
              | Some event =>
                  (srv', {| Route.status := 200;
                            Route.body := Route.EventResponse event |})
              end
          end
      end
    else (srv, Route.badRequest).
Proof.
  unfold Route.GET, requestFor. cbn [Route.slug].
  rewrite GET_guard.
  destruct (slugAcceptable (Some s)); simpl; [| reflexivity].
  destruct (connectToDatabase (connectAttempt w) (mongo srv)) as [rt [m | e]];
    simpl; [| reflexivity].
  unfold Event_findOne, storeOp.
  destruct (onFindOne (faults w)); simpl; [reflexivity |].
  destruct (find (slugIs s) (events (db srv))); reflexivity.
Qed.

Lemma GET_other (w : World) (srv : Server)
  (params : result (option Route.RouteParams)) :
  (exists s, params = requestFor s)
  \/ (fst (Route.GET w srv params) = srv
      /\ (Route.status (snd (Route.GET w srv params)) = 400%Z
          \/ Route.status (snd (Route.GET w srv params)) = 500%Z)).
Proof.
  destruct params as [[[[s |]] |] | e]; simpl.
  - left. exists s. reflexivity.
  - right. split; [reflexivity | left; reflexivity].
  - right. split; [reflexivity | left; reflexivity].
  - right. split; [reflexivity | right; reflexivity].
Qed.

(** X20.  [GET] never changes the store.  A request it answers with 400, or
    whose parameters are rejected, leaves the server as it is, the
    connection cache included; any other request changes at most the
    connection state, as one [connectToDatabase] does. *)
Theorem GET_reads_only (w : World) (srv : Server)
  (params : result (option Route.RouteParams)) :
  db (fst (Route.GET w srv params)) = db srv
  /\ (Route.status (snd (Route.GET w srv params)) = 400%Z ->
      fst (Route.GET w srv params) = srv)
  /\ (forall e, params = Throw e -> fst (Route.GET w srv params) = srv)
  /\ (mongo (fst (Route.GET w srv params)) = mongo srv
      \/ mongo (fst (Route.GET w srv params))
         = fst (connectToDatabase (connectAttempt w) (mongo srv))).
Proof.
  destruct (GET_other w srv params) as [[s ->] | [F S]].
  - rewrite GET_unfold.
    destruct (slugAcceptable (Some s));
      [| repeat split; try reflexivity; left; reflexivity].
    cbv zeta.
    destruct (snd (connectToDatabase (connectAttempt w) (mongo srv)));
      [destruct (onFindOne (faults w));
         [| destruct (find (slugIs s) (events (db srv)))] |];
      simpl; (split; [reflexivity |]);
      (split; [intros H; discriminate H |]);
      (split; [intros e' H; discriminate H | right; reflexivity]).
  - rewrite F. repeat split; try reflexivity. left. reflexivity.
Qed.

(** The query [{ slug }] selects the events with exactly that slug. *)
Lemma slugIs_eq (s : jsstring) (ev : StoredEvent) :
  slugIs s ev = true <-> slug (fields ev) = Some s.
Proof.
  unfold slugIs. destruct (slug (fields ev)) as [s' |].
  - rewrite str_eqb_eq. split; [intros -> | intros H; injection H as ->];
      reflexivity.
  - split; discriminate.
Qed.

Lemma GET_found (w : World) (srv : Server)
  (params : result (option Route.RouteParams)) :
  Route.status (snd (Route.GET w srv params)) = 200%Z ->
  exists s ev,
    params = requestFor s
    /\ Route.body (snd (Route.GET w srv params)) = Route.EventResponse ev
    /\ In ev (events (db srv)) /\ slug (fields ev) = Some s.
Proof.
  destruct (GET_other w srv params) as [[s ->] | [_ [S | S]]];
    [| rewrite S; discriminate | rewrite S; discriminate].
  rewrite GET_unfold.
  destruct (slugAcceptable (Some s)); [| discriminate].
  cbv zeta.
  destruct (snd (connectToDatabase (connectAttempt w) (mongo srv)));
    [| discriminate].
  destruct (onFindOne (faults w)); [discriminate |].
  destruct (find (slugIs s) (events (db srv))) as [ev |] eqn:F;
    [| discriminate].
  intros _. apply find_some in F. destruct F as [I E].
  exists s, ev. repeat split; [exact I | apply slugIs_eq; exact E].
Qed.

(** X21.  A response with status 200 carries a stored event whose slug is
    the requested one; a response with status 404 means that no stored
    event has the requested slug. *)
Theorem GET_finds_by_slug (w : World) (srv : Server)
  (params : result (option Route.RouteParams)) :
  (Route.status (snd (Route.GET w srv params)) = 200%Z ->
   exists s ev,
     params = requestFor s
     /\ Route.body (snd (Route.GET w srv params)) = Route.EventResponse ev
     /\ In ev (events (db srv)) /\ slug (fields ev) = Some s)
  /\ (Route.status (snd (Route.GET w srv params)) = 404%Z ->
      exists s,
        params = requestFor s
        /\ forall ev, In ev (events (db srv)) -> slug (fields ev) <> Some s).
Proof.
  split; [apply GET_found |].
  destruct (GET_other w srv params) as [[s ->] | [_ [S | S]]];
    [| rewrite S; discriminate | rewrite S; discriminate].
  rewrite GET_unfold.
  destruct (slugAcceptable (Some s)); [| discriminate].
  cbv zeta.
  destruct (snd (connectToDatabase (connectAttempt w) (mongo srv)));
    [| discriminate].
  destruct (onFindOne (faults w)); [discriminate |].
  destruct (find (slugIs s) (events (db srv))) as [ev |] eqn:F;
    [discriminate |].
  intros _. exists s. split; [reflexivity |].
  intros ev I E. apply slugIs_eq in E.
  pose proof (find_none _ _ F ev I) as N. congruence.
Qed.

(** X22.  The slug is looked up as it is given, not trimmed: when the
    stored slugs are of the form [slugify] produces and the requested one is
    not (white space around it, a capital letter), the answer is never 200,
    and it is 404 when the slug passes [isValidSlug] and the store answers. *)
Theorem GET_matches_slug_exactly (w : World) (srv : Server) (s : jsstring) :
  slugsCanonical (db srv) = true -> isSlug s = false ->
  Route.status (snd (Route.GET w srv (requestFor s))) <> 200%Z
  /\ (slugAcceptable (Some s) = true -> connects w srv = true ->
      onFindOne (faults w) = None ->
      snd (Route.GET w srv (requestFor s)) = Route.notFound).
Proof.
  intros C N.
  assert (F : find (slugIs s) (events (db srv)) = None).
  { destruct (find (slugIs s) (events (db srv))) as [ev |] eqn:F;
      [| reflexivity].
    apply find_some in F. destruct F as [I E]. apply slugIs_eq in E.
    unfold slugsCanonical in C. rewrite forallb_forall in C.
    specialize (C ev I). rewrite E in C. congruence. }
  rewrite GET_unfold, F. split.
  - destruct (slugAcceptable (Some s)); [| discriminate].
    cbv zeta.
    destruct (snd (connectToDatabase (connectAttempt w) (mongo srv)));
      [| discriminate].
    destruct (onFindOne (faults w)); discriminate.
  - intros -> K ->. unfold connects in K. cbv zeta.
    destruct (snd (connectToDatabase (connectAttempt w) (mongo srv)));
      [reflexivity | discriminate K].
Qed.

(** The stored slug with a space on each side. *)
Lemma GET_matches_slug_exactly_witness :
  Route.status (snd (Route.GET calmWorld sampleServer
                       (requestFor (js " dev-conf ")))) <> 200%Z
  /\ snd (Route.GET calmWorld sampleServer (requestFor (js " dev-conf ")))
     = Route.notFound.
Proof.
  destruct (GET_matches_slug_exactly calmWorld sampleServer (js " dev-conf ")
              eq_refl eq_refl) as [A B].
  split; [exact A | exact (B eq_refl eq_refl eq_refl)].
Defined.

(** No step of [slugify] makes the string longer. *)
Lemma length_trim (s : jsstring) : (List.length (trim s) <= List.length s)%nat.
Proof.
  destruct (trim_split s) as [u [w [_ [_ E]]]].
  rewrite E at 2. rewrite !length_app. lia.
Qed.

Lemma length_hyphenate (s : jsstring) (b : bool) :
  (List.length (hyphenate b s) <= List.length s)%nat.
Proof.
  revert b. induction s as [| c r IH]; intros b; simpl; [lia |].
  destruct (isSlugAlnum c); [simpl; specialize (IH false); lia |].
  destruct b; simpl; specialize (IH true); lia.
Qed.

Lemma length_dropLeadingHyphen (s : jsstring) :
  (List.length (dropLeadingHyphen s) <= List.length s)%nat.
Proof.
  destruct s as [| c r]; simpl; [lia |]. destruct (c =? hyphen); simpl; lia.
Qed.

Lemma length_slugify (title : jsstring) :
  (List.length (slugify title) <= List.length (toLowerCase title))%nat.
Proof.
  unfold slugify, stripEdgeHyphens, dropTrailingHyphen.
  rewrite length_rev.
  pose proof (length_dropLeadingHyphen
                (rev (dropLeadingHyphen
                        (hyphenate false
                           (removeQuotes (trim (toLowerCase title))))))) as H1.
  rewrite length_rev in H1.
  pose proof (length_dropLeadingHyphen
                (hyphenate false (removeQuotes (trim (toLowerCase title)))))
    as H2.
  pose proof (length_hyphenate (removeQuotes (trim (toLowerCase title))) false)
    as H3.
  pose proof (filter_length_le (fun c => negb (isQuote c))
                (trim (toLowerCase title))) as H4.
  fold (removeQuotes (trim (toLowerCase title))) in H4.
  pose proof (length_trim (toLowerCase title)) as H5.
  lia.
Qed.

Lemma slugify_acceptable (title : jsstring) :
  noLowerAlnum title = false ->
  (List.length (toLowerCase title) <= 200)%nat ->
  slugAcceptable (Some (slugify title)) = true.
Proof.
  intros A L. unfold slugAcceptable.
  destruct (isSlug_parts _ (slugify_isSlug title)) as (C & _).
  rewrite (trim_slug _ C).
  pose proof (length_slugify title) as L'.
  assert (N : slugify title <> []).
  { intros E. apply (f_equal (filter isSlugAlnum)) in E.
    rewrite filter_alnum_slugify in E. simpl in E.
    apply filter_nil_forallb in E. unfold noLowerAlnum in A. congruence. }
  apply andb_true_iff. split; apply Nat.leb_le; [| lia].
  destruct (slugify title); [contradiction | simpl; lia].
Qed.

(** X23.  An event stored under the slug generated from its title can be
    fetched by it: when the title has a letter or digit and, in lower case,
    at most 200 code units, the slug passes [isValidSlug] and [GET]
    answers 200 with an event of that slug. *)
Theorem generated_slug_is_fetchable (w : World) (srv : Server)
  (ev : StoredEvent) (title : jsstring) :
  In ev (events (db srv)) ->
  slug (fields ev) = Some (slugify title) ->
  noLowerAlnum title = false ->
  (List.length (toLowerCase title) <= 200)%nat ->
  connects w srv = true -> onFindOne (faults w) = None ->
  Route.isValidSlug (Some (slugify title)) = true
  /\ exists ev',
       snd (Route.GET w srv (requestFor (slugify title)))
       = {| Route.status := 200; Route.body := Route.EventResponse ev' |}
       /\ slug (fields ev') = Some (slugify title).
Proof.
  intros I E A L K F.
  pose proof (slugify_acceptable title A L) as S.
  split.
  - pose proof (GET_guard (slugify title)) as G. rewrite S in G.
    simpl in G. apply orb_false_iff in G. destruct G as [_ G].
    apply negb_false_iff in G. exact G.
  - rewrite GET_unfold, S, F. cbv zeta. unfold connects in K.
    destruct (snd (connectToDatabase (connectAttempt w) (mongo srv)));
      [| discriminate K].
    destruct (find (slugIs (slugify title)) (events (db srv))) as [ev' |] eqn:Q.
    + exists ev'. split; [reflexivity |].
      apply find_some in Q. apply slugIs_eq. apply Q.
    + pose proof (find_none _ _ Q ev I) as N.
      apply slugIs_eq in E. congruence.
Qed.

(** The event of the example server, by the slug of its title. *)
Lemma generated_slug_is_fetchable_witness :
  Route.isValidSlug (Some (slugify (js "Dev Conf"))) = true
  /\ exists ev',
       snd (Route.GET calmWorld sampleServer
              (requestFor (slugify (js "Dev Conf"))))
       = {| Route.status := 200; Route.body := Route.EventResponse ev' |}
       /\ slug (fields ev') = Some (slugify (js "Dev Conf")).
Proof.
  apply (generated_slug_is_fetchable calmWorld sampleServer
           {| _id := storedEventId;
              fields := sampleAttrs_saved (js "Dev Conf")
                          (Some (js "dev-conf")) |}
           (js "Dev Conf")).
  - left. reflexivity.
  - reflexivity.
  - reflexivity.
  - simpl. lia.
  - reflexivity.
  - reflexivity.
Defined.
